(** * The v1 RPC service of minefield: a shallow embedding

    The Go package [v1] (api/v1 service) answers RPCs over a [graph.Storage]
    backend.  This development embeds
    - [NodeToServiceNode] and the request handlers that use it,
    - [queryHeap] together with the [container/heap] routines it is driven by,
    - [CustomLeaderboard], whose goroutines (the caller, one worker per named
      node and the goroutine that closes the channels) are run under an
      explicit schedule,
    - the method [Run] of the command that ingests SBOMs (package [sbom]),
    and proves properties of them.

    Conventions.
    - A Go [(value, error)] pair is a [result]; a handler ends in a [res]:
      a value, an error, or a panic.
    - Go pointers that the code dereferences and that may be nil are
      [option]s; a nil dereference is a panic.
    - [uint32] identifiers are [N]; the code does no arithmetic on them.
    - Slice indices and lengths are [nat]: Go's [int] is 64 bits wide and every
      index the code computes is below a slice length. *)

From Stdlib Require Import ZArith Lia ZifyNat.
From Stdlib.Strings Require Import Byte Ascii.
From stdpp Require Import base decidable option list list_numbers sorting
  gmap strings.
From stdpp Require Import pretty.

Local Open Scope string_scope.
Local Open Scope nat_scope.
Local Open Scope list_scope.

(* ===================================================================== *)
(** ** Errors and results *)

(** [fmt.Errorf(format)], and [fmt.Errorf(format, err)] for a format that
    ends in the verb [%w]. *)
Inductive error : Type :=
| Errorf (format : string)
| Errorf_w (format : string) (err : error).

(** A Go [(value, error)] return. *)
Inductive result (A : Type) : Type :=
| Ok (a : A)
| Err (e : error).
Arguments Ok {A} a.
Arguments Err {A} e.

(** How a handler ends: [return v, nil], [return nil, err], or a panic. *)
Inductive res (A : Type) : Type :=
| Val (a : A)
| Exn (e : error)
| Crash (msg : string).
Arguments Val {A} a.
Arguments Exn {A} e.
Arguments Crash {A} msg.

Definition uint32 : Type := N.

(* ===================================================================== *)
(** ** The packages the service imports *)

(** [github.com/RoaringBitmap/roaring]: a set of [uint32].  Modelled from
    the spec: the compressed bitset of section 4.3, whose [ToArray] lists the
    members in ascending order. *)
Module roaring.
Abbreviation Bitmap := (gset N).
Definition ToArray (b : Bitmap) : list uint32 := merge_sort N.le (elements b).
End roaring.

(** [context.Context]: a cancellation token.  [cancelAt = Some t] means that
    the token is cancelled from the [t]-th scheduling step of the call on. *)
Module context.
Record Context : Type := { cancelAt : option nat }.
Definition Background : Context := {| cancelAt := None |}.
Definition Canceled : error := Errorf "context canceled".
Definition Err (ctx : Context) (now : nat) : option error :=
  match cancelAt ctx with
  | Some t => if t <=? now then Some Canceled else None
  | None => None
  end.
End context.

(** [connectrpc.com/connect]: request and response envelopes. *)
Module connect.
Record Request (T : Type) : Type := { Msg : option T }.
Arguments Msg {T} _.
Record Response (T : Type) : Type :=
  { Body : T; Header : gmap string (list string) }.
Arguments Body {T} _.
Arguments Header {T} _.
Definition NewResponse {T} (msg : T) : Response T :=
  {| Body := msg; Header := ∅ |}.
(** [res.Header().Set(key, value)] *)
Definition HeaderSet {T} (key value : string) (r : Response T) : Response T :=
  {| Body := Body r; Header := <[key := [value]]> (Header r) |}.
End connect.

(** [emptypb.Empty] *)
Module emptypb.
Inductive Empty : Type := mkEmpty.
End emptypb.

(** Package [graph]: nodes, caches and the storage interface.  The package is
    not part of the sources at hand.  The fields of a node are those the
    service reads; the interface lists the methods the service calls, with
    the results the storage contract of the specification gives them
    ([GetNodes] is batched and keeps the order of the identifiers); the
    package functions are left open. *)
Module graph.
Module Node.
Record t (any : Type) : Type := mk {
  ID : uint32;
  Name : string;
  Type_ : string;
  Metadata : any;
  Children : roaring.Bitmap;
  Parents : roaring.Bitmap
}.
Arguments mk {any}.
Arguments ID {any} _.
Arguments Name {any} _.
Arguments Type_ {any} _.
Arguments Metadata {any} _.
Arguments Children {any} _.
Arguments Parents {any} _.
End Node.

(** Modelled from the spec: the cache entry of a node, its transitive
    dependents and dependencies.  The service hands the entries on and does
    not read them. *)
Module NodeCache.
Record t : Type := mk {
  ID : uint32;
  AllParents : roaring.Bitmap;
  AllChildren : roaring.Bitmap
}.
End NodeCache.

(** [graph.Storage], the read methods the handlers call.  [Sto] is the state
    of the backend. *)
Class Storage (any Sto : Type) : Type := {
  GetNode : Sto → uint32 → result (Node.t any);
  NameToID : Sto → string → result uint32;
  GetNodesByGlob : Sto → string → result (list (Node.t any));
  GetAllKeys : Sto → result (list uint32);
  GetNodes : Sto → list uint32 → result (list (Node.t any));
  GetCaches : Sto → list uint32 → result (gmap uint32 NodeCache.t);
  ToBeCached : Sto → result (list uint32)
}.

(** The package-level functions the handlers call, and [json.Marshal] on a
    node's metadata. *)
Class Package (any Sto : Type) : Type := {
  storage_methods :: Storage any Sto;
  (** a [[]byte] stored in an [any] *)
  bytes_any : list byte → any;
  (** [json.Marshal(v)] *)
  json_Marshal : any → result (list byte);
  (** [graph.AddNode(storage, type, metadata, name)]; returns the backend
      as the call leaves it *)
  AddNode : Sto → string → any → string → result (Node.t any) * Sto;
  (** [graph.ParseAndExecute(script, storage, defaultNodeName, nodes,
      caches, isCached)] *)
  ParseAndExecute :
    string → Sto → string → list (Node.t any) → gmap uint32 NodeCache.t →
    bool → result roaring.Bitmap
}.
End graph.
#[global] Existing Instance graph.storage_methods.

(** Package [service]: the generated protobuf messages. *)
Module service.
Module Node.
Record t : Type := mk {
  Id : uint32;
  Name : string;
  Type_ : string;
  Metadata : list byte;
  Dependencies : list uint32;
  Dependents : list uint32
}.
End Node.
Module Query.
Record t : Type := mk { Node : Node.t; Output : list uint32 }.
End Query.
Module GetNodeRequest.
Record t : Type := mk { Id : uint32 }.
End GetNodeRequest.
Module GetNodeResponse.
Record t : Type := mk { Node : Node.t }.
End GetNodeResponse.
Module GetNodeByNameRequest.
Record t : Type := mk { Name : string }.
End GetNodeByNameRequest.
Module GetNodeByNameResponse.
Record t : Type := mk { Node : Node.t }.
End GetNodeByNameResponse.
Module GetNodesByGlobRequest.
Record t : Type := mk { Pattern : string }.
End GetNodesByGlobRequest.
Module GetNodesByGlobResponse.
Record t : Type := mk { Nodes : list Node.t }.
End GetNodesByGlobResponse.
Module AddNodeRequest.
Record t : Type := mk { Node : option Node.t }.
End AddNodeRequest.
Module AddNodeResponse.
Record t : Type := mk { Node : Node.t }.
End AddNodeResponse.
Module AllKeysResponse.
Record t : Type := mk { Nodes : list Node.t }.
End AllKeysResponse.
Module QueryRequest.
Record t : Type := mk { Script : string }.
End QueryRequest.
Module QueryResponse.
Record t : Type := mk { Nodes : list Node.t }.
End QueryResponse.
Module CustomLeaderboardRequest.
Record t : Type := mk { Script : string }.
End CustomLeaderboardRequest.
Module CustomLeaderboardResponse.
(** [Queries] is a [[]*service.Query]; an entry is nil until it is set *)
Record t : Type := mk { Queries : list (option Query.t) }.
End CustomLeaderboardResponse.
Module HealthCheckResponse.
Record t : Type := mk { Status : string }.
End HealthCheckResponse.
End service.

(* ===================================================================== *)
(** ** Handlers as computations that log their calls *)

(** The calls a handler makes on the backend and on package [graph]. *)
Inductive call : Type :=
| CallGetNode (id : uint32)
| CallNameToID (name : string)
| CallGetNodesByGlob (pattern : string)
| CallGetAllKeys
| CallGetNodes (ids : list uint32)
| CallGetCaches (ids : list uint32)
| CallToBeCached
| CallAddNode (type name : string)
| CallParseAndExecute (script focus : string) (isCached : bool).

(** What a handler acts on: the backend behind [s.storage] and the log of
    the calls made so far. *)
Record World (Sto : Type) : Type := mkWorld { store : Sto; log : list call }.
Arguments mkWorld {Sto}.
Arguments store {Sto} _.
Arguments log {Sto} _.

(** A handler body: it reads and updates the world and ends in a [res]. *)
Definition Op (Sto A : Type) : Type := World Sto → res A * World Sto.

Section OpMonad.
Context {Sto : Type}.

Definition ret {A} (a : A) : Op Sto A := λ w, (Val a, w).
Definition fail {A} (e : error) : Op Sto A := λ w, (Exn e, w).
Definition panic {A} (msg : string) : Op Sto A := λ w, (Crash msg, w).
Definition bind {A B} (m : Op Sto A) (k : A → Op Sto B) : Op Sto B :=
  λ w,
    match m w with
    | (Val a, w') => k a w'
    | (Exn e, w') => (Exn e, w')
    | (Crash msg, w') => (Crash msg, w')
    end.

Definition logged (c : call) (w : World Sto) : World Sto :=
  {| store := store w; log := log w ++ [c] |}.

(** [v, err := f(...); if err != nil { return nil, err }] *)
Definition try {A} (c : call) (f : Sto → result A) : Op Sto A :=
  λ w,
    match f (store w) with
    | Ok a => (Val a, logged c w)
    | Err e => (Exn e, logged c w)
    end.

(** [v, err := f(...); if err != nil { return nil, fmt.Errorf(format, err) }] *)
Definition try_wrap {A} (c : call) (format : string) (f : Sto → result A) : Op Sto A :=
  λ w,
    match f (store w) with
    | Ok a => (Val a, logged c w)
    | Err e => (Exn (Errorf_w format e), logged c w)
    end.

(** the same for a call that changes the backend *)
Definition try_wrap_upd {A} (c : call) (format : string)
    (f : Sto → result A * Sto) : Op Sto A :=
  λ w,
    match f (store w) with
    | (Ok a, st) => (Val a, {| store := st; log := log w ++ [c] |})
    | (Err e, st) =>
        (Exn (Errorf_w format e), {| store := st; log := log w ++ [c] |})
    end.

(** the same for a function that is no call on the backend
    ([NodeToServiceNode]) *)
Definition lift_wrap {A} (format : string) (r : result A) : Op Sto A :=
  match r with
  | Ok a => ret a
  | Err e => fail (Errorf_w format e)
  end.

(** [p.field] through a pointer that may be nil *)
Definition deref {A} (p : option A) : Op Sto A :=
  match p with
  | Some a => ret a
  | None => panic "invalid memory address or nil pointer dereference"
  end.

(** [for _, x := range xs { y, err := f(x); if err != nil { return nil,
    fmt.Errorf(format, err) }; ys = append(ys, y) }] *)
Fixpoint for_append {A B} (format : string) (f : A → result B)
    (xs : list A) (ys : list B) : Op Sto (list B) :=
  match xs with
  | [] => ret ys
  | x :: xs' =>
      match f x with
      | Err e => fail (Errorf_w format e)
      | Ok y => for_append format f xs' (ys ++ [y])
      end
  end.
End OpMonad.

Global Instance Op_ret {Sto} : MRet (Op Sto) := @ret Sto.
Global Instance Op_bind {Sto} : MBind (Op Sto) := λ A B k m, bind m k.

(* ===================================================================== *)
(** ** Package v1 *)

(** [type Query struct { Node graph.Node; Output []uint32 }] *)
Module Query.
Record t (any : Type) : Type := mk {
  Node : graph.Node.t any;
  Output : list uint32
}.
Arguments mk {any}.
Arguments Node {any} _.
Arguments Output {any} _.
End Query.

Section Conversion.
Context {any Sto : Type} `{!graph.Package any Sto}.

Definition NodeToServiceNode (node : graph.Node.t any) : result service.Node.t :=
  match graph.json_Marshal (graph.Node.Metadata node) with
  | Err err => Err err
  | Ok data =>
      Ok {| service.Node.Id := graph.Node.ID node;
            service.Node.Name := graph.Node.Name node;
            service.Node.Type_ := graph.Node.Type_ node;
            service.Node.Metadata := data;
            service.Node.Dependencies := roaring.ToArray (graph.Node.Children node);
            service.Node.Dependents := roaring.ToArray (graph.Node.Parents node) |}
  end.
End Conversion.

(** [type queryHeap []*Query] and its methods.  An index outside the slice
    makes the Go methods panic; [Less] then answers [false] and [Swap]
    leaves the slice alone, and [heap.Pop], the one caller that can be
    reached with such an index, checks for the empty heap itself. *)
Module queryHeap.
Abbreviation t any := (list (Query.t any)).

Section Methods.
Context {any : Type}.
Local Abbreviation t := (queryHeap.t any).

Definition Len (h : t) : nat := length h.

Definition Less (h : t) (i j : nat) : bool :=
  match h !! i, h !! j with
  | Some a, Some b => length (Query.Output a) <? length (Query.Output b)
  | _, _ => false
  end.

Definition Swap (h : t) (i j : nat) : t :=
  match h !! i, h !! j with
  | Some a, Some b => <[j := a]> (<[i := b]> h)
  | _, _ => h
  end.

Definition Push (h : t) (x : Query.t any) : t := h ++ [x].

(** [x := old[n-1]; *h = old[0 : n-1]; return x] *)
Definition Pop (h : t) : option (Query.t any * t) :=
  match h !! (length h - 1) with
  | Some x => Some (x, take (length h - 1) h)
  | None => None
  end.
End Methods.
End queryHeap.

(** [container/heap] of the Go standard library, at the interface
    [queryHeap] implements.  The loops of [up] and [down] run on fuel: [up]
    moves to a smaller index and [down] to a larger one below [n] each
    round, so [j + 1] and [n] rounds suffice. *)
Module heap.
Section Heap.
Context {any : Type}.
Local Abbreviation t := (queryHeap.t any).

(** [for { i := (j - 1) / 2; if i == j || !h.Less(j, i) { break };
     h.Swap(i, j); j = i }].  At [j = 0] Go's [(j - 1) / 2] is [-1 / 2 = 0],
    and so is the truncated subtraction here. *)
Fixpoint up_loop (fuel : nat) (h : t) (j : nat) : t :=
  match fuel with
  | 0 => h
  | S fuel' =>
      let i := (j - 1) / 2 in
      if (i =? j) || negb (queryHeap.Less h j i) then h
      else up_loop fuel' (queryHeap.Swap h i j) i
  end.
Definition up (h : t) (j : nat) : t := up_loop (j + 1) h j.

(** [for { j1 := 2*i + 1; if j1 >= n || j1 < 0 { break }; j := j1;
     if j2 := j1 + 1; j2 < n && h.Less(j2, j1) { j = j2 };
     if !h.Less(j, i) { break }; h.Swap(i, j); i = j }].
    The result [i > i0] of the Go function is dropped: [Init] and [Pop]
    do not read it. *)
Fixpoint down_loop (fuel : nat) (h : t) (i n : nat) : t :=
  match fuel with
  | 0 => h
  | S fuel' =>
      let j1 := 2 * i + 1 in
      if n <=? j1 then h
      else
        let j := if (j1 + 1 <? n) && queryHeap.Less h (j1 + 1) j1
                 then j1 + 1 else j1 in
        if negb (queryHeap.Less h j i) then h
        else down_loop fuel' (queryHeap.Swap h i j) j n
  end.
Definition down (h : t) (i0 n : nat) : t := down_loop n h i0 n.

(** [n := h.Len(); for i := n/2 - 1; i >= 0; i-- { down(h, i, n) }];
    [k] is [i + 1]. *)
Fixpoint Init_loop (k : nat) (h : t) (n : nat) : t :=
  match k with
  | 0 => h
  | S i => Init_loop i (down h i n) n
  end.
Definition Init (h : t) : t := Init_loop (queryHeap.Len h / 2) h (queryHeap.Len h).

(** [h.Push(x); up(h, h.Len()-1)] *)
Definition Push (h : t) (x : Query.t any) : t :=
  let h' := queryHeap.Push h x in
  up h' (queryHeap.Len h' - 1).

(** [n := h.Len() - 1; h.Swap(0, n); down(h, 0, n); return h.Pop()];
    on the empty heap [n] is [-1] and [h.Swap(0, -1)] panics. *)
Definition Pop (h : t) : option (Query.t any * t) :=
  match queryHeap.Len h with
  | 0 => None
  | S n => queryHeap.Pop (down (queryHeap.Swap h 0 n) 0 n)
  end.
End Heap.
End heap.

(** Go channels: a buffer of capacity [cap] and the closed flag.  A channel
    made with capacity 0 has no buffer and a send on it waits for a receiver;
    the one such channel here is the semaphore of a service whose
    concurrency is 0, on which nothing receives before the first send has
    gone through, so that send blocks, as [send] says for [cap = 0]. *)
Module chan.
Record t (A : Type) : Type := mk { buf : list A; cap : nat; closed : bool }.
Arguments mk {A}.
Arguments buf {A} _.
Arguments cap {A} _.
Arguments closed {A} _.

Definition make {A} (size : nat) : t A := mk [] size false.

Inductive send_result (A : Type) : Type :=
| Sent (c : t A)
| SendBlocks
| SendPanics.
Arguments Sent {A} c.
Arguments SendBlocks {A}.
Arguments SendPanics {A}.

(** [c <- x] *)
Definition send {A} (c : t A) (x : A) : send_result A :=
  if closed c then SendPanics
  else if length (buf c) <? cap c then Sent (mk (buf c ++ [x]) (cap c) false)
  else SendBlocks.

Inductive recv_result (A : Type) : Type :=
| Received (x : A) (c : t A)
| ReceivedZero
| RecvBlocks.
Arguments Received {A} x c.
Arguments ReceivedZero {A}.
Arguments RecvBlocks {A}.

(** [<-c]: the oldest buffered value; on a closed and drained channel the
    zero value, at once *)
Definition recv {A} (c : t A) : recv_result A :=
  match buf c with
  | x :: b => Received x (mk b (cap c) (closed c))
  | [] => if closed c then ReceivedZero else RecvBlocks
  end.

(** [close(c)]; closing a closed channel panics *)
Definition close {A} (c : t A) : option (t A) :=
  if closed c then None else Some (mk (buf c) (cap c) true).
End chan.

(** [int64] addition, as [atomic.AddInt64] does it *)
Definition int64_add (a b : Z) : Z :=
  ((a + b + 2 ^ 63) mod 2 ^ 64 - 2 ^ 63)%Z.

(** The goroutines of one [CustomLeaderboard] call: the caller, the workers
    in the order they are started, and the goroutine that waits for the
    workers and closes the channels. *)
Inductive goroutine : Type :=
| Main
| Worker (i : nat)
| Closer.

(** Where a worker stands: before [graph.ParseAndExecute] and the send of
    its outcome, before the deferred [<-semaphore], before the deferred
    [wg.Done()], or finished. *)
Inductive worker_pc : Type := AtEval | AtRelease | AtWgDone | Exited.

(** Where the closing goroutine stands. *)
Inductive closer_pc : Type :=
| NotSpawned | AtWait | AtCloseQuery | AtCloseErr | AtCloseSem | CloserExited.

(** [type Service struct { storage graph.Storage; concurrency int32 }] and its
    methods.  A method runs its body on the world that [s.storage] denotes
    with an empty log, and returns how the body ends together with the world
    it leaves. *)
Module Service.
Record t (Sto : Type) : Type := mk { storage : Sto; concurrency : Z }.
Arguments mk {Sto}.
Arguments storage {Sto} _.
Arguments concurrency {Sto} _.

Definition enter {Sto} (s : t Sto) : World Sto := {| store := storage s; log := [] |}.
Definition run {Sto A} (s : t Sto) (body : Op Sto A) : res A * World Sto := body (enter s).

Section Methods.
Context {any Sto : Type} `{!graph.Package any Sto}.

Definition GetNode (s : t Sto) (ctx : context.Context)
    (req : option (connect.Request service.GetNodeRequest.t))
    : res (connect.Response service.GetNodeResponse.t) * World Sto :=
  run s
  (r ← deref req;
   msg ← deref (connect.Msg r);
   node ← try_wrap (CallGetNode (service.GetNodeRequest.Id msg))
            "failed to get node by id: %w"
            (λ st, graph.GetNode st (service.GetNodeRequest.Id msg));
   serviceNode ← lift_wrap "failed to convert node to service node: %w"
                   (NodeToServiceNode node);
   mret (connect.NewResponse (service.GetNodeResponse.mk serviceNode))).

Definition GetNodeByName (s : t Sto) (ctx : context.Context)
    (req : option (connect.Request service.GetNodeByNameRequest.t))
    : res (connect.Response service.GetNodeByNameResponse.t) * World Sto :=
  run s
  (r ← deref req;
   msg ← deref (connect.Msg r);
   id ← try_wrap (CallNameToID (service.GetNodeByNameRequest.Name msg))
          "failed to get node by name: %w"
          (λ st, graph.NameToID st (service.GetNodeByNameRequest.Name msg));
   node ← try_wrap (CallGetNode id) "failed to get node by id: %w"
            (λ st, graph.GetNode st id);
   serviceNode ← lift_wrap "failed to convert node to service node: %w"
                   (NodeToServiceNode node);
   mret (connect.NewResponse (service.GetNodeByNameResponse.mk serviceNode))).

Definition GetNodesByGlob (s : t Sto) (ctx : context.Context)
    (req : option (connect.Request service.GetNodesByGlobRequest.t))
    : res (connect.Response service.GetNodesByGlobResponse.t) * World Sto :=
  run s
  (r ← deref req;
   msg ← deref (connect.Msg r);
   nodes ← try_wrap
             (CallGetNodesByGlob (service.GetNodesByGlobRequest.Pattern msg))
             "failed to get nodes by glob: %w"
             (λ st, graph.GetNodesByGlob st
                      (service.GetNodesByGlobRequest.Pattern msg));
   serviceNodes ← for_append "failed to convert node to service node: %w"
                    NodeToServiceNode nodes [];
   mret (connect.NewResponse (service.GetNodesByGlobResponse.mk serviceNodes))).

Definition AddNode (s : t Sto) (ctx : context.Context)
    (req : option (connect.Request service.AddNodeRequest.t))
    : res (connect.Response service.AddNodeResponse.t) * World Sto :=
  run s
  (r ← deref req;
   msg ← deref (connect.Msg r);
   n ← deref (service.AddNodeRequest.Node msg);
   resultNode ← try_wrap_upd
                  (CallAddNode (service.Node.Type_ n) (service.Node.Name n))
                  "failed to add node: %w"
                  (λ st, graph.AddNode st (service.Node.Type_ n)
                           (graph.bytes_any (service.Node.Metadata n))
                           (service.Node.Name n));
   serviceNode ← lift_wrap "failed to convert node to service node: %w"
                   (NodeToServiceNode resultNode);
   mret (connect.NewResponse (service.AddNodeResponse.mk serviceNode))).

(** *** CustomLeaderboard *)

(** Where the caller stands: at the head of [for _, node := range nodes]
    with the nodes still to visit; at [semaphore <- struct{}{}] for a
    named node, after [wg.Add(1)]; at the [select] on [errChan]; in
    [for q := range queryChan] with the heap built so far; or returned. *)
Inductive main_pc : Type :=
| AtRange (rest : list (graph.Node.t any))
| AtAcquire (node : graph.Node.t any) (rest : list (graph.Node.t any))
| AtSelect
| AtDrain (h : queryHeap.t any)
| Returned (r : res (connect.Response service.CustomLeaderboardResponse.t)).

Record State : Type := mkState {
  main : main_pc;
  workers : list (graph.Node.t any * worker_pc);
  closer : closer_pc;
  semaphore : chan.t unit;
  queryChan : chan.t (Query.t any);
  errChan : chan.t error;
  wg : nat;
  atomicCounter : Z;
  calls : list call;
  panicked : option string
}.

Definition set_main (m : main_pc) (st : State) : State :=
  mkState m (workers st) (closer st) (semaphore st) (queryChan st)
    (errChan st) (wg st) (atomicCounter st) (calls st) (panicked st).
Definition set_workers (ws : list (graph.Node.t any * worker_pc))
    (st : State) : State :=
  mkState (main st) ws (closer st) (semaphore st) (queryChan st)
    (errChan st) (wg st) (atomicCounter st) (calls st) (panicked st).
Definition set_closer (c : closer_pc) (st : State) : State :=
  mkState (main st) (workers st) c (semaphore st) (queryChan st)
    (errChan st) (wg st) (atomicCounter st) (calls st) (panicked st).
Definition set_semaphore (c : chan.t unit) (st : State) : State :=
  mkState (main st) (workers st) (closer st) c (queryChan st)
    (errChan st) (wg st) (atomicCounter st) (calls st) (panicked st).
Definition set_queryChan (c : chan.t (Query.t any)) (st : State) : State :=
  mkState (main st) (workers st) (closer st) (semaphore st) c
    (errChan st) (wg st) (atomicCounter st) (calls st) (panicked st).
Definition set_errChan (c : chan.t error) (st : State) : State :=
  mkState (main st) (workers st) (closer st) (semaphore st) (queryChan st)
    c (wg st) (atomicCounter st) (calls st) (panicked st).
Definition set_wg (n : nat) (st : State) : State :=
  mkState (main st) (workers st) (closer st) (semaphore st) (queryChan st)
    (errChan st) n (atomicCounter st) (calls st) (panicked st).
Definition set_atomicCounter (n : Z) (st : State) : State :=
  mkState (main st) (workers st) (closer st) (semaphore st) (queryChan st)
    (errChan st) (wg st) n (calls st) (panicked st).
Definition add_call (c : call) (st : State) : State :=
  mkState (main st) (workers st) (closer st) (semaphore st) (queryChan st)
    (errChan st) (wg st) (atomicCounter st) (calls st ++ [c]) (panicked st).
(** a panic in any goroutine takes the process down *)
Definition set_panicked (msg : string) (st : State) : State :=
  mkState (main st) (workers st) (closer st) (semaphore st) (queryChan st)
    (errChan st) (wg st) (atomicCounter st) (calls st) (Some msg).

(** Lines 219 to 230: [queries := make([]*service.Query, h.Len())] and
    the loop [for i := len(queries) - 1; i >= 0; i--]; [k] is [i + 1]. *)
Fixpoint fill (k : nat) (h : queryHeap.t any)
    (queries : list (option service.Query.t))
    : res (list (option service.Query.t)) :=
  match k with
  | 0 => Val queries
  | S i =>
      match heap.Pop h with
      | None => Crash "index out of range [0] with length 0"
      | Some (graphQuery, h') =>
          match NodeToServiceNode (Query.Node graphQuery) with
          | Err err => Exn err
          | Ok query =>
              fill i h'
                (<[i := Some (service.Query.mk query (Query.Output graphQuery))]>
                   queries)
          end
      end
  end.

(** Lines 219 to 236: what the caller returns once [queryChan] is drained. *)
Definition collect (h : queryHeap.t any)
    : res (connect.Response service.CustomLeaderboardResponse.t) :=
  match fill (queryHeap.Len h) h (replicate (queryHeap.Len h) None) with
  | Val queries =>
      Val (connect.HeaderSet "Service-Version" "v1"
             (connect.NewResponse (service.CustomLeaderboardResponse.mk queries)))
  | Exn err => Exn err
  | Crash msg => Crash msg
  end.

Section Machine.
(** What the goroutines share and do not change: the request, the
    backend, and what lines 145 to 163 loaded from it. *)
Variable req : option (connect.Request service.CustomLeaderboardRequest.t).
Variable backend : Sto.
Variable nodes : list (graph.Node.t any).
Variable caches : gmap uint32 graph.NodeCache.t.
Variable cacheStack : list uint32.

(** [req.Msg.Script], read by each worker *)
Definition script : option string :=
  r ← req; msg ← connect.Msg r;
  Some (service.CustomLeaderboardRequest.Script msg).

(** One step of the caller; [None] when it is blocked or has returned. *)
Definition step_main (st : State) : option State :=
  match main st with
  | AtRange [] =>
      (* lines 200 to 205: start the closing goroutine *)
      Some (set_closer AtWait (set_main AtSelect st))
  | AtRange (node :: rest) =>
      if decide (graph.Node.Name node = "")
      then Some (set_main (AtRange rest) st)
      else Some (set_wg (wg st + 1) (set_main (AtAcquire node rest) st))
  | AtAcquire node rest =>
      match chan.send (semaphore st) () with
      | chan.Sent c =>
          Some (set_workers (workers st ++ [(node, AtEval)])
                  (set_semaphore c (set_main (AtRange rest) st)))
      | chan.SendBlocks => None
      | chan.SendPanics => Some (set_panicked "send on closed channel" st)
      end
  | AtSelect =>
      match chan.recv (errChan st) with
      | chan.Received err c =>
          Some (set_errChan c (set_main (Returned (Exn err)) st))
      | chan.ReceivedZero | chan.RecvBlocks =>
          Some (set_main (AtDrain (heap.Init [])) st)
      end
  | AtDrain h =>
      match chan.recv (queryChan st) with
      | chan.Received q c =>
          Some (set_queryChan c (set_main (AtDrain (heap.Push h q)) st))
      | chan.ReceivedZero => Some (set_main (Returned (collect h)) st)
      | chan.RecvBlocks => None
      end
  | Returned _ => None
  end.

(** One step of the [i]-th worker. *)
Definition step_worker (i : nat) (st : State) : option State :=
  match workers st !! i with
  | None => None
  | Some (node, AtEval) =>
      match script with
      | None =>
          Some (set_panicked
                  "invalid memory address or nil pointer dereference" st)
      | Some sc =>
          let isCached := bool_decide (length cacheStack = 0) in
          let st1 :=
            add_call (CallParseAndExecute sc (graph.Node.Name node) isCached)
              st in
          match graph.ParseAndExecute sc backend (graph.Node.Name node)
                  nodes caches isCached with
          | Err err =>
              match chan.send (errChan st1) err with
              | chan.Sent c =>
                  Some (set_workers (<[i := (node, AtRelease)]> (workers st1))
                          (set_errChan c st1))
              | chan.SendBlocks => None
              | chan.SendPanics =>
                  Some (set_panicked "send on closed channel" st1)
              end
          | Ok execute =>
              let output := roaring.ToArray execute in
              let st2 :=
                set_atomicCounter (int64_add (atomicCounter st1) 1) st1 in
              match chan.send (queryChan st2) (Query.mk node output) with
              | chan.Sent c =>
                  Some (set_workers (<[i := (node, AtRelease)]> (workers st2))
                          (set_queryChan c st2))
              | chan.SendBlocks => None
              | chan.SendPanics =>
                  Some (set_panicked "send on closed channel" st2)
              end
          end
      end
  | Some (node, AtRelease) =>
      match chan.recv (semaphore st) with
      | chan.Received _ c =>
          Some (set_workers (<[i := (node, AtWgDone)]> (workers st))
                  (set_semaphore c st))
      | chan.ReceivedZero =>
          Some (set_workers (<[i := (node, AtWgDone)]> (workers st)) st)
      | chan.RecvBlocks => None
      end
  | Some (node, AtWgDone) =>
      match wg st with
      | 0 => Some (set_panicked "sync: negative WaitGroup counter" st)
      | S n =>
          Some (set_workers (<[i := (node, Exited)]> (workers st))
                  (set_wg n st))
      end
  | Some (_, Exited) => None
  end.

(** One step of the closing goroutine. *)
Definition step_closer (st : State) : option State :=
  match closer st with
  | NotSpawned => None
  | AtWait =>
      match wg st with
      | 0 => Some (set_closer AtCloseQuery st)
      | _ => None
      end
  | AtCloseQuery =>
      match chan.close (queryChan st) with
      | Some c => Some (set_closer AtCloseErr (set_queryChan c st))
      | None => Some (set_panicked "close of closed channel" st)
      end
  | AtCloseErr =>
      match chan.close (errChan st) with
      | Some c => Some (set_closer AtCloseSem (set_errChan c st))
      | None => Some (set_panicked "close of closed channel" st)
      end
  | AtCloseSem =>
      match chan.close (semaphore st) with
      | Some c => Some (set_closer CloserExited (set_semaphore c st))
      | None => Some (set_panicked "close of closed channel" st)
      end
  | CloserExited => None
  end.

(** One step of goroutine [g]; none once the process has panicked. *)
Definition step (g : goroutine) (st : State) : option State :=
  match panicked st with
  | Some _ => None
  | None =>
      match g with
      | Main => step_main st
      | Worker i => step_worker i st
      | Closer => step_closer st
      end
  end.

(** Run a schedule: the goroutines named take one step each, in turn;
    one that cannot step is passed over. *)
Fixpoint exec (sched : list goroutine) (st : State) : State :=
  match sched with
  | [] => st
  | g :: sched' => exec sched' (default st (step g st))
  end.

(** The state at line 177, for a semaphore of capacity [K] and the log
    of the calls made so far. *)
Definition init (K : nat) (log0 : list call) : State :=
  {| main := AtRange nodes;
     workers := [];
     closer := NotSpawned;
     semaphore := chan.make K;
     queryChan := chan.make (length nodes);
     errChan := chan.make (length nodes);
     wg := 0;
     atomicCounter := 0;
     calls := log0;
     panicked := None |}.
End Machine.

(** What the call has come to: the caller's return value, a panic, or
    nothing yet. *)
Definition outcome (st : State)
    : option (res (connect.Response service.CustomLeaderboardResponse.t)) :=
  match main st with
  | Returned r => Some r
  | _ =>
      match panicked st with
      | Some msg => Some (Crash msg)
      | None => None
      end
  end.

(** Lines 137 to 163. *)
Definition load
    : Op Sto (list (graph.Node.t any) * gmap uint32 graph.NodeCache.t * list uint32) :=
  uncachedNodes ← try_wrap CallToBeCached "failed to get uncached nodes: %w"
                    graph.ToBeCached;
  if decide (length uncachedNodes ≠ 0)
  then fail (Errorf "cannot use sorted leaderboards without caching")
  else
    keys ← try_wrap CallGetAllKeys "failed to Query keys: %w" graph.GetAllKeys;
    nodes ← try_wrap (CallGetNodes keys)
              "failed to batch Query nodes from keys: %w"
              (λ st, graph.GetNodes st keys);
    caches ← try_wrap (CallGetCaches keys)
               "failed to batch Query caches from keys: %w"
               (λ st, graph.GetCaches st keys);
    cacheStack ← try CallToBeCached graph.ToBeCached;
    mret (nodes, caches, cacheStack).

(** The handler under a schedule of its goroutines.  The first component
    is [None] when the caller has not returned by the end of the
    schedule.  [make(chan struct{}, s.concurrency)] panics on a negative
    size. *)
Definition CustomLeaderboard (s : t Sto) (ctx : context.Context)
    (req : option (connect.Request service.CustomLeaderboardRequest.t))
    (sched : list goroutine)
    : option (res (connect.Response service.CustomLeaderboardResponse.t))
      * World Sto :=
  match run s load with
  | (Val (nodes, caches, cacheStack), w) =>
      if (concurrency s <? 0)%Z
      then (Some (Crash "makechan: size out of range"), w)
      else
        let st :=
          exec req (store w) nodes caches cacheStack sched
            (init nodes (Z.to_nat (concurrency s)) (log w)) in
        (outcome st, {| store := store w; log := calls st |})
  | (Exn err, w) => (Some (Exn err), w)
  | (Crash msg, w) => (Some (Crash msg), w)
  end.

Definition AllKeys (s : t Sto) (ctx : context.Context)
    (req : option (connect.Request emptypb.Empty))
    : res (connect.Response service.AllKeysResponse.t) * World Sto :=
  run s
  (keys ← try_wrap CallGetAllKeys "failed to get all keys: %w" graph.GetAllKeys;
   nodes ← try_wrap (CallGetNodes keys) "failed to get nodes by keys: %w"
             (λ st, graph.GetNodes st keys);
   resultNodes ← for_append "failed to convert node to service node: %w"
                   NodeToServiceNode nodes [];
   mret (connect.NewResponse (service.AllKeysResponse.mk resultNodes))).

Definition Query (s : t Sto) (ctx : context.Context)
    (req : option (connect.Request service.QueryRequest.t))
    : res (connect.Response service.QueryResponse.t) * World Sto :=
  match req with
  | None => run s (fail (Errorf "request is nil"))
  | Some r =>
      run s
      (keys ← try_wrap CallGetAllKeys "failed to get all keys: %w"
                graph.GetAllKeys;
       nodes ← try_wrap (CallGetNodes keys) "failed to get nodes by keys: %w"
                 (λ st, graph.GetNodes st keys);
       caches ← try_wrap (CallGetCaches keys)
                  "failed to get caches by keys: %w"
                  (λ st, graph.GetCaches st keys);
       cacheStack ← try_wrap CallToBeCached
                      "failed to get to be cached nodes: %w"
                      graph.ToBeCached;
       msg ← deref (connect.Msg r);
       result ← try_wrap
                  (CallParseAndExecute (service.QueryRequest.Script msg) ""
                     (bool_decide (length cacheStack = 0)))
                  "failed to parse and execute script: %w"
                  (λ st, graph.ParseAndExecute
                           (service.QueryRequest.Script msg) st "" nodes
                           caches (bool_decide (length cacheStack = 0)));
       outputNodes ← try_wrap (CallGetNodes (roaring.ToArray result))
                       "failed to get nodes by ids: %w"
                       (λ st, graph.GetNodes st (roaring.ToArray result));
       resultNodes ← for_append
                       "failed to convert node to service node: %w"
                       NodeToServiceNode outputNodes [];
       mret (connect.HeaderSet "Service-Version" "v1"
               (connect.NewResponse (service.QueryResponse.mk resultNodes))))
  end.

Definition Check (s : t Sto) (ctx : context.Context)
    (req : option (connect.Request emptypb.Empty))
    : res (connect.Response service.HealthCheckResponse.t) * World Sto :=
  run s (mret (connect.NewResponse (service.HealthCheckResponse.mk "ok"))).
End Methods.
End Service.

Definition NewService {Sto} (storage : Sto) (concurrency : Z) : Service.t Sto :=
  Service.mk storage concurrency.

(* ===================================================================== *)
(** ** The command that ingests SBOMs *)

(** Package [ingest], as far as the command calls it.  The package is not
    part of the sources at hand: its two functions are left open, and each
    returns the backend as the call leaves it. *)
Module ingest.
(** an element of what [LoadDataFromPath] returns: a file and where it was
    found *)
Module Data.
Record t : Type := mk { Path : string; Data : list byte }.
End Data.

Class Package (Sto : Type) : Type := {
  (** [ingest.LoadDataFromPath(storage, path)] *)
  LoadDataFromPath : Sto → string → result (list Data.t) * Sto;
  (** [ingest.SBOM(storage, data)]; [None] is the nil error *)
  SBOM : Sto → list byte → option error * Sto
}.
End ingest.

(** Package [tools]: [tools.TruncateString(s, n)], left open. *)
Module tools.
Class Package : Type := { TruncateString : string → Z → string }.
End tools.

(** Package [sbom]: [type options struct { storage graph.Storage }] and its
    method [Run]. *)
Module sbom.
Record options (Sto : Type) : Type := mk { storage : Sto }.
Arguments mk {Sto}.
Arguments storage {Sto} _.

(** What a run of the command has come to: the backend and the strings
    written to standard output, oldest first. *)
Record Process (Sto : Type) : Type := mkProcess {
  backend : Sto;
  stdout : list string
}.
Arguments mkProcess {Sto}.
Arguments backend {Sto} _.
Arguments stdout {Sto} _.

(** the carriage return, the escape character and the line feed *)
Definition CR : string := String "013"%char EmptyString.
Definition ESC : string := String "027"%char EmptyString.
Definition LF : string := String "010"%char EmptyString.

(** [fmt.Sprintf(format, count, path)] for the format of line 386, in which
    [%d] shows [count] in decimal *)
Definition progress (count : nat) (path : string) : string :=
  CR +:+ ESC +:+ "[1;36mIngested " +:+ pretty count +:+ " SBOMs" +:+ ESC
  +:+ "[0m | " +:+ ESC +:+ "[1;34m" +:+ path +:+ ESC +:+ "[0m".

(** what [fmt.Println] writes at line 389 *)
Definition success : string := LF +:+ "SBOM ingested successfully" +:+ LF.

Section Run.
Context {Sto : Type} `{!ingest.Package Sto} `{!tools.Package}.

(** [for index, data := range result { ... }], from [index] on; it ends in
    [Val ()] when the loop runs to its end. *)
Fixpoint Run_loop (index : nat) (result : list ingest.Data.t)
    (p : Process Sto) : res unit * Process Sto :=
  match result with
  | [] => (Val (), p)
  | data :: rest =>
      match ingest.SBOM (backend p) (ingest.Data.Data data) with
      | (Some err, st) =>
          (Exn (Errorf_w "failed to ingest SBOM: %w" err),
           mkProcess st (stdout p))
      | (None, st) =>
          Run_loop (index + 1) rest
            (mkProcess st
               (stdout p
                ++ [progress (index + 1)
                      (tools.TruncateString (ingest.Data.Path data) 50)]))
      end
  end.

(** [Run] returns an [error]: [Val ()] is the nil error.  [args[0]] panics
    on an empty [args]. *)
Definition Run (o : options Sto) (args : list string)
    : res unit * Process Sto :=
  match args with
  | [] => (Crash "index out of range [0] with length 0",
           mkProcess (storage o) [])
  | sbomPath :: _ =>
      match ingest.LoadDataFromPath (storage o) sbomPath with
      | (Err err, st) =>
          (Exn (Errorf_w "failed to ingest SBOM: %w" err), mkProcess st [])
      | (Ok result, st) =>
          match Run_loop 0 result (mkProcess st []) with
          | (Val _, p) => (Val (), mkProcess (backend p) (stdout p ++ [success]))
          | (Exn err, p) => (Exn err, p)
          | (Crash msg, p) => (Crash msg, p)
          end
      end
  end.
End Run.
End sbom.

(* ===================================================================== *)
(** ** An in-memory backend

    A small instance of [graph.Package], on which the handlers are run on
    concrete graphs. *)
Module memory.
(** node metadata is a byte string, and [json.Marshal] of it succeeds *)
Abbreviation any := (list byte).
Abbreviation Node := (graph.Node.t (list byte)).

Record t : Type := mk {
  nodes : list Node;
  caches : list graph.NodeCache.t;
  dirty : list uint32
}.

Definition not_found : error := Errorf "not found".

Definition find_id (st : t) (id : uint32) : option Node :=
  List.find (λ n, N.eqb (graph.Node.ID n) id) (nodes st).
Definition find_name (st : t) (name : string) : option Node :=
  List.find (λ n, String.eqb (graph.Node.Name n) name) (nodes st).

(** Modelled from the spec: the glob syntax of node-name search, which the
    backends implement; [*] matches any run of characters, [?] a single
    character, anchored on both ends. *)
Fixpoint glob (pattern : string) : string → bool :=
  match pattern with
  | EmptyString => λ name, String.eqb name EmptyString
  | String c pattern' =>
      if Ascii.eqb c "*"%char then
        fix star (name : string) : bool :=
          glob pattern' name
          || match name with
             | EmptyString => false
             | String _ name' => star name'
             end
      else
        λ name,
          match name with
          | EmptyString => false
          | String d name' =>
              (Ascii.eqb c "?"%char || Ascii.eqb c d) && glob pattern' name'
          end
  end.

(** Modelled from the spec: the storage contract, whose backends are not
    part of the sources at hand; [GetNodes] keeps the order of the
    identifiers and leaves out the missing ones. *)
#[global] Instance storage : graph.Storage any t := {|
  graph.GetNode st id :=
    match find_id st id with Some n => Ok n | None => Err not_found end;
  graph.NameToID st name :=
    match find_name st name with
    | Some n => Ok (graph.Node.ID n)
    | None => Err not_found
    end;
  graph.GetNodesByGlob st pattern :=
    Ok (List.filter (λ n, glob pattern (graph.Node.Name n)) (nodes st));
  graph.GetAllKeys st := Ok (graph.Node.ID <$> nodes st);
  graph.GetNodes st ids := Ok (omap (find_id st) ids);
  graph.GetCaches st ids :=
    Ok (list_to_map
          ((λ c, (graph.NodeCache.ID c, c)) <$>
             List.filter (λ c, bool_decide (graph.NodeCache.ID c ∈ ids))
               (caches st)));
  graph.ToBeCached st := Ok (dirty st)
|}.

(** Modelled from the spec: [AddNode(type, metadata, name)] of package
    [graph]; it fails when the name resolves, and otherwise stores a node
    with a fresh identifier and empty adjacency and marks it dirty. *)
Definition AddNode (st : t) (type : string) (metadata : any) (name : string)
    : result Node * t :=
  match find_name st name with
  | Some _ => (Err (Errorf "node already exists"), st)
  | None =>
      let id := (1 + foldr N.max 0 (graph.Node.ID <$> nodes st))%N in
      let n := graph.Node.mk id name type metadata ∅ ∅ in
      (Ok n, mk (nodes st ++ [n]) (caches st) (dirty st ++ [id]))
  end.

(** Modelled from the spec: the script evaluator of package [graph], for
    the two atoms of the query language with the focus node as their name
    and any type: [dependencies * focus] is the focus node's [AllChildren],
    [dependents * focus] its [AllParents].  Evaluation needs an empty dirty
    set, a known focus node and a cache entry for it; any other script is
    a parse error. *)
Definition ParseAndExecute (script : string) (st : t) (focus : string)
    (ns : list Node) (cs : gmap uint32 graph.NodeCache.t) (isCached : bool)
    : result roaring.Bitmap :=
  if negb isCached then Err (Errorf "not cached")
  else
    match
      List.find (λ n, String.eqb (graph.Node.Name n) focus) ns
    with
    | None => Err (Errorf "unknown node")
    | Some n =>
        match cs !! graph.Node.ID n with
        | None => Err not_found
        | Some c =>
            if String.eqb script "dependencies * focus"
            then Ok (graph.NodeCache.AllChildren c)
            else if String.eqb script "dependents * focus"
            then Ok (graph.NodeCache.AllParents c)
            else Err (Errorf "parse error")
        end
    end.

#[global] Instance package : graph.Package any t := {|
  graph.storage_methods := storage;
  graph.bytes_any := id;
  graph.json_Marshal := Ok;
  graph.AddNode := AddNode;
  graph.ParseAndExecute := ParseAndExecute
|}.

(** The diamond [A → B], [A → C], [B → D], [C → D] with identifiers 1 to 4,
    after caching. *)
Definition nodeA : Node := graph.Node.mk 1%N "A" "library" [] {[2; 3]}%N ∅.
Definition nodeB : Node := graph.Node.mk 2%N "B" "library" [] {[4]}%N {[1]}%N.
Definition nodeC : Node := graph.Node.mk 3%N "C" "library" [] {[4]}%N {[1]}%N.
Definition nodeD : Node := graph.Node.mk 4%N "D" "library" [] ∅ {[2; 3]}%N.

Definition diamond : t :=
  mk [nodeA; nodeB; nodeC; nodeD]
     [graph.NodeCache.mk 1%N ∅ {[2; 3; 4]}%N;
      graph.NodeCache.mk 2%N {[1]}%N {[4]}%N;
      graph.NodeCache.mk 3%N {[1]}%N {[4]}%N;
      graph.NodeCache.mk 4%N {[1; 2; 3]}%N ∅]
     [].

(** the same graph with node 1 still to be cached *)
Definition diamond_dirty : t := mk (nodes diamond) (caches diamond) [1%N].

(** The chain [A → B], [B → C] with identifiers 1 to 3, after caching. *)
Definition chain : t :=
  mk [graph.Node.mk 1%N "A" "library" [] {[2]}%N ∅;
      graph.Node.mk 2%N "B" "library" [] {[3]}%N {[1]}%N;
      graph.Node.mk 3%N "C" "library" [] ∅ {[2]}%N]
     [graph.NodeCache.mk 1%N ∅ {[2; 3]}%N;
      graph.NodeCache.mk 2%N {[1]}%N {[3]}%N;
      graph.NodeCache.mk 3%N {[1; 2]}%N ∅]
     [].

Definition leaderboard_request (script : string)
    : option (connect.Request service.CustomLeaderboardRequest.t) :=
  Some {| connect.Msg := Some (service.CustomLeaderboardRequest.mk script) |}.
End memory.

(* ===================================================================== *)
(** ** Vocabulary of the properties *)

Section HeapVocabulary.
Context {any : Type}.
Implicit Types (h : queryHeap.t any) (q : Query.t any).

(** the priority of an entry: [len(q.Output)] *)
Definition key q : nat := length (Query.Output q).
Definition keyAt h (i : nat) : nat := from_option key 0 (h !! i).

(** the heap order on the first [n] entries: no entry is below its parent *)
Definition heap_upto h (n : nat) : Prop :=
  ∀ k, 0 < k → k < n → keyAt h ((k - 1) / 2) ≤ keyAt h k.
Definition is_heap h : Prop := heap_upto h (length h).
End HeapVocabulary.

Section CollectVocabulary.
Context {any Sto : Type} `{!graph.Package any Sto}.

(** [o] is the entry the caller makes of the heap entry [q] *)
Definition converts (q : Query.t any) (o : option service.Query.t) : Prop :=
  ∃ sn, NodeToServiceNode (Query.Node q) = Ok sn ∧
        o = Some (service.Query.mk sn (Query.Output q)).

(** larger outputs first *)
Definition by_cardinality_desc (a b : Query.t any) : Prop := key b ≤ key a.
End CollectVocabulary.

Section MachineVocabulary.
Context {any Sto : Type} `{!graph.Package any Sto}.
Variable req : option (connect.Request service.CustomLeaderboardRequest.t).
Variable backend : Sto.
Variable nodes : list (graph.Node.t any).
Variable caches : gmap uint32 graph.NodeCache.t.
Variable cacheStack : list uint32.

Local Abbreviation Node := (graph.Node.t any).
Local Abbreviation State := (@Service.State any).

(** the nodes a worker is started for *)
Definition named (ns : list Node) : list Node :=
  filter (λ n, graph.Node.Name n ≠ "") ns.

(** what the worker for [node] gets from [graph.ParseAndExecute]; nothing
    when the request or its message is nil *)
Definition evaluate (node : Node) : option (result roaring.Bitmap) :=
  sc ← Service.script req;
  Some (graph.ParseAndExecute sc backend (graph.Node.Name node) nodes caches
          (bool_decide (length cacheStack = 0))).

(** the entry the worker for [node] sends on [queryChan] *)
Definition ok_query (node : Node) : option (Query.t any) :=
  match evaluate node with
  | Some (Ok execute) => Some (Query.mk node (roaring.ToArray execute))
  | _ => None
  end.

(** the error the worker for [node] sends on [errChan] *)
Definition err_of (node : Node) : option error :=
  match evaluate node with
  | Some (Err err) => Some err
  | _ => None
  end.

(** the call the worker for [node] logs *)
Definition eval_call (node : Node) : option call :=
  sc ← Service.script req;
  Some (CallParseAndExecute sc (graph.Node.Name node)
          (bool_decide (length cacheStack = 0))).

Definition evaluated (w : Node * worker_pc) : bool :=
  match w.2 with AtEval => false | _ => true end.
Definition sent_ok (w : Node * worker_pc) : option (Query.t any) :=
  if evaluated w then ok_query w.1 else None.
Definition sent_err (w : Node * worker_pc) : option error :=
  if evaluated w then err_of w.1 else None.
Definition sent_call (w : Node * worker_pc) : option call :=
  if evaluated w then eval_call w.1 else None.

(** a worker holds a token of the semaphore until its deferred receive *)
Definition holds (w : Node * worker_pc) : nat :=
  match w.2 with AtEval | AtRelease => 1 | _ => 0 end.
(** a worker counts in the wait group until its deferred [wg.Done()] *)
Definition live (w : Node * worker_pc) : nat :=
  match w.2 with Exited => 0 | _ => 1 end.

(** the named nodes the caller has still to start a worker for *)
Definition pending (m : @Service.main_pc any) : list Node :=
  match m with
  | Service.AtRange rest => named rest
  | Service.AtAcquire node rest => node :: named rest
  | _ => []
  end.
(** [wg.Add(1)] done for a worker that is not started yet *)
Definition acquiring (m : @Service.main_pc any) : nat :=
  match m with Service.AtAcquire _ _ => 1 | _ => 0 end.
Definition in_loop (m : @Service.main_pc any) : bool :=
  match m with Service.AtRange _ | Service.AtAcquire _ _ => true | _ => false end.
Definition heap_of (m : @Service.main_pc any) : queryHeap.t any :=
  match m with Service.AtDrain h => h | _ => [] end.
Definition has_returned (m : @Service.main_pc any) : bool :=
  match m with Service.Returned _ => true | _ => false end.

Definition spawned (c : closer_pc) : bool :=
  match c with NotSpawned => false | _ => true end.
Definition past_wait (c : closer_pc) : bool :=
  match c with NotSpawned | AtWait => false | _ => true end.
Definition past_close_query (c : closer_pc) : bool :=
  match c with AtCloseErr | AtCloseSem | CloserExited => true | _ => false end.
Definition past_close_err (c : closer_pc) : bool :=
  match c with AtCloseSem | CloserExited => true | _ => false end.
Definition past_close_sem (c : closer_pc) : bool :=
  match c with CloserExited => true | _ => false end.

(** what a returned call has returned: an error some worker got, or the
    heap of all the entries the workers sent, collected *)
Definition returned_from (st : State)
    (r : res (connect.Response service.CustomLeaderboardResponse.t)) : Prop :=
  (∃ node err, r = Exn err ∧ node ∈ named nodes ∧ err_of node = Some err) ∨
  (∃ h, r = Service.collect h ∧ is_heap h ∧
        h ≡ₚ omap ok_query (named nodes) ∧
        past_wait (Service.closer st) = true).

(** The invariant of the goroutines of one call, for a semaphore of
    capacity [K] and a log that started as [log0]. *)
Record Inv (K : nat) (log0 : list call) (st : State) : Prop := {
  inv_spawned :
    (fst <$> Service.workers st) ++ pending (Service.main st) = named nodes;
  inv_tokens :
    length (chan.buf (Service.semaphore st))
    = sum_list_with holds (Service.workers st);
  inv_wg :
    Service.wg st
    = sum_list_with live (Service.workers st) + acquiring (Service.main st);
  inv_query :
    has_returned (Service.main st) = false →
    heap_of (Service.main st) ++ chan.buf (Service.queryChan st)
    ≡ₚ omap sent_ok (Service.workers st);
  inv_err :
    chan.buf (Service.errChan st) ⊆+ omap sent_err (Service.workers st);
  inv_calls :
    ∃ tail, Service.calls st = log0 ++ tail ∧
            tail ≡ₚ omap sent_call (Service.workers st);
  inv_caps :
    chan.cap (Service.semaphore st) = K ∧
    chan.cap (Service.queryChan st) = length nodes ∧
    chan.cap (Service.errChan st) = length nodes;
  inv_closer :
    in_loop (Service.main st) = negb (spawned (Service.closer st)) ∧
    chan.closed (Service.queryChan st) = past_close_query (Service.closer st) ∧
    chan.closed (Service.errChan st) = past_close_err (Service.closer st) ∧
    chan.closed (Service.semaphore st) = past_close_sem (Service.closer st) ∧
    (past_wait (Service.closer st) = true → Service.wg st = 0);
  inv_heap : is_heap (heap_of (Service.main st));
  inv_returned :
    ∀ r, Service.main st = Service.Returned r → returned_from st r;
  inv_panicked :
    ∀ msg, Service.panicked st = Some msg →
           Service.script req = None ∧ named nodes ≠ []
}.

(** a bound on the steps the goroutines can still take *)
Definition worker_weight (w : Node * worker_pc) : nat :=
  match w.2 with AtEval => 4 | AtRelease => 2 | AtWgDone => 1 | Exited => 0 end.
Definition closer_weight (c : closer_pc) : nat :=
  match c with
  | NotSpawned | AtWait => 4
  | AtCloseQuery => 3
  | AtCloseErr => 2
  | AtCloseSem => 1
  | CloserExited => 0
  end.
Definition main_weight (m : @Service.main_pc any) : nat :=
  match m with
  | Service.AtRange rest => 6 * length rest + 7
  | Service.AtAcquire _ rest => 6 * length rest + 12
  | Service.AtSelect => 2
  | Service.AtDrain _ => 1
  | Service.Returned _ => 0
  end.
Definition weight (st : State) : nat :=
  main_weight (Service.main st)
  + sum_list_with worker_weight (Service.workers st)
  + closer_weight (Service.closer st)
  + length (chan.buf (Service.queryChan st))
  + match Service.panicked st with None => 1 | Some _ => 0 end.

(** the goroutines there can be: the caller, the closing goroutine and a
    worker per node *)
Definition goroutines : list goroutine :=
  Main :: Closer :: (Worker <$> seq 0 (length nodes)).

(** a goroutine that can take a step, if there is one *)
Definition runnable (st : State) : option goroutine :=
  List.find
    (λ g, bool_decide
            (is_Some (Service.step req backend nodes caches cacheStack g st)))
    goroutines.

(** a schedule on which the goroutines run for as long as one can *)
Fixpoint run_on (fuel : nat) (st : State) : list goroutine :=
  match fuel with
  | 0 => []
  | S fuel' =>
      match runnable st with
      | None => []
      | Some g =>
          g :: run_on fuel'
                 (default st
                    (Service.step req backend nodes caches cacheStack g st))
      end
  end.

(** the caller is blocked for good at its first [semaphore <- struct{}{}]:
    no worker runs and the semaphore has no room *)
Definition stuck_at_acquire (st : State) : Prop :=
  Service.panicked st = None ∧ Service.workers st = [] ∧
  Service.closer st = NotSpawned ∧ chan.buf (Service.semaphore st) = [] ∧
  chan.cap (Service.semaphore st) = 0 ∧
  chan.closed (Service.semaphore st) = false ∧
  ((∃ rest, Service.main st = Service.AtRange rest ∧ named rest ≠ []) ∨
   (∃ node rest, Service.main st = Service.AtAcquire node rest)).
End MachineVocabulary.

Section RunVocabulary.
Context {any Sto : Type} `{!graph.Package any Sto}.
Variable req : option (connect.Request service.CustomLeaderboardRequest.t).
Variable backend : Sto.
Variable nodes : list (graph.Node.t any).
Variable caches : gmap uint32 graph.NodeCache.t.
Variable cacheStack : list uint32.

Local Abbreviation State := (@Service.State any).

(** the steps of a schedule that are taken: the goroutine named is
    neither blocked nor done *)
Fixpoint taken (sched : list goroutine) (st : State) : nat :=
  match sched with
  | [] => 0
  | g :: sched' =>
      match Service.step req backend nodes caches cacheStack g st with
      | Some st' => S (taken sched' st')
      | None => taken sched' st
      end
  end.

(** every goroutine of the call is done: the caller has returned, every
    worker has run its deferred calls, and the closing goroutine has closed
    the three channels *)
Definition quiescent (st : State) : Prop :=
  has_returned (Service.main st) = true ∧
  Forall (λ w, w.2 = Exited) (Service.workers st) ∧
  Service.closer st = CloserExited.

(** What the channels and the workers keep to besides [Inv]: the semaphore
    holds no more tokens than its capacity; what waits in [queryChan] was
    sent by a worker, also once the caller has returned; a worker of a
    request without a script does not get past its evaluation; and the one
    panic there is, is that of reading the script of such a request. *)
Record Bounds (st : State) : Prop := {
  bound_sem :
    length (chan.buf (Service.semaphore st)) ≤ chan.cap (Service.semaphore st);
  bound_query :
    chan.buf (Service.queryChan st)
    ⊆+ omap (sent_ok req backend nodes caches cacheStack) (Service.workers st);
  bound_nil :
    Service.script req = None →
    Forall (λ w, w.2 = AtEval) (Service.workers st);
  bound_panic :
    ∀ msg, Service.panicked st = Some msg →
           msg = "invalid memory address or nil pointer dereference"
}.

(** the caller has not yet been through its [select] on [errChan] *)
Definition before_select (m : @Service.main_pc any) : bool :=
  match m with
  | Service.AtRange _ | Service.AtAcquire _ _ | Service.AtSelect => true
  | _ => false
  end.

(** the errors of the evaluations that fail, in the order of the nodes *)
Definition failures : list error :=
  omap (err_of req backend nodes caches cacheStack) (named nodes).

(** What the [select] can see.  Until the caller has been through it,
    [errChan] holds every error sent so far; and the caller gets past it
    without the error of an evaluation only when the evaluations that fail
    are no more than the semaphore has tokens, [K]. *)
Record Noticing (K : nat) (st : State) : Prop := {
  notice_unread :
    before_select (Service.main st) = true →
    chan.buf (Service.errChan st)
    ≡ₚ omap (sent_err req backend nodes caches cacheStack) (Service.workers st);
  notice_passed :
    match Service.main st with
    | Service.AtDrain _ => length failures ≤ K
    | Service.Returned r =>
        (∃ err, r = Exn err ∧ err ∈ failures) ∨ length failures ≤ K
    | _ => True
    end
}.

(** the heap the caller builds when the entries of the named nodes arrive
    in the order of the nodes *)
Definition heap_in_order : queryHeap.t any :=
  foldl heap.Push [] (omap (ok_query req backend nodes caches cacheStack)
                        (named nodes)).

(** What a semaphore with one token adds: only the worker started last can
    hold the token; the entries arrive in the order in which the workers
    were started, and the caller pushes them in that order; so what the
    caller returns, if not an error, is made of the heap of the entries
    pushed in the order of the nodes. *)
Record InOrder (st : State) : Prop := {
  order_holds :
    ∀ i w, Service.workers st !! i = Some w →
           i + 1 < length (Service.workers st) → holds w = 0;
  order_sent :
    has_returned (Service.main st) = false →
    ∃ pushed,
      heap_of (Service.main st) = foldl heap.Push [] pushed ∧
      pushed ++ chan.buf (Service.queryChan st)
      = omap (sent_ok req backend nodes caches cacheStack) (Service.workers st);
  order_returned :
    ∀ r, Service.main st = Service.Returned r →
         (∃ err, r = Exn err) ∨ r = Service.collect heap_in_order
}.
End RunVocabulary.

Section LeaderboardVocabulary.
Context {any Sto : Type} `{!graph.Package any Sto}.

(** lines 137 to 163 of [CustomLeaderboard] have loaded [nodes], [caches]
    and [cacheStack] from the backend of [s] *)
Definition loads (s : Service.t Sto) (nodes : list (graph.Node.t any))
    (caches : gmap uint32 graph.NodeCache.t) (cacheStack : list uint32)
    : Prop :=
  ∃ w0, Service.run s Service.load = (Val (nodes, caches, cacheStack), w0).

(** the entries of a response, without the nil ones *)
Definition entries (resp : connect.Response service.CustomLeaderboardResponse.t)
    : list service.Query.t :=
  omap id (service.CustomLeaderboardResponse.Queries (connect.Body resp)).

(** the response with no entries *)
Definition empty_response
    : connect.Response service.CustomLeaderboardResponse.t :=
  connect.HeaderSet "Service-Version" "v1"
    (connect.NewResponse (service.CustomLeaderboardResponse.mk [])).

(** the RPC node [sn] shows the direct adjacency of the graph node [node] *)
Definition direct_adjacency (node : graph.Node.t any) (sn : service.Node.t)
    : Prop :=
  service.Node.Dependencies sn = roaring.ToArray (graph.Node.Children node) ∧
  service.Node.Dependents sn = roaring.ToArray (graph.Node.Parents node).
End LeaderboardVocabulary.

Section EntryVocabulary.
Context {any Sto : Type} `{!graph.Package any Sto}.

(** the entry the caller makes of the heap entry [q] at lines 221 to 229;
    none when the conversion of its node fails *)
Definition entry_of (q : Query.t any) : option service.Query.t :=
  match NodeToServiceNode (Query.Node q) with
  | Ok sn => Some (service.Query.mk sn (Query.Output q))
  | Err _ => None
  end.
End EntryVocabulary.

Section IngestVocabulary.
Context {Sto : Type} `{!ingest.Package Sto} `{!tools.Package}.

(** [ingest.SBOM] takes the documents one after the other, and they bring
    the backend [st] to the backend [st'] *)
Inductive ingests : Sto → list ingest.Data.t → Sto → Prop :=
| ingests_nil st : ingests st [] st
| ingests_cons st data st' rest st'' :
    ingest.SBOM st (ingest.Data.Data data) = (None, st') →
    ingests st' rest st'' →
    ingests st (data :: rest) st''.

(** the progress lines for the documents [docs], the first of which is
    the [index + 1]-th of the run *)
Definition progress_lines (index : nat) (docs : list ingest.Data.t)
    : list string :=
  imap (λ i data,
          sbom.progress (index + i + 1)
            (tools.TruncateString (ingest.Data.Path data) 50))
    docs.
End IngestVocabulary.

(** the order the specification asks of a leaderboard: larger outputs first,
    and among equal cardinalities the smaller name first *)
Definition spec_order (a b : service.Query.t) : bool :=
  (length (service.Query.Output b) <? length (service.Query.Output a))
  || ((length (service.Query.Output a) =? length (service.Query.Output b))
      && String.leb (service.Node.Name (service.Query.Node a))
                    (service.Node.Name (service.Query.Node b))).

Fixpoint sorted_by {A} (le : A → A → bool) (l : list A) : bool :=
  match l with
  | [] => true
  | x :: l' => forallb (le x) l' && sorted_by le l'
  end.

(** ** Runs on concrete graphs *)
Module scenario.
Import memory.

(** one turn for every goroutine of a call on four nodes *)
Definition round : list goroutine :=
  [Main; Worker 0; Worker 0; Worker 0; Worker 1; Worker 1; Worker 1;
   Worker 2; Worker 2; Worker 2; Worker 3; Worker 3; Worker 3;
   Closer; Closer; Closer; Closer].
Definition in_turn : list goroutine := concat (replicate 17 round).

(** the caller starts all four workers; the third delivers before the
    second *)
Definition third_before_second : list goroutine :=
  replicate 8 Main ++ [Worker 0; Worker 2; Worker 1; Worker 3] ++ in_turn.

(** the caller runs on past its [select] before any worker has sent *)
Definition caller_first : list goroutine := replicate 10 Main ++ in_turn.

Definition focus_dependencies
    : option (connect.Request service.CustomLeaderboardRequest.t) :=
  leaderboard_request "dependencies * focus".
Definition malformed
    : option (connect.Request service.CustomLeaderboardRequest.t) :=
  leaderboard_request "dependencies of".

Definition diamond_caches : gmap uint32 graph.NodeCache.t :=
  list_to_map ((λ c, (graph.NodeCache.ID c, c)) <$> caches diamond).
Definition chain_caches : gmap uint32 graph.NodeCache.t :=
  list_to_map ((λ c, (graph.NodeCache.ID c, c)) <$> caches chain).

(** the caller starts three workers; the last delivers first *)
Definition last_first : list goroutine :=
  replicate 6 Main ++ [Worker 2; Worker 1; Worker 0] ++ in_turn.

(** a backend with no node at all *)
Definition empty : t := mk [] [] [].

(** a token that is cancelled before the call begins *)
Definition cancelled : context.Context := {| context.cancelAt := Some 0 |}.

(** the names and output cardinalities of a returned leaderboard *)
Definition ranking
    (r : option (res (connect.Response service.CustomLeaderboardResponse.t))
         * World t) : option (list (string * nat)) :=
  match r.1 with
  | Some (Val resp) =>
      Some ((λ q, (service.Node.Name (service.Query.Node q),
                   length (service.Query.Output q))) <$> entries resp)
  | _ => None
  end.

(** whether a returned leaderboard is in the order of the specification *)
Definition in_spec_order
    (r : option (res (connect.Response service.CustomLeaderboardResponse.t))
         * World t) : option bool :=
  match r.1 with
  | Some (Val resp) => Some (sorted_by spec_order (entries resp))
  | _ => None
  end.

End scenario.

(** ** Inputs for the further properties *)
Module example.
Import memory.

(** a heap of three entries, with outputs of lengths 0, 3 and 1 *)
Definition three : queryHeap.t memory.any :=
  [Query.mk nodeD []; Query.mk nodeA [2; 3; 4]%N; Query.mk nodeB [4%N]].

(** an entry with an output of length 1 *)
Definition entryC : Query.t memory.any := Query.mk nodeC [4%N].


(** a request to add a node named [E]; the identifier and the adjacency
    lists are a client's guess *)
Definition add_E : service.Node.t :=
  service.Node.mk 7%N "E" "library" [] [1%N] [].
End example.

(** Modelled from the spec: the ingest modules lie outside the core that
    the specification describes, which says of them only that they take
    documents in.  A stand-in for them on which the command is run: the
    backend is the list of the documents taken in; a document without
    content is refused; the path [sboms] holds two documents, the path
    [mixed] three, the second of them without content, and no other path
    exists.  [TruncateString] keeps the first [n] characters. *)
Module shelf.
Definition t : Type := list (list byte).

Definition first : ingest.Data.t := ingest.Data.mk "sboms/first.json" [x7b; x7d].
Definition second : ingest.Data.t := ingest.Data.mk "sboms/second.json" [x5b; x5d].
Definition blank : ingest.Data.t := ingest.Data.mk "mixed/blank.json" [].

#[global] Instance documents : ingest.Package t := {|
  ingest.LoadDataFromPath st path :=
    if String.eqb path "sboms" then (Ok [first; second], st)
    else if String.eqb path "mixed" then (Ok [first; blank; second], st)
    else (Err (Errorf "no such file or directory"), st);
  ingest.SBOM st data :=
    match data with
    | [] => (Some (Errorf "unexpected end of input"), st)
    | _ => (None, st ++ [data])
    end
|}.

#[global] Instance truncation : tools.Package := {|
  tools.TruncateString s n := String.substring 0 (Z.to_nat n) s
|}.
End shelf.

(* ===================================================================== *)
(** ** Heaps *)

(** [lia] on the parent index [(k - 1) / 2] *)
Ltac Zify.zify_post_hook ::= Z.to_euclidean_division_equations.

Section HeapTheory.
Context {any : Type}.
Implicit Types (h : queryHeap.t any) (q : Query.t any).

Lemma Less_keyAt h i j :
  i < length h → j < length h →
  queryHeap.Less h i j = (keyAt h i <? keyAt h j).
Proof.
  intros [a Ha]%lookup_lt_is_Some [b Hb]%lookup_lt_is_Some.
  unfold queryHeap.Less, keyAt. by rewrite Ha, Hb.
Qed.

Lemma Swap_length h i j : length (queryHeap.Swap h i j) = length h.
Proof.
  unfold queryHeap.Swap.
  destruct (h !! i), (h !! j); try done. by rewrite !length_insert.
Qed.

Lemma Swap_lookup h i j k :
  i < length h → j < length h →
  queryHeap.Swap h i j !! k =
    if decide (k = j) then h !! i else if decide (k = i) then h !! j else h !! k.
Proof.
  intros Hi Hj.
  destruct (lookup_lt_is_Some_2 _ _ Hi) as [a Ha].
  destruct (lookup_lt_is_Some_2 _ _ Hj) as [b Hb].
  unfold queryHeap.Swap. rewrite Ha, Hb.
  rewrite !list_lookup_insert, !length_insert.
  repeat case_decide; try done; try lia; naive_solver.
Qed.

Lemma keyAt_Swap h i j k :
  i < length h → j < length h →
  keyAt (queryHeap.Swap h i j) k =
    if decide (k = j) then keyAt h i
    else if decide (k = i) then keyAt h j else keyAt h k.
Proof.
  intros Hi Hj. unfold keyAt. rewrite Swap_lookup by done.
  by repeat case_decide.
Qed.

Lemma insert_cons_Permutation {A} (l : list A) j a b :
  l !! j = Some b → b :: <[j := a]> l ≡ₚ a :: l.
Proof.
  revert j. induction l as [|x l IH]; intros [|j] Hj; simplify_eq/=.
  - apply Permutation_swap.
  - etrans; [apply Permutation_swap|].
    etrans; [|apply Permutation_swap]. f_equiv. by apply IH.
Qed.

Lemma Swap_Permutation h i j : queryHeap.Swap h i j ≡ₚ h.
Proof.
  unfold queryHeap.Swap.
  destruct (h !! i) as [a|] eqn:Ha; [|done].
  destruct (h !! j) as [b|] eqn:Hb; [|done].
  destruct (decide (i = j)) as [->|Hne].
  - simplify_eq. rewrite list_insert_insert_eq. by rewrite list_insert_id.
  - revert i j Ha Hb Hne.
    induction h as [|x h IH]; intros [|i] [|j] Ha Hb Hne; simplify_eq/=.
    + by apply insert_cons_Permutation.
    + by apply insert_cons_Permutation.
    + f_equiv. apply IH; auto.
Qed.

Lemma heap_upto_le h n m : m ≤ n → heap_upto h n → heap_upto h m.
Proof. intros Hm H k ??. apply H; lia. Qed.

(** the root of a heap is a least entry *)
Lemma heap_root_least h n k :
  heap_upto h n → k < n → keyAt h 0 ≤ keyAt h k.
Proof.
  intros Hh. induction k as [k IH] using lt_wf_ind. intros Hk.
  destruct (decide (k = 0)) as [->|]; [done|].
  etrans; [apply (IH ((k - 1) / 2)); lia|]. apply Hh; lia.
Qed.

Lemma up_loop_S fuel h j :
  heap.up_loop (S fuel) h j =
    if ((j - 1) / 2 =? j) || negb (queryHeap.Less h j ((j - 1) / 2)) then h
    else heap.up_loop fuel (queryHeap.Swap h ((j - 1) / 2) j) ((j - 1) / 2).
Proof. reflexivity. Qed.

(** [up]: the heap order holds everywhere but between [j] and its parent,
    and the entries below [j] are not below [j]'s parent. *)
Lemma up_loop_heap fuel h j :
  j < fuel → j < length h →
  (∀ k, 0 < k → k < length h → k ≠ j → keyAt h ((k - 1) / 2) ≤ keyAt h k) →
  (∀ k, 0 < k → k < length h → (k - 1) / 2 = j → 0 < j →
        keyAt h ((j - 1) / 2) ≤ keyAt h k) →
  is_heap (heap.up_loop fuel h j).
Proof.
  revert h j. induction fuel as [|fuel IH]; intros h j Hf Hj H1 H2; [lia|].
  rewrite up_loop_S.
  destruct (Nat.eqb_spec ((j - 1) / 2) j) as [Heq|Hne]; cbn [orb negb].
  { intros k ? ?. apply H1; lia. }
  assert ((j - 1) / 2 < j) as Hlt by lia.
  rewrite Less_keyAt by lia.
  destruct (Nat.ltb_spec (keyAt h j) (keyAt h ((j - 1) / 2))) as [Hless|Hge];
    cbn [orb negb].
  - apply IH.
    + lia.
    + rewrite Swap_length. lia.
    + intros k Hk0 Hk Hkj. rewrite Swap_length in Hk.
      rewrite !keyAt_Swap by lia.
      pose proof (H1 k Hk0 Hk) as H1k. pose proof (H2 k Hk0 Hk) as H2k.
      repeat case_decide; try lia.
      match goal with H : (k - 1) / 2 = (j - 1) / 2 |- _ => rewrite H in H1k end.
      specialize (H1k ltac:(lia)). lia.
    + intros k Hk0 Hk Hpar Hpos. rewrite Swap_length in Hk.
      rewrite !keyAt_Swap by lia.
      pose proof (H1 k Hk0 Hk) as H1k.
      pose proof (H1 ((j - 1) / 2) ltac:(lia) ltac:(lia) ltac:(lia)) as H1i.
      repeat case_decide; try lia.
      rewrite Hpar in H1k. specialize (H1k ltac:(lia)). lia.
  - intros k Hk0 Hk. destruct (decide (k = j)) as [->|]; [done|].
    apply H1; lia.
Qed.

Lemma up_loop_Permutation fuel h j : heap.up_loop fuel h j ≡ₚ h.
Proof.
  revert h j. induction fuel as [|fuel IH]; intros h j; [done|].
  rewrite up_loop_S.
  destruct (_ || _); [done|]. rewrite IH. apply Swap_Permutation.
Qed.

Lemma Push_is_heap h x : is_heap h → is_heap (heap.Push h x).
Proof.
  intros Hh. unfold heap.Push, heap.up, queryHeap.Push, queryHeap.Len.
  rewrite length_app. simpl.
  replace (length h + 1 - 1) with (length h) by lia.
  apply up_loop_heap.
  - lia.
  - rewrite length_app. simpl. lia.
  - intros k Hk0 Hk Hne. rewrite length_app in Hk. simpl in Hk.
    unfold keyAt. rewrite !lookup_app_l by lia. apply Hh; lia.
  - intros k Hk0 Hk Hpar. rewrite length_app in Hk. simpl in Hk. lia.
Qed.

Lemma Push_Permutation h x : heap.Push h x ≡ₚ x :: h.
Proof.
  unfold heap.Push, heap.up. rewrite up_loop_Permutation.
  unfold queryHeap.Push. by rewrite Permutation_app_comm.
Qed.

Lemma down_loop_S fuel h i n :
  heap.down_loop (S fuel) h i n =
    if n <=? 2 * i + 1 then h
    else
      let j := if (2 * i + 1 + 1 <? n)
                  && queryHeap.Less h (2 * i + 1 + 1) (2 * i + 1)
               then 2 * i + 1 + 1 else 2 * i + 1 in
      if negb (queryHeap.Less h j i) then h
      else heap.down_loop fuel (queryHeap.Swap h i j) j n.
Proof. reflexivity. Qed.

(** [down]: the heap order holds on the first [n] entries everywhere but
    between [i] and its children, and the children of [i] are not below
    [i]'s parent. *)
Lemma down_loop_heap fuel h i n :
  n ≤ fuel + i → n ≤ length h →
  (∀ k, 0 < k → k < n → (k - 1) / 2 ≠ i → keyAt h ((k - 1) / 2) ≤ keyAt h k) →
  (∀ k, 0 < k → k < n → (k - 1) / 2 = i → 0 < i →
        keyAt h ((i - 1) / 2) ≤ keyAt h k) →
  heap_upto (heap.down_loop fuel h i n) n.
Proof.
  revert h i. induction fuel as [|fuel IH]; intros h i Hf Hn H1 H2.
  { intros k Hk0 Hk. apply H1; lia. }
  rewrite down_loop_S.
  destruct (Nat.leb_spec n (2 * i + 1)) as [Hleaf|Hchild].
  { intros k Hk0 Hk. apply H1; lia. }
  cbv zeta.
  set (j := if _ && _ then _ else _).
  assert (j < n ∧ (j - 1) / 2 = i ∧ i < j ∧
          ∀ k, 0 < k → k < n → (k - 1) / 2 = i → keyAt h j ≤ keyAt h k)
    as (Hjn & Hjpar & Hij & Hjmin).
  { subst j. destruct (Nat.ltb_spec (2 * i + 1 + 1) n) as [H2n|H2n]; cbn [andb].
    - rewrite Less_keyAt by lia.
      destruct (Nat.ltb_spec (keyAt h (2 * i + 1 + 1)) (keyAt h (2 * i + 1))).
      + repeat split; try lia. intros k ???.
        assert (k = 2 * i + 1 ∨ k = 2 * i + 1 + 1) as [->| ->] by lia; lia.
      + repeat split; try lia. intros k ???.
        assert (k = 2 * i + 1 ∨ k = 2 * i + 1 + 1) as [->| ->] by lia; lia.
    - repeat split; try lia. intros k ???.
      assert (k = 2 * i + 1) as -> by lia. lia. }
  clearbody j.
  rewrite Less_keyAt by lia.
  destruct (Nat.ltb_spec (keyAt h j) (keyAt h i)) as [Hless|Hge]; cbn [negb].
  - apply IH.
    + lia.
    + by rewrite Swap_length.
    + intros k Hk0 Hk Hpar. rewrite !keyAt_Swap by lia.
      pose proof (H1 k Hk0 Hk) as H1k. pose proof (H2 k Hk0 Hk) as H2k.
      pose proof (Hjmin k Hk0 Hk) as Hmk.
      pose proof (H2 j ltac:(lia) Hjn Hjpar) as H2j.
      repeat case_decide; try lia.
      replace k with i by lia. apply H2j; lia.
    + intros k Hk0 Hk Hpar Hpos. rewrite !keyAt_Swap by lia.
      pose proof (H1 k Hk0 Hk) as H1k.
      repeat case_decide; try lia.
      rewrite Hpar in H1k. specialize (H1k ltac:(lia)). lia.
  - intros k Hk0 Hk. destruct (decide ((k - 1) / 2 = i)) as [Hpar|Hpar].
    + rewrite Hpar. specialize (Hjmin k Hk0 Hk Hpar). lia.
    + by apply H1.
Qed.

Lemma down_loop_Permutation fuel h i n : heap.down_loop fuel h i n ≡ₚ h.
Proof.
  revert h i. induction fuel as [|fuel IH]; intros h i; [done|].
  rewrite down_loop_S. destruct (_ <=? _); [done|]. cbv zeta.
  destruct (negb _); [done|]. rewrite IH. apply Swap_Permutation.
Qed.

Lemma down_loop_length fuel h i n :
  length (heap.down_loop fuel h i n) = length h.
Proof. apply Permutation_length, down_loop_Permutation. Qed.

(** [down] leaves the entries from [n] on where they are *)
Lemma down_loop_lookup_ge fuel h i n k :
  i < n → n ≤ length h → n ≤ k → heap.down_loop fuel h i n !! k = h !! k.
Proof.
  revert h i. induction fuel as [|fuel IH]; intros h i Hi Hn Hk; [done|].
  rewrite down_loop_S. destruct (Nat.leb_spec n (2 * i + 1)); [done|].
  cbv zeta.
  set (j := if _ && _ then _ else _).
  assert (j < n) as Hjn.
  { subst j. destruct (Nat.ltb_spec (2 * i + 1 + 1) n); cbn [andb]; [|lia].
    destruct (queryHeap.Less _ _ _); lia. }
  clearbody j. destruct (negb _); [done|].
  rewrite IH by (rewrite ?Swap_length; lia).
  rewrite Swap_lookup by lia. repeat case_decide; try lia. done.
Qed.

(** [heap.Pop] takes a least entry off a heap and leaves a heap *)
Lemma Pop_heap h :
  is_heap h → h ≠ [] →
  ∃ x h', heap.Pop h = Some (x, h') ∧ is_heap h' ∧ h ≡ₚ x :: h' ∧
          ∀ y, y ∈ h → key x ≤ key y.
Proof.
  intros Hh Hne. unfold heap.Pop, queryHeap.Len.
  destruct (length h) as [|n] eqn:Hlen; [by destruct h|].
  set (h1 := queryHeap.Swap h 0 n).
  set (h2 := heap.down h1 0 n).
  assert (length h1 = S n) as Hlen1 by (unfold h1; by rewrite Swap_length).
  assert (length h2 = S n) as Hlen2
    by (unfold h2, heap.down; by rewrite down_loop_length).
  destruct (lookup_lt_is_Some_2 h 0 ltac:(lia)) as [x Hx].
  assert (h2 !! n = Some x) as Hlast.
  { unfold h2, heap.down. destruct (decide (n = 0)) as [->|].
    - simpl. unfold h1. rewrite Swap_lookup by lia. by rewrite decide_True.
    - rewrite down_loop_lookup_ge by lia.
      unfold h1. rewrite Swap_lookup by lia. by rewrite decide_True. }
  exists x, (take n h2). split_and!.
  - unfold queryHeap.Pop. rewrite Hlen2.
    replace (S n - 1) with n by lia. by rewrite Hlast.
  - unfold is_heap. rewrite length_take_le by lia.
    intros k Hk0 Hk. unfold keyAt. rewrite !lookup_take_lt by lia.
    revert k Hk0 Hk. apply down_loop_heap; [lia|lia| |lia].
    intros k Hk0 Hk Hpar. unfold h1. rewrite !keyAt_Swap by lia.
    repeat case_decide; try lia. apply Hh; lia.
  - transitivity h2.
    + unfold h2, heap.down. rewrite down_loop_Permutation.
      unfold h1. by rewrite Swap_Permutation.
    + rewrite <-(take_drop n h2) at 1.
      rewrite (drop_S _ _ _ Hlast), drop_ge by lia.
      by rewrite Permutation_app_comm.
  - intros y [k Hk]%list_elem_of_lookup.
    pose proof (heap_root_least h (length h) k Hh
                  (lookup_lt_Some _ _ _ Hk)) as Hle.
    unfold keyAt in Hle. by rewrite Hx, Hk in Hle.
Qed.

Lemma is_heap_nil : is_heap (@nil (Query.t any)).
Proof. intros k ? Hk. simpl in Hk. lia. Qed.

Lemma Init_nil : heap.Init (@nil (Query.t any)) = [].
Proof. reflexivity. Qed.
End HeapTheory.

(* ===================================================================== *)
(** ** Collecting the heap *)

Section CollectTheory.
Context {any Sto : Type} `{!graph.Package any Sto}.
Implicit Types (h : queryHeap.t any) (q : Query.t any).

Lemma fill_sorted k h qs qs' :
  Service.fill k h qs = Val qs' → length h = k → is_heap h → k ≤ length qs →
  ∃ l, l ≡ₚ h ∧ StronglySorted by_cardinality_desc l ∧
       Forall2 converts l (take k qs') ∧ drop k qs' = drop k qs ∧
       length qs' = length qs.
Proof.
  revert h qs. induction k as [|i IH]; intros h qs Hfill Hlen Hh Hk.
  { apply length_zero_iff_nil in Hlen as ->. injection Hfill as <-.
    exists []. rewrite take_0. split_and!; try done; constructor. }
  destruct (Pop_heap h Hh) as (x & h1 & Hpop & Hh1 & Hperm & Hmin);
    [by destruct h|].
  cbn [Service.fill] in Hfill. rewrite Hpop in Hfill.
  destruct (NodeToServiceNode (Query.Node x)) as [sn|] eqn:Hconv; [|done].
  set (e := Some (service.Query.mk sn (Query.Output x))) in *.
  assert (length h1 = i) as Hlen1.
  { apply Permutation_length in Hperm. simpl in Hperm. lia. }
  destruct (IH h1 (<[i := e]> qs) Hfill Hlen1 Hh1)
    as (l1 & Hl1 & Hsorted & Hconvs & Hdrop & Hlength).
  { rewrite length_insert. lia. }
  rewrite length_insert in Hlength.
  assert (qs' !! i = Some e) as Hi.
  { rewrite <-(Nat.add_0_r i), <-lookup_drop, Hdrop, lookup_drop, Nat.add_0_r.
    apply list_lookup_insert_eq. lia. }
  exists (l1 ++ [x]). split_and!.
  - rewrite Hperm, Hl1. by rewrite Permutation_app_comm.
  - apply StronglySorted_app_2; [|exact Hsorted|repeat constructor].
    intros a b Ha ->%list_elem_of_singleton.
    apply Hmin. rewrite Hperm. right. by rewrite <-Hl1.
  - rewrite (take_S_r _ _ _ Hi). apply Forall2_app; [done|].
    repeat constructor. by exists sn.
  - rewrite (drop_S _ _ _ Hi) in Hdrop.
    rewrite (drop_S _ e i) in Hdrop by (apply list_lookup_insert_eq; lia).
    injection Hdrop as ->. by rewrite drop_insert_lt by lia.
  - done.
Qed.

(** a drained heap is returned in descending order of output cardinality *)
Lemma collect_sorted h resp :
  Service.collect h = Val resp → is_heap h →
  ∃ l, l ≡ₚ h ∧ StronglySorted by_cardinality_desc l ∧
       Forall2 converts l
         (service.CustomLeaderboardResponse.Queries (connect.Body resp)).
Proof.
  unfold Service.collect, queryHeap.Len. intros Hc Hh.
  destruct (Service.fill _ _ _) as [qs'| |] eqn:Hfill; simplify_eq/=.
  apply fill_sorted in Hfill as (l & ? & ? & Hconv & _ & Hlen);
    [|done|done|by rewrite length_replicate].
  rewrite length_replicate in Hlen. rewrite take_ge in Hconv by lia.
  eauto.
Qed.

(** with enough slots and a heap of [k] entries, [fill] does not panic,
    and it fails only where a conversion fails *)
Lemma fill_total k h qs :
  length h = k → is_heap h →
  (∃ qs', Service.fill k h qs = Val qs') ∨
  (∃ q err, q ∈ h ∧ NodeToServiceNode (Query.Node q) = Err err ∧
            Service.fill k h qs = Exn err).
Proof.
  revert h qs. induction k as [|i IH]; intros h qs Hlen Hh.
  { left. by eexists. }
  destruct (Pop_heap h Hh) as (x & h1 & Hpop & Hh1 & Hperm & Hmin);
    [by destruct h|].
  cbn [Service.fill]. rewrite Hpop.
  destruct (NodeToServiceNode (Query.Node x)) as [sn|err] eqn:Hconv.
  - assert (length h1 = i) as Hlen1.
    { apply Permutation_length in Hperm. simpl in Hperm. lia. }
    destruct (IH h1 (<[i := Some (service.Query.mk sn (Query.Output x))]> qs)
                Hlen1 Hh1) as [?|(q & err & Hq & ? & ?)]; [by left|].
    right. exists q, err. split_and!; try done. rewrite Hperm. by right.
  - right. exists x, err. split_and!; try done. rewrite Hperm. by left.
Qed.
End CollectTheory.

(* ===================================================================== *)
(** ** The goroutines of a call *)

Section ListUpdates.
Context {A B : Type}.
Implicit Types (l : list A).

Lemma sum_list_with_insert (f : A → nat) l i x y :
  l !! i = Some x →
  sum_list_with f (<[i := y]> l) + f x = sum_list_with f l + f y.
Proof.
  revert i. induction l as [|a l IH]; intros [|i] Hi; simplify_eq/=; [lia|].
  specialize (IH i Hi). lia.
Qed.

Lemma omap_insert_Permutation (f : A → option B) l i x y :
  l !! i = Some x →
  option_list (f x) ++ omap f (<[i := y]> l)
  ≡ₚ option_list (f y) ++ omap f l.
Proof.
  revert i. induction l as [|a l IH]; intros [|i] Hi; simplify_eq/=.
  - destruct (f x), (f y); simpl; try done. apply Permutation_swap.
  - specialize (IH i Hi). destruct (f a) as [b|]; simpl; [|done].
    rewrite <-!Permutation_middle. by f_equiv.
Qed.

Lemma omap_insert_same (f : A → option B) l i x y :
  l !! i = Some x → f x = f y → omap f (<[i := y]> l) = omap f l.
Proof.
  revert i. induction l as [|a l IH]; intros [|i] Hi Hf; simplify_eq/=.
  - by rewrite Hf.
  - by rewrite (IH i).
Qed.

Lemma omap_insert_fresh (f : A → option B) l i x y b :
  l !! i = Some x → f x = None → f y = Some b →
  omap f (<[i := y]> l) ≡ₚ omap f l ++ [b].
Proof.
  intros Hi Hx Hy. pose proof (omap_insert_Permutation f l i x y Hi) as Hp.
  rewrite Hx, Hy in Hp. simpl in Hp. rewrite Hp. apply Permutation_cons_append.
Qed.

Lemma fmap_insert_same (f : A → B) l i x y :
  l !! i = Some x → f x = f y → f <$> <[i := y]> l = f <$> l.
Proof.
  intros Hi Hf. rewrite list_fmap_insert. apply list_insert_id.
  rewrite list_lookup_fmap, Hi. simpl. by rewrite Hf.
Qed.
End ListUpdates.

Section MachineTheory.
Context {any Sto : Type} `{!graph.Package any Sto}.
Variable req : option (connect.Request service.CustomLeaderboardRequest.t).
Variable backend : Sto.
Variable nodes : list (graph.Node.t any).
Variable caches : gmap uint32 graph.NodeCache.t.
Variable cacheStack : list uint32.
Variable K : nat.
Variable log0 : list call.

Local Abbreviation Node := (graph.Node.t any).
Local Abbreviation State := (@Service.State any).
Local Abbreviation step := (Service.step req backend nodes caches cacheStack).
Local Abbreviation exec := (Service.exec req backend nodes caches cacheStack).
Local Abbreviation Inv := (Inv req backend nodes caches cacheStack K log0).

Lemma init_Inv : Inv (Service.init nodes K log0).
Proof.
  constructor; simpl; try done.
  - exists []. by rewrite app_nil_r.
  - apply is_heap_nil.
Qed.

Lemma named_cons_unnamed (node : Node) rest :
  graph.Node.Name node = "" → named (node :: rest) = named rest.
Proof. intros Hn. unfold named. by rewrite filter_cons_False by naive_solver. Qed.

Lemma named_cons_named (node : Node) rest :
  graph.Node.Name node ≠ "" → named (node :: rest) = node :: named rest.
Proof. intros Hn. unfold named. by rewrite filter_cons_True. Qed.

Lemma named_length (ns : list Node) : length (named ns) ≤ length ns.
Proof. apply length_filter. Qed.

(** once every worker has finished, what was sent is what the named nodes
    evaluate to *)
Lemma all_exited_sent (ws : list (Node * worker_pc)) :
  sum_list_with live ws = 0 →
  omap (sent_ok req backend nodes caches cacheStack) ws
  = omap (ok_query req backend nodes caches cacheStack) ws.*1 ∧
  omap (sent_call req cacheStack) ws = omap (eval_call req cacheStack) ws.*1.
Proof.
  induction ws as [|[n pc] ws IH]; [done|]. cbn.
  intros Hsum. destruct pc; cbn in Hsum; try lia.
  destruct IH as [-> ->]; [lia|]. done.
Qed.

Local Arguments Nat.ltb : simpl never.

Local Ltac inv_auto :=
  try done; try (split_and!; done); try apply is_heap_nil;
  try (intros ? ?; congruence).

Lemma step_main_Inv st st' :
  Service.panicked st = None →
  Service.step_main st = Some st' → Inv st → Inv st'.
Proof.
  intros Hnp Hstep [Hsp Htok Hwg Hq Herr Hcalls Hcaps Hcl Hheap Hret Hpan].
  unfold Service.step_main in Hstep.
  destruct (Service.main st) as [[|node rest]|node rest| |h|r] eqn:Hm.
  - (* the loop ends; the closing goroutine starts *)
    simplify_eq. cbn in *.
    destruct (Service.closer st) eqn:Hc; cbn in *; by destruct Hcl.
  - (* the head of the loop *)
    destruct (decide (graph.Node.Name node = "")) as [Hname|Hname];
      simplify_eq; cbn [pending acquiring in_loop heap_of has_returned] in *.
    + rewrite named_cons_unnamed in Hsp by done.
      constructor; cbn; rewrite ?Hm; try done.
    + rewrite named_cons_named in Hsp by done.
      constructor; cbn; rewrite ?Hm; cbn; try done.
      * lia.
      * destruct Hcl as (Hloop & ? & ? & ? & Hw).
        by destruct (Service.closer st).
  - (* [semaphore <- struct{}{}] and [go func(node)] *)
    cbn [pending acquiring in_loop heap_of has_returned] in *.
    destruct Hcl as (Hloop & Hcq & Hce & Hcs & Hw).
    destruct (Service.closer st) eqn:Hc; try done. cbn in Hcq, Hce, Hcs.
    unfold chan.send in Hstep. rewrite Hcs in Hstep.
    destruct (_ <? _); simplify_eq.
    constructor; cbn; rewrite ?Hm, ?Hc; cbn; try done.
    + by rewrite fmap_app, <-app_assoc.
    + rewrite length_app, sum_list_with_app. cbn. lia.
    + rewrite sum_list_with_app. cbn. lia.
    + intros _. rewrite omap_app. cbn. rewrite app_nil_r. by apply Hq.
    + rewrite omap_app. cbn. by rewrite app_nil_r.
    + rewrite omap_app. cbn. by rewrite app_nil_r.
  - (* the [select] on [errChan] *)
    cbn [pending acquiring in_loop heap_of has_returned] in *.
    unfold chan.recv in Hstep.
    destruct (chan.buf (Service.errChan st)) as [|err b] eqn:Hbuf.
    + assert (st' = Service.set_main (Service.AtDrain (heap.Init [])) st)
        as -> by (by destruct (chan.closed _); simplify_eq).
      constructor; cbn; rewrite ?Hm, ?Hbuf; try done.
    + simplify_eq.
      constructor; cbn; rewrite ?Hm, ?Hbuf; try done.
      * etrans; [|exact Herr]. by apply submseteq_cons.
      * intros r [= <-]. left.
        assert (err ∈ omap (sent_err req backend nodes caches cacheStack)
                        (Service.workers st)) as Hin.
        { eapply elem_of_submseteq; [|exact Herr]. by left. }
        apply list_elem_of_omap in Hin as ([n pc] & Hw & Hs).
        exists n, err. split_and!; [done| |].
        -- rewrite <-Hsp, app_nil_r. apply list_elem_of_fmap. by exists (n, pc).
        -- unfold sent_err in Hs. by destruct (evaluated _).
  - (* [for q := range queryChan] *)
    cbn [pending acquiring in_loop heap_of has_returned] in *.
    unfold chan.recv in Hstep.
    destruct (chan.buf (Service.queryChan st)) as [|q b] eqn:Hbuf.
    + destruct (chan.closed (Service.queryChan st)) eqn:Hclosed; simplify_eq.
      destruct Hcl as (Hloop & Hcq & Hce & Hcs & Hw).
      assert (past_wait (Service.closer st) = true) as Hpw
        by (by destruct (Service.closer st)).
      constructor; cbn; rewrite ?Hm, ?Hbuf, ?Hclosed; inv_auto.
      intros r [= <-]. right. exists h. split_and!; try done.
      rewrite app_nil_r in Hq. rewrite (Hq eq_refl).
      specialize (Hw Hpw). rewrite Hw in Hwg.
      destruct (all_exited_sent (Service.workers st)) as [-> _]; [lia|].
      by rewrite <-Hsp, app_nil_r.
    + simplify_eq.
      constructor; cbn; rewrite ?Hm, ?Hbuf; try done.
      * intros _. rewrite Push_Permutation. rewrite <-(Hq eq_refl).
        simpl. apply Permutation_middle.
      * by apply Push_is_heap.
  - done.
Qed.

Lemma returned_from_mono st st' r :
  (past_wait (Service.closer st) = true →
   past_wait (Service.closer st') = true) →
  returned_from req backend nodes caches cacheStack st r →
  returned_from req backend nodes caches cacheStack st' r.
Proof.
  intros Hmono [?|(h & ? & ? & ? & ?)]; [by left|right].
  exists h. split_and!; auto.
Qed.

Lemma live_le_sum (ws : list (Node * worker_pc)) i w :
  ws !! i = Some w → live w ≤ sum_list_with live ws.
Proof. intros Hi. apply sum_list_with_in. by eapply list_elem_of_lookup_2. Qed.

Lemma holds_le_sum (ws : list (Node * worker_pc)) i w :
  ws !! i = Some w → holds w ≤ sum_list_with holds ws.
Proof. intros Hi. apply sum_list_with_in. by eapply list_elem_of_lookup_2. Qed.

Lemma step_worker_Inv i st st' :
  Service.panicked st = None →
  Service.step_worker req backend nodes caches cacheStack i st = Some st' →
  Inv st → Inv st'.
Proof.
  intros Hnp Hstep [Hsp Htok Hwg Hq Herr Hcalls Hcaps Hcl Hheap Hret Hpan].
  unfold Service.step_worker in Hstep.
  destruct (Service.workers st !! i) as [[node pc]|] eqn:Hi; [|done].
  pose proof (live_le_sum _ _ _ Hi) as Hlive.
  pose proof (holds_le_sum _ _ _ Hi) as Hholds.
  pose proof (sum_list_with_insert live (Service.workers st) i (node, pc)) as Hlive'.
  pose proof (sum_list_with_insert holds (Service.workers st) i (node, pc)) as Hholds'.
  destruct Hcl as (Hloop & Hcq & Hce & Hcs & Hw).
  destruct Hcaps as (Hcaps & Hcapq & Hcape).
  destruct Hcalls as (tail & Hcalls & Htail).
  destruct pc.
  - (* [graph.ParseAndExecute] and the send of its outcome *)
    destruct (Service.script req) as [sc|] eqn:Hsc.
    2:{ simplify_eq. constructor; cbn; inv_auto; [by exists tail|].
        intros _ _. split; [done|]. intros Hnil. rewrite Hnil in Hsp.
        apply app_eq_nil in Hsp as [Hws _].
        apply fmap_nil_inv in Hws. by rewrite Hws in Hi. }
    assert (past_wait (Service.closer st) = false) as Hpw.
    { destruct (past_wait _); [|done]. specialize (Hw eq_refl).
      cbn in Hlive. lia. }
    assert (evaluate req backend nodes caches cacheStack node
            = Some (graph.ParseAndExecute sc backend (graph.Node.Name node)
                      nodes caches (bool_decide (length cacheStack = 0))))
      as Heval by (unfold evaluate; by rewrite Hsc).
    assert (eval_call req cacheStack node
            = Some (CallParseAndExecute sc (graph.Node.Name node)
                      (bool_decide (length cacheStack = 0))))
      as Hcall by (unfold eval_call; by rewrite Hsc).
    destruct (graph.ParseAndExecute _ _ _ _ _ _) as [execute|err] eqn:Hexec.
    + unfold chan.send in Hstep. cbn in Hstep.
      destruct (chan.closed (Service.queryChan st)) eqn:Hclosed.
      { by destruct (Service.closer st). }
      destruct (_ <? _); simplify_eq.
      specialize (Hlive' (node, AtRelease) Hi).
      specialize (Hholds' (node, AtRelease) Hi).
      constructor; cbn; rewrite ?Hclosed; inv_auto.
      * by rewrite (fmap_insert_same fst _ _ _ _ Hi).
      * cbn in Hholds'. lia.
      * cbn in Hlive'. lia.
      * intros Hr. rewrite app_assoc, (Hq Hr).
        symmetry. eapply omap_insert_fresh; [done|done|].
        unfold sent_ok, ok_query. cbn. by rewrite Heval.
      * erewrite omap_insert_same; [done|done|].
        unfold sent_err, err_of. cbn. by rewrite Heval.
      * exists (tail ++ [CallParseAndExecute sc (graph.Node.Name node)
                           (bool_decide (length cacheStack = 0))]).
        split; [by rewrite Hcalls, app_assoc|].
        rewrite Htail. symmetry. eapply omap_insert_fresh; [done|done|].
        unfold sent_call. cbn. by rewrite Hcall.
    + unfold chan.send in Hstep. cbn in Hstep.
      destruct (chan.closed (Service.errChan st)) eqn:Hclosed.
      { by destruct (Service.closer st). }
      destruct (_ <? _); simplify_eq.
      specialize (Hlive' (node, AtRelease) Hi).
      specialize (Hholds' (node, AtRelease) Hi).
      constructor; cbn; rewrite ?Hclosed; inv_auto.
      * by rewrite (fmap_insert_same fst _ _ _ _ Hi).
      * cbn in Hholds'. lia.
      * cbn in Hlive'. lia.
      * intros Hr. rewrite (Hq Hr).
        erewrite omap_insert_same; [done|done|].
        unfold sent_ok, ok_query. cbn. by rewrite Heval.
      * etrans; [by apply submseteq_skips_r|].
        apply Permutation_submseteq. symmetry.
        eapply omap_insert_fresh; [done|done|].
        unfold sent_err, err_of. cbn. by rewrite Heval.
      * exists (tail ++ [CallParseAndExecute sc (graph.Node.Name node)
                           (bool_decide (length cacheStack = 0))]).
        split; [by rewrite Hcalls, app_assoc|].
        rewrite Htail. symmetry. eapply omap_insert_fresh; [done|done|].
        unfold sent_call. cbn. by rewrite Hcall.
  - (* the deferred [<-semaphore] *)
    specialize (Hlive' (node, AtWgDone) Hi).
    specialize (Hholds' (node, AtWgDone) Hi).
    cbn in Hlive, Hholds, Hlive', Hholds'.
    unfold chan.recv in Hstep.
    destruct (chan.buf (Service.semaphore st)) as [|[] b] eqn:Hbuf;
      [cbn in Htok; lia|].
    simplify_eq. cbn in Htok.
    constructor; cbn; rewrite ?Hbuf; inv_auto.
    + by rewrite (fmap_insert_same fst _ _ _ _ Hi).
    + lia.
    + lia.
    + intros Hr. rewrite (Hq Hr). by erewrite omap_insert_same.
    + by erewrite omap_insert_same.
    + exists tail. split; [done|]. by erewrite omap_insert_same.
  - (* the deferred [wg.Done()] *)
    specialize (Hlive' (node, Exited) Hi).
    specialize (Hholds' (node, Exited) Hi).
    cbn in Hlive, Hholds, Hlive', Hholds'.
    destruct (Service.wg st) as [|n] eqn:Hn; [lia|].
    simplify_eq.
    constructor; cbn; inv_auto.
    + by rewrite (fmap_insert_same fst _ _ _ _ Hi).
    + lia.
    + lia.
    + intros Hr. rewrite (Hq Hr). by erewrite omap_insert_same.
    + by erewrite omap_insert_same.
    + exists tail. split; [done|]. by erewrite omap_insert_same.
    + split_and!; try done. intros Hp. by specialize (Hw Hp).
  - done.
Qed.

Lemma step_closer_Inv st st' :
  Service.panicked st = None →
  Service.step_closer st = Some st' → Inv st → Inv st'.
Proof.
  intros Hnp Hstep [Hsp Htok Hwg Hq Herr Hcalls Hcaps Hcl Hheap Hret Hpan].
  unfold Service.step_closer in Hstep.
  destruct Hcl as (Hloop & Hcq & Hce & Hcs & Hw).
  destruct (Service.closer st) eqn:Hc; try done; cbn in *.
  - destruct (Service.wg st) eqn:Hn; [|done]. simplify_eq.
    constructor; cbn; rewrite ?Hc, ?Hn; inv_auto.
    intros r Hr. eapply returned_from_mono; [|by apply Hret]. done.
  - unfold chan.close in Hstep. rewrite Hcq in Hstep. simplify_eq.
    constructor; cbn; rewrite ?Hc; inv_auto.
    intros r Hr. eapply returned_from_mono; [|by apply Hret]. done.
  - unfold chan.close in Hstep. rewrite Hce in Hstep. simplify_eq.
    constructor; cbn; rewrite ?Hc; inv_auto.
    intros r Hr. eapply returned_from_mono; [|by apply Hret]. done.
  - unfold chan.close in Hstep. rewrite Hcs in Hstep. simplify_eq.
    constructor; cbn; rewrite ?Hc; inv_auto.
    intros r Hr. eapply returned_from_mono; [|by apply Hret]. done.
Qed.

Lemma step_Inv g st st' : step g st = Some st' → Inv st → Inv st'.
Proof.
  unfold Service.step. destruct (Service.panicked st) eqn:Hp; [done|].
  destruct g; eauto using step_main_Inv, step_worker_Inv, step_closer_Inv.
Qed.

Lemma exec_Inv sched st : Inv st → Inv (exec sched st).
Proof.
  revert st. induction sched as [|g sched IH]; intros st HInv; [done|].
  simpl. apply IH. destruct (step g st) eqn:Hstep; [|done].
  by eapply step_Inv.
Qed.

Lemma exec_app sched1 sched2 st :
  exec (sched1 ++ sched2) st = exec sched2 (exec sched1 st).
Proof.
  revert st. induction sched1 as [|g sched1 IH]; intros st; [done|].
  simpl. apply IH.
Qed.

(** every step brings the goroutines closer to the end *)
Lemma step_weight g st st' : step g st = Some st' → weight st' < weight st.
Proof.
  unfold Service.step. destruct (Service.panicked st) eqn:Hp; [done|].
  unfold weight. rewrite Hp. destruct g as [|i|].
  - unfold Service.step_main.
    destruct (Service.main st) as [[|node rest]|node rest| |h|r] eqn:Hm.
    + intros [= <-]. cbn. rewrite Hp.
      destruct (Service.closer st); cbn; lia.
    + destruct (decide _); intros [= <-]; cbn; rewrite Hp; lia.
    + unfold chan.send. destruct (chan.closed _).
      { intros [= <-]. cbn. rewrite Hm. cbn. lia. }
      destruct (_ <? _); [|done]. intros [= <-]. cbn. rewrite Hp.
      rewrite sum_list_with_app. cbn. lia.
    + unfold chan.recv. destruct (chan.buf (Service.errChan st)).
      * destruct (chan.closed _); intros [= <-]; cbn; rewrite Hp; lia.
      * intros [= <-]; cbn; rewrite Hp; lia.
    + unfold chan.recv.
      destruct (chan.buf (Service.queryChan st)) eqn:Hbuf.
      * destruct (chan.closed _); [|done].
        intros [= <-]; cbn; rewrite Hp, Hbuf; cbn; lia.
      * intros [= <-]; cbn; rewrite Hp; cbn; lia.
    + done.
  - unfold Service.step_worker.
    destruct (Service.workers st !! i) as [[node pc]|] eqn:Hi; [|done].
    pose proof (sum_list_with_insert worker_weight (Service.workers st)
                  i (node, pc)) as Hw.
    destruct pc.
    + destruct (Service.script req) as [sc|].
      2:{ intros [= <-]. cbn. lia. }
      specialize (Hw (node, AtRelease) Hi). cbn in Hw.
      destruct (graph.ParseAndExecute _ _ _ _ _ _).
      * unfold chan.send. cbn. destruct (chan.closed _).
        { intros [= <-]. cbn. lia. }
        destruct (_ <? _); [|done]. intros [= <-]. cbn. rewrite Hp.
        rewrite length_app. cbn. lia.
      * unfold chan.send. cbn. destruct (chan.closed _).
        { intros [= <-]. cbn. lia. }
        destruct (_ <? _); [|done]. intros [= <-]. cbn. rewrite Hp. lia.
    + specialize (Hw (node, AtWgDone) Hi). cbn in Hw.
      unfold chan.recv. destruct (chan.buf (Service.semaphore st)).
      * destruct (chan.closed _); [|done]. intros [= <-]. cbn. rewrite Hp. lia.
      * intros [= <-]. cbn. rewrite Hp. lia.
    + specialize (Hw (node, Exited) Hi). cbn in Hw.
      destruct (Service.wg st); intros [= <-]; cbn; rewrite ?Hp; lia.
    + done.
  - unfold Service.step_closer, chan.close.
    destruct (Service.closer st) eqn:Hc; try done.
    + destruct (Service.wg st); [|done]. intros [= <-]. cbn. rewrite Hp. lia.
    + destruct (chan.closed _); intros [= <-]; cbn; rewrite ?Hp, ?Hc; cbn; lia.
    + destruct (chan.closed _); intros [= <-]; cbn; rewrite ?Hp, ?Hc; cbn; lia.
    + destruct (chan.closed _); intros [= <-]; cbn; rewrite ?Hp, ?Hc; cbn; lia.
Qed.

Lemma sum_list_with_pos {A} (f : A → nat) (l : list A) :
  0 < sum_list_with f l → ∃ i x, l !! i = Some x ∧ 0 < f x.
Proof.
  induction l as [|a l IH]; cbn; [lia|]. intros Hpos.
  destruct (decide (0 < f a)) as [Ha|Ha]; [by exists 0, a|].
  destruct IH as (i & x & Hi & Hx); [lia|]. by exists (S i), x.
Qed.

Lemma omap_length_le {A B} (f : A → option B) (l : list A) :
  length (omap f l) ≤ length l.
Proof. induction l as [|a l IH]; cbn; [lia|]. destruct (f a); cbn; lia. Qed.

Lemma omap_length_lt {A B} (f : A → option B) (l : list A) i x :
  l !! i = Some x → f x = None → length (omap f l) < length l.
Proof.
  revert i. induction l as [|a l IH]; intros [|i] Hi Hx; simplify_eq/=.
  - rewrite Hx. pose proof (omap_length_le f l). lia.
  - specialize (IH i Hi Hx). destruct (f a); cbn; lia.
Qed.

Lemma workers_bound st :
  Inv st → length (Service.workers st) ≤ length nodes.
Proof.
  intros [Hsp _ _ _ _ _ _ _ _ _ _].
  pose proof (named_length nodes) as Hn. rewrite <-Hsp in Hn.
  rewrite length_app, length_fmap in Hn. lia.
Qed.

(** a worker that has not finished can take a step, unless the caller has
    returned on an error and the channels are full *)
Lemma worker_can_step st i w :
  Inv st → Service.panicked st = None →
  has_returned (Service.main st) = false →
  Service.workers st !! i = Some w → 0 < live w →
  is_Some (step (Worker i) st).
Proof.
  intros HInv Hnp Hret Hi Hlive.
  pose proof (workers_bound st HInv) as Hbound.
  destruct HInv as [Hsp Htok Hwg Hq Herr Hcalls Hcaps Hcl Hheap _ Hpan].
  destruct Hcl as (Hloop & Hcq & Hce & Hcs & Hw).
  destruct Hcaps as (Hcaps & Hcapq & Hcape).
  unfold Service.step. rewrite Hnp. unfold Service.step_worker. rewrite Hi.
  pose proof (live_le_sum _ _ _ Hi) as Hl.
  pose proof (holds_le_sum _ _ _ Hi) as Hh.
  destruct w as [node pc]. destruct pc; cbn in Hlive, Hl, Hh.
  - destruct (Service.script req) as [sc|]; [|done].
    assert (past_wait (Service.closer st) = false) as Hpw.
    { destruct (past_wait _); [|done]. specialize (Hw eq_refl). lia. }
    destruct (graph.ParseAndExecute _ _ _ _ _ _).
    + unfold chan.send. cbn.
      destruct (chan.closed (Service.queryChan st)) eqn:Hclosed.
      { by destruct (Service.closer st). }
      destruct (Nat.ltb_spec (length (chan.buf (Service.queryChan st)))
                  (chan.cap (Service.queryChan st))) as [|Hfull]; [done|].
      exfalso. specialize (Hq Hret). apply Permutation_length in Hq.
      rewrite length_app in Hq.
      pose proof (omap_length_lt
                    (sent_ok req backend nodes caches cacheStack)
                    _ _ _ Hi eq_refl). lia.
    + unfold chan.send. cbn.
      destruct (chan.closed (Service.errChan st)) eqn:Hclosed.
      { by destruct (Service.closer st). }
      destruct (Nat.ltb_spec (length (chan.buf (Service.errChan st)))
                  (chan.cap (Service.errChan st))) as [|Hfull]; [done|].
      exfalso. apply submseteq_length in Herr.
      pose proof (omap_length_lt
                    (sent_err req backend nodes caches cacheStack)
                    _ _ _ Hi eq_refl). lia.
  - unfold chan.recv.
    destruct (chan.buf (Service.semaphore st)); [cbn in Htok; lia|done].
  - destruct (Service.wg st); [lia|done].
  - lia.
Qed.

(** as long as the call has neither returned nor panicked, some goroutine
    can take a step, if the semaphore has room at all or no worker is
    needed *)
Lemma progress st :
  Inv st → K > 0 ∨ named nodes = [] → Service.outcome st = None →
  ∃ g, g ∈ goroutines nodes ∧ is_Some (step g st).
Proof.
  intros HInv HK Hout.
  pose proof (workers_bound st HInv) as Hbound.
  assert (∀ i w, Service.workers st !! i = Some w →
                 Worker i ∈ goroutines nodes) as Hworker.
  { intros i w Hi%lookup_lt_Some. unfold goroutines.
    do 2 right. apply list_elem_of_fmap. exists i. split; [done|].
    apply elem_of_seq. lia. }
  unfold Service.outcome in Hout.
  destruct (Service.main st) as [rest|node rest| |h|r] eqn:Hm; [..|done];
    destruct (Service.panicked st) eqn:Hnp; try done.
  - exists Main. split; [by left|]. unfold Service.step. rewrite Hnp.
    unfold Service.step_main. rewrite Hm.
    destruct rest; [done|]. by destruct (decide _).
  - pose proof HInv as [Hsp Htok Hwg Hq Herr Hcalls Hcaps Hcl Hheap _ Hpan].
    destruct Hcl as (Hloop & Hcq & Hce & Hcs & Hw).
    rewrite Hm in Hloop, Hsp. cbn in Hloop, Hsp.
    destruct (Service.closer st) eqn:Hc; try done. cbn in Hcs.
    destruct (Nat.ltb_spec (length (chan.buf (Service.semaphore st)))
                (chan.cap (Service.semaphore st))) as [Hroom|Hfull].
    + exists Main. split; [by left|]. unfold Service.step. rewrite Hnp.
      unfold Service.step_main. rewrite Hm. unfold chan.send. rewrite Hcs.
      by destruct (Nat.ltb_spec (length (chan.buf (Service.semaphore st)))
                     (chan.cap (Service.semaphore st))); [|lia].
    + destruct HK as [HK|HK].
      2:{ rewrite HK in Hsp. by destruct (Service.workers st).*1. }
      destruct Hcaps as (Hcaps & _).
      destruct (sum_list_with_pos holds (Service.workers st))
        as (i & [n pc] & Hi & Hholds); [lia|].
      exists (Worker i). split; [by eapply Hworker|].
      eapply worker_can_step; try done; [by rewrite Hm|].
      destruct pc; cbn in *; lia.
  - exists Main. split; [by left|]. unfold Service.step. rewrite Hnp.
    unfold Service.step_main. rewrite Hm. unfold chan.recv.
    destruct (chan.buf _); [by destruct (chan.closed _)|done].
  - pose proof HInv as [Hsp Htok Hwg Hq Herr Hcalls Hcaps Hcl Hheap _ Hpan].
    destruct Hcl as (Hloop & Hcq & Hce & Hcs & Hw).
    rewrite Hm in Hloop, Hwg. cbn in Hloop, Hwg.
    destruct (chan.buf (Service.queryChan st)) as [|q b] eqn:Hbuf.
    2:{ exists Main. split; [by left|]. unfold Service.step. rewrite Hnp.
        unfold Service.step_main. rewrite Hm. unfold chan.recv.
        by rewrite Hbuf. }
    destruct (chan.closed (Service.queryChan st)) eqn:Hclosed.
    { exists Main. split; [by left|]. unfold Service.step. rewrite Hnp.
      unfold Service.step_main. rewrite Hm. unfold chan.recv.
      by rewrite Hbuf, Hclosed. }
    destruct (Service.closer st) eqn:Hc; try done.
    + destruct (Service.wg st) as [|n] eqn:Hn.
      * exists Closer. split; [right; by left|]. unfold Service.step.
        rewrite Hnp. unfold Service.step_closer. by rewrite Hc, Hn.
      * destruct (sum_list_with_pos live (Service.workers st))
          as (i & w & Hi & Hlive); [lia|].
        exists (Worker i). split; [by eapply Hworker|].
        eapply worker_can_step; try done. by rewrite Hm.
    + exists Closer. split; [right; by left|]. unfold Service.step.
      rewrite Hnp. unfold Service.step_closer, chan.close.
      by rewrite Hc, Hclosed.
Qed.

Lemma runnable_Some st g :
  runnable req backend nodes caches cacheStack st = Some g →
  is_Some (step g st).
Proof.
  unfold runnable. intros Hf%find_some. destruct Hf as [_ Hg].
  by apply bool_decide_eq_true in Hg.
Qed.

Lemma runnable_None st g :
  runnable req backend nodes caches cacheStack st = None →
  g ∈ goroutines nodes → step g st = None.
Proof.
  unfold runnable. intros Hf Hg.
  pose proof (find_none _ _ Hf g) as Hn.
  rewrite <-list_elem_of_In in Hn. specialize (Hn Hg).
  apply bool_decide_eq_false in Hn.
  destruct (step g st); [|done]. by destruct Hn.
Qed.

(** the goroutines, left to run, bring the call to its end *)
Lemma run_on_outcome fuel st :
  Inv st → K > 0 ∨ named nodes = [] → weight st ≤ fuel →
  is_Some (Service.outcome
             (exec (run_on req backend nodes caches cacheStack fuel st) st)).
Proof.
  revert st. induction fuel as [|fuel IH]; intros st HInv HK Hw.
  { unfold weight in Hw. cbn.
    destruct (Service.panicked st) eqn:Hp; [|cbn in Hw; lia].
    unfold Service.outcome. rewrite Hp. by destruct (Service.main st). }
  cbn [run_on].
  destruct (runnable _ _ _ _ _ st) as [g|] eqn:Hrun.
  - destruct (runnable_Some _ _ Hrun) as [st' Hstep].
    cbn [Service.exec]. rewrite Hstep.
    change (default st (Some st')) with st'.
    apply IH; [by eapply step_Inv|done|].
    pose proof (step_weight _ _ _ Hstep). lia.
  - cbn. destruct (Service.outcome st) eqn:Hout; [done|].
    destruct (progress st HInv HK Hout) as (g & Hg & Hs).
    rewrite (runnable_None _ _ Hrun Hg) in Hs. by destruct Hs.
Qed.

(** with no room in the semaphore and a named node to start a worker
    for, the caller never gets past its first acquire *)
Lemma stuck_at_acquire_step g st st' :
  stuck_at_acquire st → step g st = Some st' → stuck_at_acquire st'.
Proof.
  intros (Hp & Hws & Hc & Hbuf & Hcap & Hclosed & Hmain).
  unfold Service.step. rewrite Hp. destruct g as [|i|].
  - unfold Service.step_main.
    destruct Hmain as [(rest & Hm & Hrest)|(node & rest & Hm)]; rewrite Hm.
    + destruct rest as [|node rest]; [done|].
      destruct (decide _) as [Hname|Hname]; intros [= <-].
      * rewrite named_cons_unnamed in Hrest by done.
        split_and!; try done. left. by exists rest.
      * split_and!; try done. right. by exists node, rest.
    + unfold chan.send. rewrite Hclosed, Hbuf, Hcap. done.
  - unfold Service.step_worker. by rewrite Hws.
  - unfold Service.step_closer. by rewrite Hc.
Qed.

Lemma stuck_at_acquire_exec sched st :
  stuck_at_acquire st → Service.outcome (exec sched st) = None.
Proof.
  revert st. induction sched as [|g sched IH]; intros st Hst.
  - destruct Hst as (Hp & _ & _ & _ & _ & _ & Hmain).
    unfold Service.outcome. cbn. rewrite Hp.
    by destruct Hmain as [(? & -> & _)|(? & ? & ->)].
  - cbn. destruct (step g st) eqn:Hstep; cbn; apply IH; [|done].
    by eapply stuck_at_acquire_step.
Qed.
End MachineTheory.

(* ===================================================================== *)
(** ** The handlers *)

Section HandlerTheory.
Context {any Sto : Type} `{!graph.Package any Sto}.
Implicit Types (s : Service.t Sto) (ctx : context.Context).

Lemma load_dirty s ids :
  graph.ToBeCached (Service.storage s) = Ok ids → ids ≠ [] →
  Service.run s Service.load
  = (Exn (Errorf "cannot use sorted leaderboards without caching"),
     {| store := Service.storage s; log := [CallToBeCached] |}).
Proof.
  intros Hd Hne. unfold Service.run, Service.load, Service.enter.
  unfold mbind, Op_bind, bind, try_wrap. cbn. rewrite Hd.
  destruct ids; [done|]. cbn.
  destruct (decide _) as [|Hn]; [done|]. exfalso. apply Hn. cbn. lia.
Qed.

Lemma load_clean s :
  graph.ToBeCached (Service.storage s) = Ok [] →
  ∃ r tail,
    Service.run s Service.load
    = (r, {| store := Service.storage s;
             log := CallToBeCached :: CallGetAllKeys :: tail |}).
Proof.
  intros Hd. unfold Service.run, Service.load, Service.enter.
  unfold mbind, Op_bind, bind, try_wrap, try, mret, Op_ret, ret. cbn.
  rewrite Hd. cbn. destruct (decide (0 ≠ 0)); [done|]. cbn.
  destruct (graph.GetAllKeys (Service.storage s)) as [keys|]; cbn;
    [|by eexists _, _].
  destruct (graph.GetNodes (Service.storage s) keys); cbn; [|by eexists _, _].
  destruct (graph.GetCaches (Service.storage s) keys); cbn;
    [|by eexists _, _].
  rewrite Hd. cbn. by eexists _, _.
Qed.

(** what a successful load has read, and what it has logged *)
Lemma load_Val s nodes caches cacheStack w0 :
  Service.run s Service.load = (Val (nodes, caches, cacheStack), w0) →
  store w0 = Service.storage s ∧
  ∃ keys,
    graph.ToBeCached (Service.storage s) = Ok [] ∧ cacheStack = [] ∧
    graph.GetAllKeys (Service.storage s) = Ok keys ∧
    graph.GetNodes (Service.storage s) keys = Ok nodes ∧
    graph.GetCaches (Service.storage s) keys = Ok caches ∧
    log w0 = [CallToBeCached; CallGetAllKeys; CallGetNodes keys;
              CallGetCaches keys; CallToBeCached].
Proof.
  unfold Service.run, Service.load, Service.enter.
  unfold mbind, Op_bind, bind, try_wrap, try, mret, Op_ret, ret, fail. cbn.
  destruct (graph.ToBeCached (Service.storage s)) as [ids|] eqn:Hd; cbn;
    [|done].
  destruct (decide (length ids ≠ 0)) as [|Hlen]; [done|].
  destruct ids; [|exfalso; apply Hlen; cbn; lia]. cbn.
  destruct (graph.GetAllKeys (Service.storage s)) as [keys|] eqn:Hk; cbn;
    [|done].
  destruct (graph.GetNodes (Service.storage s) keys) eqn:Hn; cbn; [|done].
  destruct (graph.GetCaches (Service.storage s) keys) eqn:Hc; cbn; [|done].
  rewrite Hd. cbn. intros [= <- <- <- <-]. cbn.
  split; [done|]. by exists keys.
Qed.

Lemma for_append_Val {A B} (format : string) (f : A → result B)
    (xs : list A) (ys zs : list B) (w w' : World Sto) :
  for_append format f xs ys w = (Val zs, w') →
  w' = w ∧ ∃ zs', zs = ys ++ zs' ∧ Forall2 (λ x z, f x = Ok z) xs zs'.
Proof.
  revert ys. induction xs as [|x xs IH]; intros ys; cbn.
  - intros [= <- <-]. split; [done|]. exists []. by rewrite app_nil_r.
  - destruct (f x) as [y|] eqn:Hx; [|done]. intros Hrest.
    destruct (IH _ Hrest) as (-> & zs' & -> & Hall). split; [done|].
    exists (y :: zs'). rewrite <-app_assoc. split; [done|]. by constructor.
Qed.


Lemma ToArray_elem_of (b : roaring.Bitmap) x : x ∈ roaring.ToArray b ↔ x ∈ b.
Proof.
  unfold roaring.ToArray. rewrite merge_sort_Permutation. apply elem_of_elements.
Qed.

Lemma ToArray_ascending (b : roaring.Bitmap) :
  StronglySorted N.lt (roaring.ToArray b).
Proof.
  assert (NoDup (roaring.ToArray b)) as Hnd.
  { unfold roaring.ToArray. rewrite merge_sort_Permutation.
    apply NoDup_elements. }
  assert (StronglySorted N.le (roaring.ToArray b)) as Hs.
  { apply StronglySorted_merge_sort; apply _. }
  induction Hs as [|x l Hs IH Hall]; [constructor|].
  apply NoDup_cons in Hnd as [Hx Hnd]. constructor; [by apply IH|].
  apply Forall_forall. intros y Hy.
  rewrite Forall_forall in Hall. specialize (Hall y Hy).
  assert (x ≠ y) by (by intros ->). lia.
Qed.

Local Ltac unfold_handler :=
  unfold Service.run, Service.enter, mbind, mret, Op_bind, Op_ret, bind, ret,
    fail, panic, try_wrap, try, try_wrap_upd, lift_wrap, deref, logged;
  cbn.

Lemma GetNode_Val s ctx req resp w :
  Service.GetNode s ctx req = (Val resp, w) →
  ∃ r msg node,
    req = Some r ∧ connect.Msg r = Some msg ∧
    graph.GetNode (Service.storage s) (service.GetNodeRequest.Id msg) = Ok node ∧
    NodeToServiceNode node
    = Ok (service.GetNodeResponse.Node (connect.Body resp)).
Proof.
  unfold Service.GetNode. unfold_handler.
  destruct req as [r|]; [|done]. cbn.
  destruct (connect.Msg r) as [msg|] eqn:Hmsg; [|done]. cbn.
  destruct (graph.GetNode (Service.storage s) _) as [node|] eqn:Hn; [|done].
  cbn. destruct (NodeToServiceNode node) as [sn|] eqn:Hsn; [|done].
  cbn. intros [= <- <-]. by exists r, msg, node.
Qed.

Lemma GetNodeByName_Val s ctx req resp w :
  Service.GetNodeByName s ctx req = (Val resp, w) →
  ∃ r msg id node,
    req = Some r ∧ connect.Msg r = Some msg ∧
    graph.NameToID (Service.storage s) (service.GetNodeByNameRequest.Name msg)
    = Ok id ∧
    graph.GetNode (Service.storage s) id = Ok node ∧
    NodeToServiceNode node
    = Ok (service.GetNodeByNameResponse.Node (connect.Body resp)).
Proof.
  unfold Service.GetNodeByName. unfold_handler.
  destruct req as [r|]; [|done]. cbn.
  destruct (connect.Msg r) as [msg|] eqn:Hmsg; [|done]. cbn.
  destruct (graph.NameToID (Service.storage s) _) as [id|] eqn:Hid; [|done].
  cbn. destruct (graph.GetNode (Service.storage s) id) as [node|] eqn:Hn;
    [|done].
  cbn. destruct (NodeToServiceNode node) as [sn|] eqn:Hsn; [|done].
  cbn. intros [= <- <-]. by exists r, msg, id, node.
Qed.

Lemma GetNodesByGlob_Val s ctx req resp w :
  Service.GetNodesByGlob s ctx req = (Val resp, w) →
  ∃ r msg nodes,
    req = Some r ∧ connect.Msg r = Some msg ∧
    graph.GetNodesByGlob (Service.storage s)
      (service.GetNodesByGlobRequest.Pattern msg) = Ok nodes ∧
    Forall2 (λ node sn, NodeToServiceNode node = Ok sn) nodes
      (service.GetNodesByGlobResponse.Nodes (connect.Body resp)).
Proof.
  unfold Service.GetNodesByGlob. unfold_handler.
  destruct req as [r|]; [|done]. cbn.
  destruct (connect.Msg r) as [msg|] eqn:Hmsg; [|done]. cbn.
  destruct (graph.GetNodesByGlob (Service.storage s) _) as [nodes|] eqn:Hn;
    [|done].
  cbn. destruct (for_append _ _ _ _ _) as [[sns| |] w1] eqn:Hfor; try done.
  intros [= <- <-]. apply for_append_Val in Hfor as (_ & zs & -> & Hall).
  by exists r, msg, nodes.
Qed.

Lemma AddNode_Val s ctx req resp w :
  Service.AddNode s ctx req = (Val resp, w) →
  ∃ r msg n node,
    req = Some r ∧ connect.Msg r = Some msg ∧
    service.AddNodeRequest.Node msg = Some n ∧
    (graph.AddNode (Service.storage s) (service.Node.Type_ n)
       (graph.bytes_any (service.Node.Metadata n)) (service.Node.Name n)).1
    = Ok node ∧
    NodeToServiceNode node
    = Ok (service.AddNodeResponse.Node (connect.Body resp)).
Proof.
  unfold Service.AddNode. unfold_handler.
  destruct req as [r|]; [|done]. cbn.
  destruct (connect.Msg r) as [msg|] eqn:Hmsg; [|done]. cbn.
  destruct (service.AddNodeRequest.Node msg) as [n|] eqn:Hnode; [|done]. cbn.
  destruct (graph.AddNode (Service.storage s) _ _ _) as [[node|] st] eqn:Hn;
    [|done].
  cbn. destruct (NodeToServiceNode node) as [sn|] eqn:Hsn; [|done].
  cbn. intros [= <- <-]. exists r, msg, n, node. by rewrite Hn.
Qed.

Lemma AllKeys_Val s ctx req resp w :
  Service.AllKeys s ctx req = (Val resp, w) →
  ∃ keys nodes,
    graph.GetAllKeys (Service.storage s) = Ok keys ∧
    graph.GetNodes (Service.storage s) keys = Ok nodes ∧
    Forall2 (λ node sn, NodeToServiceNode node = Ok sn) nodes
      (service.AllKeysResponse.Nodes (connect.Body resp)).
Proof.
  unfold Service.AllKeys. unfold_handler.
  destruct (graph.GetAllKeys (Service.storage s)) as [keys|] eqn:Hk; [|done].
  cbn. destruct (graph.GetNodes (Service.storage s) keys) as [nodes|] eqn:Hn;
    [|done].
  cbn. destruct (for_append _ _ _ _ _) as [[sns| |] w1] eqn:Hfor; try done.
  intros [= <- <-]. apply for_append_Val in Hfor as (_ & zs & -> & Hall).
  by exists keys, nodes.
Qed.

End HandlerTheory.

Section LeaderboardTheory.
Context {any Sto : Type} `{!graph.Package any Sto}.
Implicit Types (s : Service.t Sto) (ctx : context.Context).

Lemma CustomLeaderboard_run s ctx req sched nodes caches cacheStack w0 :
  Service.run s Service.load = (Val (nodes, caches, cacheStack), w0) →
  (0 ≤ Service.concurrency s)%Z →
  let st := Service.exec req (Service.storage s) nodes caches cacheStack sched
              (Service.init nodes (Z.to_nat (Service.concurrency s)) (log w0)) in
  Service.CustomLeaderboard s ctx req sched
  = (Service.outcome st,
     {| store := Service.storage s; log := Service.calls st |}).
Proof.
  intros Hload HK st. unfold Service.CustomLeaderboard. rewrite Hload.
  destruct (Z.ltb_spec (Service.concurrency s) 0) as [|_]; [lia|].
  destruct (load_Val _ _ _ _ _ Hload) as [-> _]. done.
Qed.

(** The entries of a returned response are the entries of the named nodes
    whose evaluation succeeded, larger outputs first. *)
Lemma CustomLeaderboard_Val s ctx req sched resp w :
  Service.CustomLeaderboard s ctx req sched = (Some (Val resp), w) →
  ∃ nodes caches cacheStack l,
    loads s nodes caches cacheStack ∧
    l ≡ₚ omap (ok_query req (Service.storage s) nodes caches cacheStack)
           (named nodes) ∧
    StronglySorted by_cardinality_desc l ∧
    Forall2 converts l
      (service.CustomLeaderboardResponse.Queries (connect.Body resp)).
Proof.
  unfold Service.CustomLeaderboard.
  destruct (Service.run s Service.load)
    as [[[[nodes caches] cacheStack]| |] w0] eqn:Hload; [|done..].
  destruct (Z.ltb_spec (Service.concurrency s) 0); [done|].
  destruct (load_Val _ _ _ _ _ Hload) as [Hstore _]. rewrite Hstore.
  set (st := Service.exec _ _ _ _ _ _ _). intros [= Hout _].
  pose proof (exec_Inv req (Service.storage s) nodes caches cacheStack
                (Z.to_nat (Service.concurrency s)) (log w0) sched _
                (init_Inv _ _ _ _ _ _ _)) as HInv.
  fold st in HInv.
  unfold Service.outcome in Hout.
  destruct (Service.main st) as [| | | |r] eqn:Hm;
    try (by destruct (Service.panicked st)).
  injection Hout as ->.
  destruct (inv_returned _ _ _ _ _ _ _ _ HInv _ Hm)
    as [(? & ? & ? & _)|(h & Hc & Hh & Hperm & _)]; [done|].
  symmetry in Hc. apply collect_sorted in Hc as (l & Hl & Hs & Hconv); [|done].
  exists nodes, caches, cacheStack, l. split_and!; try done.
  - by exists w0.
  - by rewrite Hl.
Qed.
End LeaderboardTheory.

Section LeaderboardResults.
Context {any Sto : Type} `{!graph.Package any Sto}.
Implicit Types (s : Service.t Sto) (ctx : context.Context).

Lemma loads_functional s nodes caches cacheStack nodes' caches' cacheStack' :
  loads s nodes caches cacheStack → loads s nodes' caches' cacheStack' →
  nodes' = nodes ∧ caches' = caches ∧ cacheStack' = cacheStack.
Proof. intros [w0 H0] [w1 H1]. rewrite H0 in H1. by simplify_eq. Qed.

(** the entries of the response are the converted heap entries, in order *)
Lemma converts_entries (l : list (Query.t any))
    (qs : list (option service.Query.t)) :
  Forall2 converts l qs →
  qs = Some <$> omap id qs ∧
  Query.Output <$> l = service.Query.Output <$> omap id qs.
Proof.
  induction 1 as [|q o l qs (sn & _ & ->) _ [IH1 IH2]]; [done|].
  cbn. rewrite <-IH1. by rewrite IH2.
Qed.

Lemma sorted_by_cardinality_entries (l : list (Query.t any))
    (es : list service.Query.t) :
  Query.Output <$> l = service.Query.Output <$> es →
  StronglySorted by_cardinality_desc l →
  StronglySorted
    (λ a b, length (service.Query.Output b) ≤ length (service.Query.Output a))
    es.
Proof.
  intros Heq Hs. revert es Heq.
  induction Hs as [|q l Hs IH Hall]; intros [|e es] Heq; try done.
  { constructor. }
  rewrite !fmap_cons in Heq. injection Heq as Hq Hl.
  constructor; [by apply IH|].
  apply Forall_forall. intros e' He'.
  apply (list_elem_of_fmap_2 service.Query.Output) in He'.
  rewrite <-Hl in He'. apply list_elem_of_fmap in He' as (q' & Hq' & Hin).
  rewrite Forall_forall in Hall. specialize (Hall q' Hin).
  unfold by_cardinality_desc, key in Hall. by rewrite <-Hq, Hq'.
Qed.

(** the entry made of a heap entry is fixed by the heap entry *)
Lemma converts_functional (l : list (Query.t any))
    (qs qs' : list (option service.Query.t)) :
  Forall2 converts l qs → Forall2 converts l qs' → qs = qs'.
Proof.
  intros Hc. revert qs'.
  induction Hc as [|q o l qs (sn & Hsn & ->) _ IH]; intros qs' Hc'.
  { by apply Forall2_nil_inv_l in Hc'. }
  apply Forall2_cons_inv_l in Hc' as (o' & qs'' & (sn' & Hsn' & ->) & Hc' & ->).
  rewrite Hsn in Hsn'. injection Hsn' as <-. f_equal. by apply IH.
Qed.

(** when every evaluation succeeds, a call that comes to an end returns a
    response *)
Lemma CustomLeaderboard_outcome_Val s ctx req sched nodes caches cacheStack r w :
  loads s nodes caches cacheStack →
  (∀ node, node ∈ named nodes →
     ∃ execute, evaluate req (Service.storage s) nodes caches cacheStack node
                = Some (Ok execute)) →
  (∀ node, node ∈ named nodes →
     ∃ data, graph.json_Marshal (graph.Node.Metadata node) = Ok data) →
  (0 ≤ Service.concurrency s)%Z →
  Service.CustomLeaderboard s ctx req sched = (Some r, w) →
  ∃ resp, r = Val resp.
Proof.
  intros [w0 Hload] Heval Hmarshal HK.
  rewrite (CustomLeaderboard_run _ _ _ _ _ _ _ _ Hload HK).
  set (st := Service.exec _ _ _ _ _ _ _). intros [= Hout _].
  pose proof (exec_Inv req (Service.storage s) nodes caches cacheStack
                (Z.to_nat (Service.concurrency s)) (log w0) sched _
                (init_Inv _ _ _ _ _ _ _)) as HInv.
  fold st in HInv. unfold Service.outcome in Hout.
  assert (∀ msg, Service.panicked st ≠ Some msg) as Hnp.
  { intros msg Hp.
    destruct (inv_panicked _ _ _ _ _ _ _ _ HInv _ Hp) as [Hsc Hne].
    destruct (named nodes) as [|node ns] eqn:Hnamed; [done|].
    destruct (Heval node) as [execute He]; [by left|].
    unfold evaluate in He. by rewrite Hsc in He. }
  destruct (Service.main st) as [| | | |r'] eqn:Hm;
    try (destruct (Service.panicked st) eqn:Hp; [by edestruct Hnp|done]).
  injection Hout as ->.
  destruct (inv_returned _ _ _ _ _ _ _ _ HInv _ Hm)
    as [(node & err & -> & Hin & Herr)|(h & -> & Hh & Hperm & _)].
  - destruct (Heval node Hin) as [execute He].
    unfold err_of in Herr. by rewrite He in Herr.
  - unfold Service.collect.
    destruct (fill_total (queryHeap.Len h) h
                (replicate (queryHeap.Len h) None) eq_refl Hh)
      as [[qs' ->]|(q & err & Hq & Hconv & _)]; [by eexists|].
    rewrite Hperm in Hq. apply list_elem_of_omap in Hq as (node & Hin & Hok).
    destruct (Hmarshal node Hin) as [data Hdata].
    unfold ok_query in Hok.
    destruct (evaluate _ _ _ _ _ node) as [[execute|]|]; simplify_eq.
    unfold NodeToServiceNode in Hconv. cbn in Hconv.
    by rewrite Hdata in Hconv.
Qed.

(** a call can always be run to its end, if the semaphore has room at all
    or no worker is needed *)
Lemma CustomLeaderboard_ends s ctx req sched nodes caches cacheStack :
  loads s nodes caches cacheStack →
  (0 < Service.concurrency s)%Z
  ∨ (Service.concurrency s = 0%Z ∧ named nodes = []) →
  ∃ sched' r w,
    Service.CustomLeaderboard s ctx req (sched ++ sched') = (Some r, w).
Proof.
  intros [w0 Hload] HK.
  assert (0 ≤ Service.concurrency s)%Z as HK0 by lia.
  set (K := Z.to_nat (Service.concurrency s)).
  set (st := Service.exec req (Service.storage s) nodes caches cacheStack
               sched (Service.init nodes K (log w0))).
  pose proof (exec_Inv req (Service.storage s) nodes caches cacheStack
                K (log w0) sched _ (init_Inv _ _ _ _ _ _ _)) as HInv.
  fold st in HInv.
  exists (run_on req (Service.storage s) nodes caches cacheStack (weight st) st).
  rewrite (CustomLeaderboard_run _ _ _ _ _ _ _ _ Hload HK0).
  cbv zeta. rewrite exec_app. fold K st.
  destruct (run_on_outcome req (Service.storage s) nodes caches cacheStack
              K (log w0) (weight st) st HInv) as [r Hr]; [|done|].
  { destruct HK as [?|[_ ?]]; [left; lia|by right]. }
  rewrite Hr. by eexists _, _.
Qed.

(** a converted node shows the direct adjacency of the graph node *)
Lemma NodeToServiceNode_adjacency (node : graph.Node.t any) sn :
  NodeToServiceNode node = Ok sn → direct_adjacency node sn.
Proof.
  unfold NodeToServiceNode.
  destruct (graph.json_Marshal _); [|done]. by intros [= <-].
Qed.

Lemma Forall2_adjacency (nodes : list (graph.Node.t any)) sns :
  Forall2 (λ node sn, NodeToServiceNode node = Ok sn) nodes sns →
  Forall2 direct_adjacency nodes sns.
Proof.
  intros Hall. eapply Forall2_impl; [exact Hall|].
  intros node sn. apply NodeToServiceNode_adjacency.
Qed.
End LeaderboardResults.

(* ===================================================================== *)
(** ** The claims *)

Section Claims.
Context {any Sto : Type} `{!graph.Package any Sto}.
Implicit Types (s : Service.t Sto) (ctx : context.Context).

(** C1, as the code has it.  When every per-node evaluation succeeds, a
    response that [CustomLeaderboard] returns holds one entry per named
    node, the entry of that node, and the entries are in descending order
    of output cardinality; with a positive concurrency budget and
    metadata that marshals, every run of the goroutines can be brought to
    such a response.  Among entries of equal cardinality the order is the
    one the heap gives to the order of arrival, not the order of the node
    names; when no two entries have the same cardinality, every run
    returns the same list. *)
Theorem CustomLeaderboard_sorted_by_cardinality
    s ctx req nodes caches cacheStack :
  loads s nodes caches cacheStack →
  (∀ node, node ∈ named nodes →
     ∃ execute, evaluate req (Service.storage s) nodes caches cacheStack node
                = Some (Ok execute)) →
  let sent := omap (ok_query req (Service.storage s) nodes caches cacheStack)
                (named nodes) in
  (∀ sched resp w,
     Service.CustomLeaderboard s ctx req sched = (Some (Val resp), w) →
     ∃ l, l ≡ₚ sent ∧ length l = length (named nodes) ∧
          Forall2 converts l
            (service.CustomLeaderboardResponse.Queries (connect.Body resp)) ∧
          StronglySorted
            (λ a b, length (service.Query.Output b)
                    ≤ length (service.Query.Output a))
            (entries resp)) ∧
  ((0 < Service.concurrency s)%Z →
   (∀ node, node ∈ named nodes →
      ∃ data, graph.json_Marshal (graph.Node.Metadata node) = Ok data) →
   ∀ sched, ∃ sched' resp w,
     Service.CustomLeaderboard s ctx req (sched ++ sched')
     = (Some (Val resp), w)) ∧
  ((∀ q1 q2, q1 ∈ sent → q2 ∈ sent → key q1 = key q2 → q1 = q2) →
   ∀ sched1 sched2 resp1 resp2 w1 w2,
     Service.CustomLeaderboard s ctx req sched1 = (Some (Val resp1), w1) →
     Service.CustomLeaderboard s ctx req sched2 = (Some (Val resp2), w2) →
     service.CustomLeaderboardResponse.Queries (connect.Body resp1)
     = service.CustomLeaderboardResponse.Queries (connect.Body resp2)).
Proof.
  intros Hloads Heval sent.
  assert (∀ sched resp w,
            Service.CustomLeaderboard s ctx req sched = (Some (Val resp), w) →
            ∃ l, l ≡ₚ sent ∧ StronglySorted by_cardinality_desc l ∧
                 Forall2 converts l
                   (service.CustomLeaderboardResponse.Queries
                      (connect.Body resp))) as Hval.
  { intros sched resp w Hret.
    apply CustomLeaderboard_Val
      in Hret as (nodes' & caches' & cacheStack' & l & Hl' & Hperm & Hs & Hc).
    destruct (loads_functional _ _ _ _ _ _ _ Hloads Hl') as (-> & -> & ->).
    by exists l. }
  split_and!.
  - intros sched resp w (l & Hperm & Hs & Hc)%Hval.
    exists l. split_and!; try done.
    + rewrite Hperm. subst sent. clear -Heval.
      induction (named nodes) as [|node ns IH]; [done|]. cbn.
      destruct (Heval node) as [execute He]; [by left|].
      unfold ok_query at 1. rewrite He. cbn. f_equal. apply IH.
      intros n Hn. apply Heval. by right.
    + destruct (converts_entries _ _ Hc) as [_ Hout].
      by eapply sorted_by_cardinality_entries.
  - intros HK Hmarshal sched.
    destruct (CustomLeaderboard_ends s ctx req sched _ _ _ Hloads)
      as (sched' & r & w & Hr); [by left|].
    destruct (CustomLeaderboard_outcome_Val _ _ _ _ _ _ _ _ _ Hloads Heval
                Hmarshal ltac:(lia) Hr) as [resp ->].
    by exists sched', resp, w.
  - intros Hdistinct sched1 sched2 resp1 resp2 w1 w2
      (l1 & Hp1 & Hs1 & Hc1)%Hval (l2 & Hp2 & Hs2 & Hc2)%Hval.
    assert (l1 = l2) as ->; [|by eapply converts_functional].
    apply (StronglySorted_unique_strong by_cardinality_desc);
      [|done|done|by rewrite Hp1, Hp2].
    intros q1 q2 Hq1 Hq2 H12 H21. rewrite Hp1 in Hq1. rewrite Hp2 in Hq2.
    apply Hdistinct; [done|done|]. unfold by_cardinality_desc in *. lia.
Qed.

(** C3.  With a non-empty dirty set [CustomLeaderboard] fails with the
    error "cannot use sorted leaderboards without caching" after reading
    the dirty set and before any other call: it loads no keys, nodes or
    caches and submits no evaluation.  With an empty dirty set it goes on
    to load the keys. *)
Theorem CustomLeaderboard_dirty_fails_first s ctx req sched :
  (∀ ids, graph.ToBeCached (Service.storage s) = Ok ids → ids ≠ [] →
     Service.CustomLeaderboard s ctx req sched
     = (Some (Exn (Errorf "cannot use sorted leaderboards without caching")),
        {| store := Service.storage s; log := [CallToBeCached] |})) ∧
  (graph.ToBeCached (Service.storage s) = Ok [] →
     ∃ tail, log (Service.CustomLeaderboard s ctx req sched).2
             = CallToBeCached :: CallGetAllKeys :: tail).
Proof.
  split.
  - intros ids Hd Hne. unfold Service.CustomLeaderboard.
    by rewrite (load_dirty s ids Hd Hne).
  - intros Hd. destruct (load_clean s Hd) as (r & tail & Hload).
    unfold Service.CustomLeaderboard. rewrite Hload.
    destruct r as [[[nodes caches] cacheStack]| |]; cbn; try by eexists.
    destruct (_ <? _)%Z; cbn; [by eexists|].
    destruct (inv_calls _ _ _ _ _ _ _ _
                (exec_Inv req (Service.storage s) nodes caches cacheStack
                   (Z.to_nat (Service.concurrency s))
                   (CallToBeCached :: CallGetAllKeys :: tail) sched _
                   (init_Inv _ _ _ _ _ _ _))) as (tail' & -> & _).
    by eexists.
Qed.


(** C5, as the code has it.  [CustomLeaderboard] does not check the
    concurrency budget.  With a budget of 0, an empty dirty set and a
    backend that answers: when no stored node has a name the call returns
    the empty leaderboard, and it returns nothing else; when some stored
    node has a name the caller blocks at its first
    [semaphore <- struct{}{}] and the call returns under no schedule. *)
Theorem CustomLeaderboard_zero_concurrency
    s ctx req nodes caches cacheStack :
  Service.concurrency s = 0%Z → loads s nodes caches cacheStack →
  (named nodes ≠ [] →
     ∀ sched, (Service.CustomLeaderboard s ctx req sched).1 = None) ∧
  (named nodes = [] →
     (∀ sched r w,
        Service.CustomLeaderboard s ctx req sched = (Some r, w) →
        r = Val empty_response) ∧
     (∀ sched, ∃ sched' w,
        Service.CustomLeaderboard s ctx req (sched ++ sched')
        = (Some (Val empty_response), w))).
Proof.
  intros HK [w0 Hload].
  assert (∀ sched r w,
            named nodes = [] →
            Service.CustomLeaderboard s ctx req sched = (Some r, w) →
            r = Val empty_response) as Hempty.
  { intros sched r w Hnil.
    rewrite (CustomLeaderboard_run _ _ _ _ _ _ _ _ Hload) by lia.
    set (st := Service.exec _ _ _ _ _ _ _). intros [= Hout _].
    pose proof (exec_Inv req (Service.storage s) nodes caches cacheStack
                  (Z.to_nat (Service.concurrency s)) (log w0) sched _
                  (init_Inv _ _ _ _ _ _ _)) as HInv.
    fold st in HInv. unfold Service.outcome in Hout.
    assert (∀ msg, Service.panicked st ≠ Some msg) as Hnp.
    { intros msg Hp.
      by destruct (inv_panicked _ _ _ _ _ _ _ _ HInv _ Hp) as [_ Hne]. }
    destruct (Service.main st) as [| | | |r'] eqn:Hm;
      try (destruct (Service.panicked st) eqn:Hp; [by edestruct Hnp|done]).
    injection Hout as ->.
    destruct (inv_returned _ _ _ _ _ _ _ _ HInv _ Hm)
      as [(node & err & -> & Hin & Herr)|(h & -> & Hh & Hperm & _)].
    - rewrite Hnil in Hin. by apply elem_of_nil in Hin.
    - rewrite Hnil in Hperm. apply Permutation_nil_r in Hperm as ->. done. }
  split.
  - intros Hnamed sched.
    rewrite (CustomLeaderboard_run _ _ _ _ _ _ _ _ Hload) by lia.
    cbn. rewrite HK. apply stuck_at_acquire_exec.
    split_and!; try done. left. by exists nodes.
  - intros Hnil. split; [by eauto|].
    intros sched.
    destruct (CustomLeaderboard_ends s ctx req sched nodes caches cacheStack)
      as (sched' & r & w & Hr); [by exists w0|by right|].
    rewrite (Hempty _ _ _ Hnil Hr) in Hr. by exists sched', w.
Qed.

(** C6, as the code has it.  [CustomLeaderboard] never reads its
    cancellation token: whatever the token, cancelled or not, and whenever
    it is cancelled, the call does what it does under the same schedule
    with any other token. *)
Theorem CustomLeaderboard_ignores_cancellation s ctx ctx' req sched :
  Service.CustomLeaderboard s ctx req sched
  = Service.CustomLeaderboard s ctx' req sched.
Proof. reflexivity. Qed.

(** C8.  [Check] answers the status "ok", for every request and backend,
    and makes no call on the backend. *)
Theorem Check_returns_ok s ctx req :
  Service.Check s ctx req
  = (Val (connect.NewResponse (service.HealthCheckResponse.mk "ok")),
     {| store := Service.storage s; log := [] |}).
Proof. reflexivity. Qed.

(** C9.  A node converted for the RPC surface lists, in ascending order,
    the members of the graph node's [Children] as its dependencies and
    those of its [Parents] as its dependents; the transitive caches are
    not read.  This holds for the node of [GetNode], [GetNodeByName] and
    [AddNode], for the nodes of [GetNodesByGlob] and [AllKeys], and for
    the node of every leaderboard entry. *)
Theorem converted_nodes_show_direct_adjacency :
  (∀ (node : graph.Node.t any) sn,
     NodeToServiceNode node = Ok sn →
     direct_adjacency node sn ∧
     StronglySorted N.lt (service.Node.Dependencies sn) ∧
     StronglySorted N.lt (service.Node.Dependents sn) ∧
     (∀ id, id ∈ service.Node.Dependencies sn ↔ id ∈ graph.Node.Children node) ∧
     (∀ id, id ∈ service.Node.Dependents sn ↔ id ∈ graph.Node.Parents node)) ∧
  (∀ s ctx req resp w,
     Service.GetNode s ctx req = (Val resp, w) →
     ∃ id node,
       graph.GetNode (Service.storage s) id = Ok node ∧
       direct_adjacency node
         (service.GetNodeResponse.Node (connect.Body resp))) ∧
  (∀ s ctx req resp w,
     Service.GetNodeByName s ctx req = (Val resp, w) →
     ∃ id node,
       graph.GetNode (Service.storage s) id = Ok node ∧
       direct_adjacency node
         (service.GetNodeByNameResponse.Node (connect.Body resp))) ∧
  (∀ s ctx req resp w,
     Service.GetNodesByGlob s ctx req = (Val resp, w) →
     ∃ pattern nodes,
       graph.GetNodesByGlob (Service.storage s) pattern = Ok nodes ∧
       Forall2 direct_adjacency nodes
         (service.GetNodesByGlobResponse.Nodes (connect.Body resp))) ∧
  (∀ s ctx req resp w,
     Service.AddNode s ctx req = (Val resp, w) →
     ∃ type metadata name node,
       (graph.AddNode (Service.storage s) type metadata name).1 = Ok node ∧
       direct_adjacency node
         (service.AddNodeResponse.Node (connect.Body resp))) ∧
  (∀ s ctx req resp w,
     Service.AllKeys s ctx req = (Val resp, w) →
     ∃ keys nodes,
       graph.GetNodes (Service.storage s) keys = Ok nodes ∧
       Forall2 direct_adjacency nodes
         (service.AllKeysResponse.Nodes (connect.Body resp))) ∧
  (∀ s ctx req sched resp w q,
     Service.CustomLeaderboard s ctx req sched = (Some (Val resp), w) →
     q ∈ entries resp →
     ∃ nodes caches cacheStack node,
       loads s nodes caches cacheStack ∧ node ∈ nodes ∧
       direct_adjacency node (service.Query.Node q)).
Proof.
  split_and!.
  - intros node sn Hsn.
    pose proof (NodeToServiceNode_adjacency node sn Hsn) as [Hd Hp].
    split_and!; try done.
    + rewrite Hd. apply ToArray_ascending.
    + rewrite Hp. apply ToArray_ascending.
    + intros id. rewrite Hd. apply ToArray_elem_of.
    + intros id. rewrite Hp. apply ToArray_elem_of.
  - intros s ctx req resp w (r & msg & node & _ & _ & Hn & Hsn)%GetNode_Val.
    eexists _, node. eauto using NodeToServiceNode_adjacency.
  - intros s ctx req resp w
      (r & msg & id & node & _ & _ & _ & Hn & Hsn)%GetNodeByName_Val.
    exists id, node. eauto using NodeToServiceNode_adjacency.
  - intros s ctx req resp w
      (r & msg & nodes & _ & _ & Hn & Hall)%GetNodesByGlob_Val.
    eexists _, nodes. eauto using Forall2_adjacency.
  - intros s ctx req resp w
      (r & msg & n & node & _ & _ & _ & Hn & Hsn)%AddNode_Val.
    eexists _, _, _, node. eauto using NodeToServiceNode_adjacency.
  - intros s ctx req resp w (keys & nodes & _ & Hn & Hall)%AllKeys_Val.
    exists keys, nodes. eauto using Forall2_adjacency.
  - intros s ctx req sched resp w q
      (nodes & caches & cacheStack & l & Hloads & Hperm & _ & Hconv)%CustomLeaderboard_Val
      Hq.
    unfold entries in Hq. apply list_elem_of_omap in Hq as (o & Ho & Heq).
    unfold id in Heq. subst o.
    apply list_elem_of_lookup in Ho as [i Hi].
    destruct (Forall2_lookup_r _ _ _ _ _ Hconv Hi)
      as (gq & Hgq & sn & Hsn & [= ->]).
    assert (gq ∈ omap (ok_query req (Service.storage s) nodes caches cacheStack)
                   (named nodes)) as Hin.
    { rewrite <-Hperm. by eapply list_elem_of_lookup_2. }
    apply list_elem_of_omap in Hin as (node & Hnode & Hok).
    exists nodes, caches, cacheStack, node. split_and!; [done| |].
    + unfold named in Hnode. by apply list_elem_of_filter in Hnode as [_ ?].
    + unfold ok_query in Hok.
      destruct (evaluate _ _ _ _ _ node) as [[execute|]|]; simplify_eq.
      by apply NodeToServiceNode_adjacency.
Qed.

(** C10.  On the nil request [Query] returns the error "request is nil";
    it does not panic and makes no call on the backend. *)
Theorem Query_nil_request s ctx :
  Service.Query s ctx None
  = (Exn (Errorf "request is nil"),
     {| store := Service.storage s; log := [] |}).
Proof. reflexivity. Qed.
End Claims.

(* ===================================================================== *)
(** ** The claims on concrete graphs *)

(** C1, witness: the cached diamond with one worker at a time, where the
    call returns a sorted leaderboard and can always be brought to return
    one; and the cached chain, on which no two outputs have the same
    cardinality and two runs with different orders of arrival return the
    same list. *)
Lemma CustomLeaderboard_sorted_by_cardinality_witness :
  let s := NewService memory.diamond 1 in
  let s' := NewService memory.chain 3 in
  (∃ resp w,
     Service.CustomLeaderboard s context.Background scenario.focus_dependencies
       scenario.in_turn = (Some (Val resp), w) ∧
     StronglySorted
       (λ a b, length (service.Query.Output b) ≤ length (service.Query.Output a))
       (entries resp)) ∧
  (∃ sched' resp w,
     Service.CustomLeaderboard s context.Background scenario.focus_dependencies
       ([Main; Main] ++ sched') = (Some (Val resp), w)) ∧
  (∃ resp1 resp2 w1 w2,
     Service.CustomLeaderboard s' context.Background
       scenario.focus_dependencies scenario.in_turn = (Some (Val resp1), w1) ∧
     Service.CustomLeaderboard s' context.Background
       scenario.focus_dependencies scenario.last_first
     = (Some (Val resp2), w2) ∧
     service.CustomLeaderboardResponse.Queries (connect.Body resp1)
     = service.CustomLeaderboardResponse.Queries (connect.Body resp2)).
Proof.
  intros s s'.
  assert (loads s (memory.nodes memory.diamond) scenario.diamond_caches [])
    as Hloads by (eexists; vm_compute; reflexivity).
  assert (∀ node, node ∈ named (memory.nodes memory.diamond) →
            ∃ execute,
              evaluate scenario.focus_dependencies (Service.storage s)
                (memory.nodes memory.diamond) scenario.diamond_caches [] node
              = Some (Ok execute)) as Heval.
  { intros node Hin.
    change (named (memory.nodes memory.diamond))
      with [memory.nodeA; memory.nodeB; memory.nodeC; memory.nodeD] in Hin.
    repeat (apply elem_of_cons in Hin as [->|Hin]);
      [eexists; vm_compute; reflexivity..|by apply elem_of_nil in Hin]. }
  assert (loads s' (memory.nodes memory.chain) scenario.chain_caches [])
    as Hloads' by (eexists; vm_compute; reflexivity).
  assert (∀ node, node ∈ named (memory.nodes memory.chain) →
            ∃ execute,
              evaluate scenario.focus_dependencies (Service.storage s')
                (memory.nodes memory.chain) scenario.chain_caches [] node
              = Some (Ok execute)) as Heval'.
  { intros node Hin. vm_compute in Hin.
    repeat (apply elem_of_cons in Hin as [->|Hin]);
      [eexists; vm_compute; reflexivity..|by apply elem_of_nil in Hin]. }
  destruct (CustomLeaderboard_sorted_by_cardinality s context.Background
              scenario.focus_dependencies _ _ _ Hloads Heval)
    as (Hsorted & Hends & _).
  destruct (CustomLeaderboard_sorted_by_cardinality s' context.Background
              scenario.focus_dependencies _ _ _ Hloads' Heval')
    as (_ & _ & Hsame).
  split_and!.
  - assert (∃ resp w,
              Service.CustomLeaderboard s context.Background
                scenario.focus_dependencies scenario.in_turn
              = (Some (Val resp), w)) as (resp & w & Hrun)
      by (eexists _, _; vm_compute; reflexivity).
    exists resp, w. split; [exact Hrun|].
    destruct (Hsorted _ _ _ Hrun) as (l & _ & _ & _ & Hs). exact Hs.
  - apply Hends; [reflexivity|]. intros node _. by eexists.
  - assert (∃ resp w,
              Service.CustomLeaderboard s' context.Background
                scenario.focus_dependencies scenario.in_turn
              = (Some (Val resp), w)) as (resp1 & w1 & Hrun1)
      by (eexists _, _; vm_compute; reflexivity).
    assert (∃ resp w,
              Service.CustomLeaderboard s' context.Background
                scenario.focus_dependencies scenario.last_first
              = (Some (Val resp), w)) as (resp2 & w2 & Hrun2)
      by (eexists _, _; vm_compute; reflexivity).
    exists resp1, resp2, w1, w2. split_and!; [exact Hrun1|exact Hrun2|].
    eapply Hsame; [|exact Hrun1|exact Hrun2].
    intros q1 q2 Hq1 Hq2 Hkey. vm_compute in Hq1, Hq2.
    repeat (apply elem_of_cons in Hq1 as [->|Hq1]);
      [..|apply elem_of_nil in Hq1; destruct Hq1].
    all: repeat (apply elem_of_cons in Hq2 as [->|Hq2]);
      [..|apply elem_of_nil in Hq2; destruct Hq2].
    all: first [vm_compute in Hkey; discriminate Hkey | reflexivity].
Defined.

(** C1, counterexample: on the diamond of the specification's scenario 5,
    with the workers taking turns, the leaderboard lists [C] before [B]:
    it is not in the order the specification asks for.  When the third
    worker delivers before the second, the same call lists [B] before [C]. *)
Lemma CustomLeaderboard_ties_follow_arrival :
  let s := NewService memory.diamond 4 in
  let turns := Service.CustomLeaderboard s context.Background
                 scenario.focus_dependencies scenario.in_turn in
  let swapped := Service.CustomLeaderboard s context.Background
                   scenario.focus_dependencies scenario.third_before_second in
  scenario.ranking turns = Some [("A", 3); ("C", 1); ("B", 1); ("D", 0)] ∧
  scenario.in_spec_order turns = Some false ∧
  scenario.ranking swapped = Some [("A", 3); ("B", 1); ("C", 1); ("D", 0)].
Proof. split_and!; vm_compute; reflexivity. Qed.

(** C2, at a failing input: the cached diamond, concurrency 4 and a script
    on which every evaluation fails.  When the caller comes to its [select]
    before a worker has sent, it finds [errChan] empty, goes on to drain
    [queryChan] and returns an empty leaderboard and no error; the four
    errors, sent later, are never read. *)
Lemma CustomLeaderboard_loses_late_errors :
  let s := NewService memory.diamond 4 in
  Forall
    (λ node,
       evaluate scenario.malformed memory.diamond (memory.nodes memory.diamond)
         scenario.diamond_caches [] node
       = Some (Err (Errorf "parse error")))
    (named (memory.nodes memory.diamond)) ∧
  (Service.CustomLeaderboard s context.Background scenario.malformed
     scenario.caller_first).1
  = Some (Val empty_response).
Proof.
  split; [|vm_compute; reflexivity].
  change (named (memory.nodes memory.diamond))
    with [memory.nodeA; memory.nodeB; memory.nodeC; memory.nodeD].
  repeat constructor; vm_compute; reflexivity.
Qed.

(** C3, witness: the diamond with node 1 still to be cached, and the cached
    diamond. *)
Lemma CustomLeaderboard_dirty_fails_first_witness :
  Service.CustomLeaderboard (NewService memory.diamond_dirty 10)
    context.Background scenario.focus_dependencies scenario.in_turn
  = (Some (Exn (Errorf "cannot use sorted leaderboards without caching")),
     {| store := memory.diamond_dirty; log := [CallToBeCached] |}) ∧
  ∃ tail,
    log (Service.CustomLeaderboard (NewService memory.diamond 10)
           context.Background scenario.focus_dependencies scenario.in_turn).2
    = CallToBeCached :: CallGetAllKeys :: tail.
Proof.
  split.
  - apply (proj1 (CustomLeaderboard_dirty_fails_first
                    (NewService memory.diamond_dirty 10) context.Background
                    scenario.focus_dependencies scenario.in_turn) [1%N]);
      [reflexivity|discriminate].
  - apply (proj2 (CustomLeaderboard_dirty_fails_first
                    (NewService memory.diamond 10) context.Background
                    scenario.focus_dependencies scenario.in_turn)).
    reflexivity.
Defined.



(** C5, counterexample: with a budget of 0 and a backend without nodes the
    call returns the empty leaderboard, not an error. *)
Lemma CustomLeaderboard_zero_concurrency_succeeds :
  (Service.CustomLeaderboard (NewService scenario.empty 0) context.Background
     scenario.focus_dependencies [Main; Main; Closer; Closer; Main]).1
  = Some (Val empty_response).
Proof. vm_compute. reflexivity. Qed.

(** C5, witness: a budget of 0 on the cached diamond, where the call never
    returns, and on the backend without nodes. *)
Lemma CustomLeaderboard_zero_concurrency_witness :
  (∀ sched,
     (Service.CustomLeaderboard (NewService memory.diamond 0)
        context.Background scenario.focus_dependencies sched).1 = None) ∧
  (∀ sched, ∃ sched' w,
     Service.CustomLeaderboard (NewService scenario.empty 0)
       context.Background scenario.focus_dependencies (sched ++ sched')
     = (Some (Val empty_response), w)).
Proof.
  split.
  - apply (CustomLeaderboard_zero_concurrency (NewService memory.diamond 0)
             context.Background scenario.focus_dependencies
             (memory.nodes memory.diamond) scenario.diamond_caches []);
      [reflexivity|eexists; vm_compute; reflexivity|discriminate].
  - apply (CustomLeaderboard_zero_concurrency (NewService scenario.empty 0)
             context.Background scenario.focus_dependencies [] ∅ []);
      [reflexivity|eexists; vm_compute; reflexivity|reflexivity].
Defined.

(** C6, counterexample: under a token that is cancelled before the call
    begins, the call on the cached diamond returns the full leaderboard. *)
Lemma CustomLeaderboard_cancelled_returns_results :
  context.Err scenario.cancelled 0 = Some context.Canceled ∧
  scenario.ranking
    (Service.CustomLeaderboard (NewService memory.diamond 1) scenario.cancelled
       scenario.focus_dependencies scenario.in_turn)
  = Some [("A", 3); ("C", 1); ("B", 1); ("D", 0)].
Proof. split; vm_compute; reflexivity. Qed.

(** C7, at a failing input: the cached diamond, the default concurrency of
    10 and a script on which every evaluation fails.  The caller passes its
    [select] before a worker has sent; one evaluation is made for each of
    the four named nodes, and the call returns a leaderboard with no entry
    for any of them. *)
Lemma CustomLeaderboard_drops_failed_nodes :
  let r := Service.CustomLeaderboard (NewService memory.diamond 10)
             context.Background scenario.malformed scenario.caller_first in
  length (named (memory.nodes memory.diamond)) = 4 ∧
  scenario.ranking r = Some [] ∧
  log r.2
  = [CallToBeCached; CallGetAllKeys; CallGetNodes [1; 2; 3; 4]%N;
     CallGetCaches [1; 2; 3; 4]%N; CallToBeCached;
     CallParseAndExecute "dependencies of" "A" true;
     CallParseAndExecute "dependencies of" "B" true;
     CallParseAndExecute "dependencies of" "C" true;
     CallParseAndExecute "dependencies of" "D" true].
Proof. split_and!; vm_compute; reflexivity. Qed.

(** C9, witness: the handlers on the diamond; node [A] has the children 2
    and 3 and no parent. *)
Lemma converted_nodes_show_direct_adjacency_witness :
  let s := NewService memory.diamond 1 in
  (∃ sn, NodeToServiceNode memory.nodeA = Ok sn ∧
         service.Node.Dependencies sn = [2; 3]%N ∧
         service.Node.Dependents sn = []) ∧
  (∃ resp w id node,
     Service.GetNode s context.Background
       (Some {| connect.Msg := Some (service.GetNodeRequest.mk 1%N) |})
     = (Val resp, w) ∧
     graph.GetNode memory.diamond id = Ok node ∧
     direct_adjacency node (service.GetNodeResponse.Node (connect.Body resp))) ∧
  (∃ resp w id node,
     Service.GetNodeByName s context.Background
       (Some {| connect.Msg := Some (service.GetNodeByNameRequest.mk "B") |})
     = (Val resp, w) ∧
     graph.GetNode memory.diamond id = Ok node ∧
     direct_adjacency node
       (service.GetNodeByNameResponse.Node (connect.Body resp))) ∧
  (∃ resp w pattern nodes,
     Service.GetNodesByGlob s context.Background
       (Some {| connect.Msg := Some (service.GetNodesByGlobRequest.mk "?") |})
     = (Val resp, w) ∧
     graph.GetNodesByGlob memory.diamond pattern = Ok nodes ∧
     Forall2 direct_adjacency nodes
       (service.GetNodesByGlobResponse.Nodes (connect.Body resp))) ∧
  (∃ resp w type metadata name node,
     Service.AddNode s context.Background
       (Some {| connect.Msg :=
                  Some (service.AddNodeRequest.mk
                          (Some (service.Node.mk 0%N "E" "library" [] [] []))) |})
     = (Val resp, w) ∧
     (graph.AddNode memory.diamond type metadata name).1 = Ok node ∧
     direct_adjacency node (service.AddNodeResponse.Node (connect.Body resp))) ∧
  (∃ resp w keys nodes,
     Service.AllKeys s context.Background
       (Some {| connect.Msg := Some emptypb.mkEmpty |})
     = (Val resp, w) ∧
     graph.GetNodes memory.diamond keys = Ok nodes ∧
     Forall2 direct_adjacency nodes
       (service.AllKeysResponse.Nodes (connect.Body resp))) ∧
  (∃ resp w,
     Service.CustomLeaderboard s context.Background scenario.focus_dependencies
       scenario.in_turn = (Some (Val resp), w) ∧
     ∀ q, q ∈ entries resp →
          ∃ nodes caches cacheStack node,
            loads s nodes caches cacheStack ∧ node ∈ nodes ∧
            direct_adjacency node (service.Query.Node q)).
Proof.
  intros s.
  destruct (@converted_nodes_show_direct_adjacency (list byte) memory.t _)
    as (Hconv & Hget & Hname & Hglob & Hadd & Hall & Hboard).
  split_and!.
  - eexists. split; [reflexivity|].
    destruct (Hconv memory.nodeA _ eq_refl) as [[Hd Hp] _].
    split; [rewrite Hd|rewrite Hp]; vm_compute; reflexivity.
  - match goal with
    | |- ∃ resp w _ _, ?h = _ ∧ _ =>
        assert (∃ resp w, h = (Val resp, w)) as (resp & w & Hrun)
          by (eexists _, _; vm_compute; reflexivity)
    end.
    destruct (Hget _ _ _ _ _ Hrun) as (id & node & Hn & Ha).
    by exists resp, w, id, node.
  - match goal with
    | |- ∃ resp w _ _, ?h = _ ∧ _ =>
        assert (∃ resp w, h = (Val resp, w)) as (resp & w & Hrun)
          by (eexists _, _; vm_compute; reflexivity)
    end.
    destruct (Hname _ _ _ _ _ Hrun) as (id & node & Hn & Ha).
    by exists resp, w, id, node.
  - match goal with
    | |- ∃ resp w _ _, ?h = _ ∧ _ =>
        assert (∃ resp w, h = (Val resp, w)) as (resp & w & Hrun)
          by (eexists _, _; vm_compute; reflexivity)
    end.
    destruct (Hglob _ _ _ _ _ Hrun) as (pattern & nodes & Hn & Ha).
    by exists resp, w, pattern, nodes.
  - match goal with
    | |- ∃ resp w _ _ _ _, ?h = _ ∧ _ =>
        assert (∃ resp w, h = (Val resp, w)) as (resp & w & Hrun)
          by (eexists _, _; vm_compute; reflexivity)
    end.
    destruct (Hadd _ _ _ _ _ Hrun) as (type & metadata & name & node & Hn & Ha).
    by exists resp, w, type, metadata, name, node.
  - match goal with
    | |- ∃ resp w _ _, ?h = _ ∧ _ =>
        assert (∃ resp w, h = (Val resp, w)) as (resp & w & Hrun)
          by (eexists _, _; vm_compute; reflexivity)
    end.
    destruct (Hall _ _ _ _ _ Hrun) as (keys & nodes & Hn & Ha).
    by exists resp, w, keys, nodes.
  - match goal with
    | |- ∃ resp w, ?h = _ ∧ _ =>
        assert (∃ resp w, h = (Some (Val resp), w)) as (resp & w & Hrun)
          by (eexists _, _; vm_compute; reflexivity)
    end.
    exists resp, w. split; [exact Hrun|].
    intros q Hq. exact (Hboard _ _ _ _ _ _ q Hrun Hq).
Defined.

(* ===================================================================== *)
(** ** Further properties: the heap of queries *)

Section HeapProperties.
Context {any : Type}.
Implicit Types (h : queryHeap.t any) (q : Query.t any).

(** X1.  [queryHeap.Pop] undoes [queryHeap.Push]: it takes off the entry
    pushed last and leaves the slice as it was before the push; what [Pop]
    takes off, [Push] puts back; and [Pop] has nothing to return exactly on
    the empty slice, where the Go method panics on [old[n-1]]. *)
Theorem queryHeap_Pop_undoes_Push h x :
  queryHeap.Pop (queryHeap.Push h x) = Some (x, h) ∧
  queryHeap.Len (queryHeap.Push h x) = queryHeap.Len h + 1 ∧
  (∀ y h', queryHeap.Pop h = Some (y, h') →
     queryHeap.Push h' y = h ∧ queryHeap.Len h' + 1 = queryHeap.Len h) ∧
  (queryHeap.Pop h = None ↔ h = []).
Proof.
  unfold queryHeap.Pop, queryHeap.Push, queryHeap.Len. split_and!.
  - rewrite length_app. simpl.
    replace (length h + 1 - 1) with (length h) by lia.
    rewrite lookup_app_r by lia. rewrite Nat.sub_diag. simpl.
    by rewrite take_app_length.
  - rewrite length_app. simpl. lia.
  - intros y h' Hpop.
    destruct (h !! (length h - 1)) as [z|] eqn:Hz; [|done].
    injection Hpop as -> <-.
    pose proof (lookup_lt_Some _ _ _ Hz) as Hlt.
    split; [|rewrite length_take_le by lia; lia].
    rewrite <-(take_drop (length h - 1) h) at 3.
    rewrite (drop_S _ _ _ Hz), drop_ge by lia. done.
  - split.
    + destruct (h !! (length h - 1)) as [z|] eqn:Hz; [done|]. intros _.
      apply lookup_ge_None in Hz. destruct h; [done|]. simpl in Hz. lia.
    + by intros ->.
Qed.

(** X2.  [queryHeap.Less] is a strict weak order on the positions of the
    slice, as [container/heap] asks of it: it is irreflexive, asymmetric
    and transitive, and so is being incomparable.  It looks at the length
    of [Output] and at nothing else: two entries whose outputs are equally
    long are not [Less] than each other, whatever their nodes. *)
Theorem queryHeap_Less_strict_weak_order h :
  (∀ i, i < queryHeap.Len h → queryHeap.Less h i i = false) ∧
  (∀ i j, queryHeap.Less h i j = true → queryHeap.Less h j i = false) ∧
  (∀ i j k, queryHeap.Less h i j = true → queryHeap.Less h j k = true →
            queryHeap.Less h i k = true) ∧
  (∀ i j k, i < queryHeap.Len h → j < queryHeap.Len h → k < queryHeap.Len h →
            queryHeap.Less h i j = false → queryHeap.Less h j k = false →
            queryHeap.Less h i k = false) ∧
  (∀ i j a b, h !! i = Some a → h !! j = Some b →
              length (Query.Output a) = length (Query.Output b) →
              queryHeap.Less h i j = false ∧ queryHeap.Less h j i = false).
Proof.
  unfold queryHeap.Less, queryHeap.Len. split_and!.
  - intros i _. destruct (h !! i); [|done]. apply Nat.ltb_irrefl.
  - intros i j. destruct (h !! i), (h !! j); try done.
    rewrite Nat.ltb_lt, Nat.ltb_ge. lia.
  - intros i j k. destruct (h !! i), (h !! j), (h !! k); try done.
    rewrite !Nat.ltb_lt. lia.
  - intros i j k [a ->]%lookup_lt_is_Some [b ->]%lookup_lt_is_Some
      [c ->]%lookup_lt_is_Some.
    rewrite !Nat.ltb_ge. lia.
  - intros i j a b -> -> Hlen. rewrite Hlen. by rewrite Nat.ltb_irrefl.
Qed.

(** X3.  On two positions of the slice [queryHeap.Swap] exchanges the two
    entries and leaves every other entry and the length alone; swapping
    twice gives the slice back. *)
Theorem queryHeap_Swap_exchanges h i j :
  i < queryHeap.Len h → j < queryHeap.Len h →
  queryHeap.Swap h i j !! i = h !! j ∧
  queryHeap.Swap h i j !! j = h !! i ∧
  (∀ k, k ≠ i → k ≠ j → queryHeap.Swap h i j !! k = h !! k) ∧
  queryHeap.Len (queryHeap.Swap h i j) = queryHeap.Len h ∧
  queryHeap.Swap (queryHeap.Swap h i j) i j = h.
Proof.
  unfold queryHeap.Len. intros Hi Hj. split_and!.
  - rewrite Swap_lookup by done. repeat case_decide; by subst.
  - rewrite Swap_lookup by done. by rewrite decide_True.
  - intros k Hki Hkj. rewrite Swap_lookup by done.
    by rewrite !decide_False.
  - apply Swap_length.
  - apply list_eq. intros k.
    rewrite Swap_lookup by (by rewrite Swap_length).
    rewrite !Swap_lookup by done.
    repeat case_decide; by subst.
Qed.

(** X4.  [heap.Push] on a heap gives a heap that holds the entries of the
    old one and the new entry, each as often as before, and whose first
    entry has a shortest output. *)
Theorem heap_Push_keeps_heap h x :
  is_heap h →
  is_heap (heap.Push h x) ∧ heap.Push h x ≡ₚ x :: h ∧
  ∀ y, y ∈ heap.Push h x → keyAt (heap.Push h x) 0 ≤ key y.
Proof.
  intros Hh. pose proof (Push_is_heap h x Hh) as Hh'.
  split_and!; [done|apply Push_Permutation|].
  intros y [k Hk]%list_elem_of_lookup.
  pose proof (heap_root_least _ _ k Hh' (lookup_lt_Some _ _ _ Hk)) as Hle.
  unfold keyAt in Hle at 2. by rewrite Hk in Hle.
Qed.

(** X5.  [heap.Pop] on a heap that is not empty takes off an entry with a
    shortest output and leaves a heap of the other entries. *)
Theorem heap_Pop_takes_least h :
  is_heap h → h ≠ [] →
  ∃ x h', heap.Pop h = Some (x, h') ∧ is_heap h' ∧ h ≡ₚ x :: h' ∧
          queryHeap.Len h' + 1 = queryHeap.Len h ∧
          ∀ y, y ∈ h → length (Query.Output x) ≤ length (Query.Output y).
Proof.
  intros Hh Hne.
  destruct (Pop_heap h Hh Hne) as (x & h' & Hpop & Hh' & Hperm & Hmin).
  exists x, h'. split_and!; try done.
  apply Permutation_length in Hperm. unfold queryHeap.Len.
  rewrite Hperm. simpl. lia.
Qed.
End HeapProperties.

(* ===================================================================== *)
(** ** Further properties: the goroutines of a call *)

Section RunTheory.
Context {any Sto : Type} `{!graph.Package any Sto}.
Variable req : option (connect.Request service.CustomLeaderboardRequest.t).
Variable backend : Sto.
Variable nodes : list (graph.Node.t any).
Variable caches : gmap uint32 graph.NodeCache.t.
Variable cacheStack : list uint32.
Variable K : nat.
Variable log0 : list call.

Local Abbreviation Node := (graph.Node.t any).
Local Abbreviation State := (@Service.State any).
Local Abbreviation step := (Service.step req backend nodes caches cacheStack).
Local Abbreviation exec := (Service.exec req backend nodes caches cacheStack).
Local Abbreviation Inv := (Inv req backend nodes caches cacheStack K log0).
Local Abbreviation Bounds := (Bounds req backend nodes caches cacheStack).
Local Abbreviation start := (Service.init nodes K log0).

Local Arguments Nat.ltb : simpl never.

Lemma init_Bounds : Bounds start.
Proof. constructor; cbn; try done. lia. Qed.

Local Ltac bounds_auto :=
  try done; try (intros ?; congruence).

Lemma step_main_Bounds st st' :
  Service.panicked st = None →
  Service.step_main st = Some st' → Inv st → Bounds st → Bounds st'.
Proof.
  intros Hnp Hstep HInv [Hsem Hquery Hnil Hpanic].
  pose proof (inv_closer _ _ _ _ _ _ _ _ HInv) as (Hloop & Hcq & Hce & Hcs & Hw).
  unfold Service.step_main in Hstep.
  destruct (Service.main st) as [[|node rest]|node rest| |h|r] eqn:Hm.
  - simplify_eq. by constructor.
  - destruct (decide _); simplify_eq; by constructor.
  - cbn in Hloop. destruct (Service.closer st) eqn:Hc; try done.
    cbn in Hcs. unfold chan.send in Hstep. rewrite Hcs in Hstep.
    destruct (Nat.ltb_spec (length (chan.buf (Service.semaphore st)))
                (chan.cap (Service.semaphore st))); simplify_eq.
    constructor; cbn.
    + rewrite length_app. cbn. lia.
    + rewrite omap_app. cbn. by rewrite app_nil_r.
    + intros Hsc. apply Forall_app. split; [by apply Hnil|].
      by repeat constructor.
    + done.
  - unfold chan.recv in Hstep.
    destruct (chan.buf (Service.errChan st)); [|simplify_eq; by constructor].
    destruct (chan.closed _); simplify_eq; by constructor.
  - unfold chan.recv in Hstep.
    destruct (chan.buf (Service.queryChan st)) as [|q b] eqn:Hbuf.
    + destruct (chan.closed _); simplify_eq.
      constructor; cbn; rewrite ?Hbuf; done.
    + simplify_eq. constructor; cbn; try done.
      etrans; [|exact Hquery]. by apply submseteq_cons.
  - done.
Qed.

Lemma step_worker_Bounds i st st' :
  Service.panicked st = None →
  Service.step_worker req backend nodes caches cacheStack i st = Some st' →
  Inv st → Bounds st → Bounds st'.
Proof.
  intros Hnp Hstep HInv [Hsem Hquery Hnil Hpanic].
  assert (Inv st') as HInv'.
  { eapply step_worker_Inv; eauto. }
  pose proof (inv_panicked _ _ _ _ _ _ _ _ HInv') as Hpan'.
  pose proof (inv_tokens _ _ _ _ _ _ _ _ HInv) as Htok.
  pose proof (inv_wg _ _ _ _ _ _ _ _ HInv) as Hwg.
  unfold Service.step_worker in Hstep.
  destruct (Service.workers st !! i) as [[node pc]|] eqn:Hi; [|done].
  assert (Service.script req = None → pc = AtEval) as Hpc.
  { intros Hsc. specialize (Hnil Hsc).
    by apply (Forall_lookup_1 _ _ _ _ Hnil Hi). }
  destruct pc.
  - destruct (Service.script req) as [sc|] eqn:Hsc.
    2:{ simplify_eq. constructor; cbn; try done.
        - intros _. by apply Hnil.
        - by intros msg [= <-]. }
    assert (evaluate req backend nodes caches cacheStack node
            = Some (graph.ParseAndExecute sc backend (graph.Node.Name node)
                      nodes caches (bool_decide (length cacheStack = 0))))
      as Heval by (unfold evaluate; by rewrite Hsc).
    destruct (graph.ParseAndExecute _ _ _ _ _ _) as [execute|err] eqn:Hexec.
    + unfold chan.send in Hstep. cbn in Hstep.
      destruct (chan.closed (Service.queryChan st)).
      { simplify_eq. by destruct (Hpan' _ eq_refl). }
      destruct (_ <? _); simplify_eq.
      constructor; cbn; bounds_auto.
      etrans; [by apply submseteq_skips_r|].
      apply Permutation_submseteq. symmetry.
      eapply omap_insert_fresh; [done|done|].
      unfold sent_ok, ok_query. cbn. by rewrite Heval.
    + unfold chan.send in Hstep. cbn in Hstep.
      destruct (chan.closed (Service.errChan st)).
      { simplify_eq. by destruct (Hpan' _ eq_refl). }
      destruct (_ <? _); simplify_eq.
      constructor; cbn; bounds_auto.
      erewrite omap_insert_same; [done|done|].
      unfold sent_ok, ok_query. cbn. by rewrite Heval.
  - assert (Service.script req ≠ None) as Hsc by (intros Hsc; by specialize (Hpc Hsc)).
    unfold chan.recv in Hstep.
    destruct (chan.buf (Service.semaphore st)) as [|[] b] eqn:Hbuf.
    + destruct (chan.closed _); simplify_eq.
      constructor; cbn; rewrite ?Hbuf; try done.
      by erewrite omap_insert_same.
    + simplify_eq. constructor; cbn; try done.
      * cbn in Hsem. lia.
      * by erewrite omap_insert_same.
  - assert (Service.script req ≠ None) as Hsc by (intros Hsc; by specialize (Hpc Hsc)).
    destruct (Service.wg st) as [|n] eqn:Hn.
    { simplify_eq. by destruct (Hpan' _ eq_refl). }
    simplify_eq. constructor; cbn; try done.
    by erewrite omap_insert_same.
  - done.
Qed.

Lemma step_closer_Bounds st st' :
  Service.panicked st = None →
  Service.step_closer st = Some st' → Inv st → Bounds st → Bounds st'.
Proof.
  intros Hnp Hstep HInv [Hsem Hquery Hnil Hpanic].
  pose proof (inv_closer _ _ _ _ _ _ _ _ HInv) as (Hloop & Hcq & Hce & Hcs & Hw).
  unfold Service.step_closer, chan.close in Hstep.
  destruct (Service.closer st) eqn:Hc; try done; cbn in Hcq, Hce, Hcs.
  - destruct (Service.wg st); simplify_eq. by constructor.
  - rewrite Hcq in Hstep. simplify_eq. by constructor.
  - rewrite Hce in Hstep. simplify_eq. by constructor.
  - rewrite Hcs in Hstep. simplify_eq. by constructor.
Qed.

Lemma step_Bounds g st st' :
  step g st = Some st' → Inv st → Bounds st → Bounds st'.
Proof.
  unfold Service.step. destruct (Service.panicked st) eqn:Hp; [done|].
  destruct g; eauto using step_main_Bounds, step_worker_Bounds,
    step_closer_Bounds.
Qed.

Lemma exec_Bounds sched st :
  Inv st → Bounds st → Inv (exec sched st) ∧ Bounds (exec sched st).
Proof.
  revert st. induction sched as [|g sched IH]; intros st HInv HB; [done|].
  simpl. destruct (step g st) as [st'|] eqn:Hstep; [|by apply IH].
  apply IH; [by eapply step_Inv|by eapply step_Bounds].
Qed.

Lemma reachable sched :
  Inv (exec sched start) ∧ Bounds (exec sched start).
Proof. apply exec_Bounds; [apply init_Inv|apply init_Bounds]. Qed.
(** a worker that has not finished can take a step, whether the caller has
    returned or not *)
Lemma worker_can_step_always st i w :
  Inv st → Bounds st → Service.panicked st = None →
  Service.workers st !! i = Some w → 0 < live w →
  is_Some (step (Worker i) st).
Proof.
  intros HInv [Hsem Hquery Hnil Hpanic] Hnp Hi Hlive.
  pose proof (workers_bound _ _ _ _ _ _ _ st HInv) as Hbound.
  destruct HInv as [Hsp Htok Hwg Hq Herr Hcalls Hcaps Hcl Hheap _ Hpan].
  destruct Hcl as (Hloop & Hcq & Hce & Hcs & Hw).
  destruct Hcaps as (Hcaps & Hcapq & Hcape).
  unfold Service.step. rewrite Hnp. unfold Service.step_worker. rewrite Hi.
  pose proof (live_le_sum _ _ _ Hi) as Hl.
  pose proof (holds_le_sum _ _ _ Hi) as Hh.
  destruct w as [node pc]. destruct pc; cbn in Hlive, Hl, Hh.
  - destruct (Service.script req) as [sc|]; [|done].
    assert (past_wait (Service.closer st) = false) as Hpw.
    { destruct (past_wait _); [|done]. specialize (Hw eq_refl). lia. }
    destruct (graph.ParseAndExecute _ _ _ _ _ _).
    + unfold chan.send. cbn.
      destruct (chan.closed (Service.queryChan st)) eqn:Hclosed.
      { by destruct (Service.closer st). }
      destruct (Nat.ltb_spec (length (chan.buf (Service.queryChan st)))
                  (chan.cap (Service.queryChan st))) as [|Hfull]; [done|].
      exfalso. apply submseteq_length in Hquery.
      pose proof (omap_length_lt
                    (sent_ok req backend nodes caches cacheStack)
                    _ _ _ Hi eq_refl). lia.
    + unfold chan.send. cbn.
      destruct (chan.closed (Service.errChan st)) eqn:Hclosed.
      { by destruct (Service.closer st). }
      destruct (Nat.ltb_spec (length (chan.buf (Service.errChan st)))
                  (chan.cap (Service.errChan st))) as [|Hfull]; [done|].
      exfalso. apply submseteq_length in Herr.
      pose proof (omap_length_lt
                    (sent_err req backend nodes caches cacheStack)
                    _ _ _ Hi eq_refl). lia.
  - unfold chan.recv.
    destruct (chan.buf (Service.semaphore st)); [cbn in Htok; lia|done].
  - destruct (Service.wg st); [lia|done].
  - lia.
Qed.

Lemma none_live_all_exited (ws : list (Node * worker_pc)) :
  sum_list_with live ws = 0 → Forall (λ w, w.2 = Exited) ws.
Proof.
  induction ws as [|[n pc] ws IH]; [by constructor|]. cbn. intros Hsum.
  constructor; [destruct pc; cbn in *; (done || lia)|].
  apply IH. lia.
Qed.

Lemma all_exited_none_holds (ws : list (Node * worker_pc)) :
  Forall (λ w, w.2 = Exited) ws →
  sum_list_with holds ws = 0 ∧ sum_list_with live ws = 0.
Proof.
  induction 1 as [|[n pc] ws Hpc _ [IH1 IH2]]; [done|].
  cbn in *. subst pc. cbn. lia.
Qed.

(** as long as the process has not panicked, some goroutine can take a
    step until all of them are done *)
Lemma progress_all st :
  Inv st → Bounds st → K > 0 ∨ named nodes = [] →
  Service.panicked st = None →
  quiescent st ∨ ∃ g, g ∈ goroutines nodes ∧ is_Some (step g st).
Proof.
  intros HInv HB HK Hnp.
  destruct (Service.outcome st) as [r|] eqn:Hout.
  2:{ right. by eapply progress. }
  unfold Service.outcome in Hout. rewrite Hnp in Hout.
  destruct (Service.main st) as [| | | |r'] eqn:Hm; try done.
  pose proof (workers_bound _ _ _ _ _ _ _ st HInv) as Hbound.
  pose proof HInv as [Hsp Htok Hwg Hq Herr Hcalls Hcaps Hcl Hheap _ Hpan].
  destruct Hcl as (Hloop & Hcq & Hce & Hcs & Hw).
  rewrite Hm in Hloop, Hwg. cbn in Hloop, Hwg.
  destruct (decide (0 < sum_list_with live (Service.workers st))) as [Hlive|Hlive].
  { destruct (sum_list_with_pos live (Service.workers st) Hlive)
      as (i & w & Hi & Hw').
    right. exists (Worker i). split.
    - apply lookup_lt_Some in Hi. unfold goroutines.
      do 2 right. apply list_elem_of_fmap. exists i. split; [done|].
      apply elem_of_seq. lia.
    - by eapply worker_can_step_always. }
  assert (Service.wg st = 0) as Hwg0 by lia.
  destruct (Service.closer st) eqn:Hc; try done; cbn in Hcq, Hce, Hcs.
  - right. exists Closer. split; [right; by left|]. unfold Service.step.
    rewrite Hnp. unfold Service.step_closer. by rewrite Hc, Hwg0.
  - right. exists Closer. split; [right; by left|]. unfold Service.step.
    rewrite Hnp. unfold Service.step_closer, chan.close. by rewrite Hc, Hcq.
  - right. exists Closer. split; [right; by left|]. unfold Service.step.
    rewrite Hnp. unfold Service.step_closer, chan.close. by rewrite Hc, Hce.
  - right. exists Closer. split; [right; by left|]. unfold Service.step.
    rewrite Hnp. unfold Service.step_closer, chan.close. by rewrite Hc, Hcs.
  - left. split_and!; [by rewrite Hm| |done].
    apply none_live_all_exited. lia.
Qed.

(** left to run for long enough, the goroutines come to a state in which
    none of them can take a step *)
Lemma run_on_stops fuel st :
  weight st ≤ fuel →
  runnable req backend nodes caches cacheStack
    (exec (run_on req backend nodes caches cacheStack fuel st) st) = None.
Proof.
  revert st. induction fuel as [|fuel IH]; intros st Hw.
  { change (runnable req backend nodes caches cacheStack st = None).
    destruct (runnable req backend nodes caches cacheStack st)
      as [g|] eqn:Hrun; [|done].
    destruct (runnable_Some _ _ _ _ _ _ _ Hrun) as [st' Hstep].
    pose proof (step_weight _ _ _ _ _ _ _ _ Hstep). lia. }
  cbn [run_on].
  destruct (runnable req backend nodes caches cacheStack st)
    as [g|] eqn:Hrun; [|exact Hrun].
  destruct (runnable_Some _ _ _ _ _ _ _ Hrun) as [st' Hstep].
  cbn [Service.exec]. rewrite Hstep.
  change (default st (Some st')) with st'.
  apply IH. pose proof (step_weight _ _ _ _ _ _ _ _ Hstep). lia.
Qed.

Lemma taken_weight sched st :
  taken req backend nodes caches cacheStack sched st + weight (exec sched st)
  ≤ weight st.
Proof.
  revert st. induction sched as [|g sched IH]; intros st; [simpl; lia|].
  simpl. destruct (step g st) as [st'|] eqn:Hstep; simpl.
  - pose proof (step_weight _ _ _ _ _ _ _ _ Hstep). specialize (IH st'). lia.
  - apply IH.
Qed.


(** X7.  A call comes to an end under every scheduler.  Its goroutines
    take at most [6 * len(nodes) + 12] steps in all, whatever the schedule;
    and with a positive concurrency budget, or with no named node, they do
    not deadlock: as long as the caller has not returned and nothing has
    panicked, one of them can take a step. *)
Theorem goroutines_terminate :
  (∀ sched,
     taken req backend nodes caches cacheStack sched start
     ≤ 6 * length nodes + 12) ∧
  (K > 0 ∨ named nodes = [] →
   ∀ sched,
     Service.outcome (exec sched start) = None →
     ∃ g, g ∈ goroutines nodes ∧ is_Some (step g (exec sched start))).
Proof.
  split.
  - intros sched. pose proof (taken_weight sched start) as Hw.
    unfold weight at 2 in Hw. cbn in Hw. lia.
  - intros HK sched Hout.
    destruct (reachable sched) as [HInv _]. by eapply progress.
Qed.

(** X8.  No goroutine is left behind.  With a positive concurrency budget
    (or no named node), and a request that carries a script (or no named
    node to read it for), every run of a call can be continued to a state
    in which the caller has returned, every worker has run its deferred
    calls and the closing goroutine has closed the three channels, also
    when the caller has returned early with an error: the channels take
    what the workers send without a receiver.  All tokens are back then,
    the wait group is at zero, and the script has been evaluated for
    every named node: an early return of the caller does not stop the
    evaluations that are still to come. *)
Theorem goroutines_all_finish :
  K > 0 ∨ named nodes = [] →
  (Service.script req = None → named nodes = []) →
  ∀ sched, ∃ sched',
    let st := exec (sched ++ sched') start in
    quiescent st ∧
    length (Service.workers st) = length (named nodes) ∧
    chan.closed (Service.queryChan st) = true ∧
    chan.closed (Service.errChan st) = true ∧
    chan.closed (Service.semaphore st) = true ∧
    chan.buf (Service.semaphore st) = [] ∧
    Service.wg st = 0 ∧
    ∃ tail, Service.calls st = log0 ++ tail ∧
            tail ≡ₚ omap (eval_call req cacheStack) (named nodes).
Proof.
  intros HK Hsc sched.
  destruct (reachable sched) as [HInv1 HB1].
  set (st1 := exec sched start) in *.
  exists (run_on req backend nodes caches cacheStack (weight st1) st1).
  cbv zeta. rewrite exec_app. fold st1.
  pose proof (run_on_stops (weight st1) st1 (Nat.le_refl _)) as Hstop.
  destruct (exec_Bounds (run_on req backend nodes caches cacheStack
                           (weight st1) st1) st1 HInv1 HB1) as [HInv HB].
  set (st := exec _ st1) in *.
  assert (Service.panicked st = None) as Hnp.
  { destruct (Service.panicked st) as [msg|] eqn:Hp; [|done].
    destruct (inv_panicked _ _ _ _ _ _ _ _ HInv _ Hp) as [Hn Hne].
    by specialize (Hsc Hn). }
  destruct (progress_all st HInv HB HK Hnp) as [Hq|(g & Hg & Hs)].
  2:{ rewrite (runnable_None _ _ _ _ _ _ _ Hstop Hg) in Hs. by destruct Hs. }
  pose proof Hq as (Hret & Hex & Hc).
  destruct HInv as [Hsp Htok Hwg _ _ (tail & Hcalls & Htail) _ Hcl _ _ _].
  destruct Hcl as (_ & Hcq & Hce & Hcs & _).
  destruct (all_exited_none_holds _ Hex) as [Hholds Hlive].
  rewrite Hc in Hcq, Hce, Hcs.
  destruct (Service.main st) eqn:Hm; try done. cbn in Hsp, Hwg.
  rewrite app_nil_r in Hsp.
  split_and!; try done.
  - by rewrite <-Hsp, length_fmap.
  - apply length_zero_iff_nil. by rewrite Htok.
  - lia.
  - exists tail. split; [done|]. rewrite Htail, <-Hsp.
    by destruct (all_exited_sent req backend nodes caches cacheStack
                   _ Hlive) as [_ ->].
Qed.
End RunTheory.

Section NoticeTheory.
Context {any Sto : Type} `{!graph.Package any Sto}.
Variable req : option (connect.Request service.CustomLeaderboardRequest.t).
Variable backend : Sto.
Variable nodes : list (graph.Node.t any).
Variable caches : gmap uint32 graph.NodeCache.t.
Variable cacheStack : list uint32.
Variable K : nat.
Variable log0 : list call.

Local Abbreviation Node := (graph.Node.t any).
Local Abbreviation State := (@Service.State any).
Local Abbreviation step := (Service.step req backend nodes caches cacheStack).
Local Abbreviation exec := (Service.exec req backend nodes caches cacheStack).
Local Abbreviation Inv := (Inv req backend nodes caches cacheStack K log0).
Local Abbreviation Bounds := (Bounds req backend nodes caches cacheStack).
Local Abbreviation Noticing := (Noticing req backend nodes caches cacheStack K).
Local Abbreviation start := (Service.init nodes K log0).

Local Arguments Nat.ltb : simpl never.

(** when no error has been sent, the evaluations that fail are those of
    workers that still hold their token *)
Lemma unsent_failures_hold (ws : list (Node * worker_pc)) :
  omap (sent_err req backend nodes caches cacheStack) ws = [] →
  length (omap (err_of req backend nodes caches cacheStack) ws.*1)
  ≤ sum_list_with holds ws.
Proof.
  induction ws as [|[n pc] ws IH]; [done|]. cbn.
  unfold sent_err at 1. cbn.
  destruct pc; cbn;
    destruct (err_of req backend nodes caches cacheStack n); cbn;
    try done; intros Hs; specialize (IH Hs); lia.
Qed.

Local Ltac noticing_kept Hunread :=
  constructor; cbn; [intros Hb; try done; by apply Hunread|try done].

Lemma init_Noticing : Noticing start.
Proof. by constructor. Qed.

Lemma step_main_Noticing st st' :
  Service.panicked st = None →
  Service.step_main st = Some st' →
  Inv st → Bounds st → Noticing st → Noticing st'.
Proof.
  intros Hnp Hstep HInv [Hsem _ _ _] [Hunread Hpassed].
  pose proof HInv as [Hsp Htok _ _ _ _ (Hcap & _) Hcl _ _ _].
  unfold Service.step_main in Hstep.
  destruct (Service.main st) as [[|node rest]|node rest| |h|r] eqn:Hm;
    cbn in Hunread, Hpassed.
  - simplify_eq. constructor; cbn; [|done]. intros _. by apply Hunread.
  - destruct (decide _); simplify_eq; constructor; cbn; try done;
      intros _; by apply Hunread.
  - unfold chan.send in Hstep.
    destruct (chan.closed _).
    { simplify_eq. constructor; cbn; rewrite Hm; cbn; [|done].
      intros _. by apply Hunread. }
    destruct (_ <? _); simplify_eq.
    constructor; cbn; [|done]. intros _.
    rewrite omap_app. cbn. rewrite app_nil_r. by apply Hunread.
  - unfold chan.recv in Hstep. specialize (Hunread eq_refl).
    destruct (chan.buf (Service.errChan st)) as [|err b] eqn:Hbuf.
    + assert (st' = Service.set_main (Service.AtDrain (heap.Init [])) st)
        as -> by (by destruct (chan.closed _); simplify_eq).
      constructor; cbn; [done|].
      apply Permutation_nil_l in Hunread. symmetry in Hunread.
      pose proof (unsent_failures_hold _ Hunread) as Hle.
      cbn in Hsp. rewrite app_nil_r in Hsp. rewrite Hsp in Hle.
      unfold failures. lia.
    + simplify_eq. constructor; cbn; [done|]. left. exists err.
      split; [done|].
      assert (err ∈ omap (sent_err req backend nodes caches cacheStack)
                      (Service.workers st)) as Hin
        by (rewrite <-Hunread; by left).
      apply list_elem_of_omap in Hin as ([n pc] & Hw & Hs).
      unfold failures. apply list_elem_of_omap. exists n. split.
      * cbn in Hsp. rewrite app_nil_r in Hsp. rewrite <-Hsp.
        apply list_elem_of_fmap. by exists (n, pc).
      * unfold sent_err in Hs. by destruct (evaluated _).
  - unfold chan.recv in Hstep.
    destruct (chan.buf (Service.queryChan st)).
    + destruct (chan.closed _); simplify_eq. constructor; cbn; [done|].
      by right.
    + simplify_eq. by constructor.
  - done.
Qed.

Lemma step_worker_Noticing i st st' :
  Service.panicked st = None →
  Service.step_worker req backend nodes caches cacheStack i st = Some st' →
  Noticing st → Noticing st'.
Proof.
  intros Hnp Hstep [Hunread Hpassed].
  unfold Service.step_worker in Hstep.
  destruct (Service.workers st !! i) as [[node pc]|] eqn:Hi; [|done].
  destruct pc.
  - destruct (Service.script req) as [sc|] eqn:Hsc;
      [|simplify_eq; noticing_kept Hunread].
    assert (evaluate req backend nodes caches cacheStack node
            = Some (graph.ParseAndExecute sc backend (graph.Node.Name node)
                      nodes caches (bool_decide (length cacheStack = 0))))
      as Heval by (unfold evaluate; by rewrite Hsc).
    destruct (graph.ParseAndExecute _ _ _ _ _ _) as [execute|err] eqn:Hexec.
    + unfold chan.send in Hstep. cbn in Hstep.
      destruct (chan.closed _); [simplify_eq; noticing_kept Hunread|].
      destruct (_ <? _); simplify_eq. constructor; cbn; [|done].
      intros Hb. rewrite (Hunread Hb).
      erewrite omap_insert_same; [done|done|].
      unfold sent_err, err_of. cbn. by rewrite Heval.
    + unfold chan.send in Hstep. cbn in Hstep.
      destruct (chan.closed _); [simplify_eq; noticing_kept Hunread|].
      destruct (_ <? _); simplify_eq. constructor; cbn; [|done].
      intros Hb. rewrite (Hunread Hb). symmetry.
      eapply omap_insert_fresh; [done|done|].
      unfold sent_err, err_of. cbn. by rewrite Heval.
  - unfold chan.recv in Hstep.
    destruct (chan.buf (Service.semaphore st)) as [|[] b].
    + destruct (chan.closed _); simplify_eq. constructor; cbn; [|done].
      intros Hb. rewrite (Hunread Hb). by erewrite omap_insert_same.
    + simplify_eq. constructor; cbn; [|done].
      intros Hb. rewrite (Hunread Hb). by erewrite omap_insert_same.
  - destruct (Service.wg st); simplify_eq; [noticing_kept Hunread|].
    constructor; cbn; [|done].
    intros Hb. rewrite (Hunread Hb). by erewrite omap_insert_same.
  - done.
Qed.

Lemma step_closer_Noticing st st' :
  Service.step_closer st = Some st' → Noticing st → Noticing st'.
Proof.
  intros Hstep [Hunread Hpassed].
  unfold Service.step_closer, chan.close in Hstep.
  destruct (Service.closer st); try done.
  - destruct (Service.wg st); simplify_eq. noticing_kept Hunread.
  - destruct (chan.closed _); simplify_eq; noticing_kept Hunread.
  - destruct (chan.closed _); simplify_eq; noticing_kept Hunread.
  - destruct (chan.closed _); simplify_eq; noticing_kept Hunread.
Qed.

Lemma exec_Noticing sched st :
  Inv st → Bounds st → Noticing st → Noticing (exec sched st).
Proof.
  revert st. induction sched as [|g sched IH]; intros st HInv HB HN; [done|].
  simpl. destruct (step g st) as [st'|] eqn:Hstep; [|by apply IH].
  apply IH; [by eapply step_Inv|by eapply step_Bounds|].
  unfold Service.step in Hstep.
  destruct (Service.panicked st) eqn:Hp; [done|].
  destruct g; eauto using step_main_Noticing, step_worker_Noticing,
    step_closer_Noticing.
Qed.

Lemma noticing sched : Noticing (exec sched start).
Proof.
  apply exec_Noticing; [apply init_Inv|apply init_Bounds|apply init_Noticing].
Qed.
End NoticeTheory.

Section OrderTheory.
Context {any Sto : Type} `{!graph.Package any Sto}.
Variable req : option (connect.Request service.CustomLeaderboardRequest.t).
Variable backend : Sto.
Variable nodes : list (graph.Node.t any).
Variable caches : gmap uint32 graph.NodeCache.t.
Variable cacheStack : list uint32.
Variable log0 : list call.

Local Abbreviation Node := (graph.Node.t any).
Local Abbreviation State := (@Service.State any).
Local Abbreviation step := (Service.step req backend nodes caches cacheStack).
Local Abbreviation exec := (Service.exec req backend nodes caches cacheStack).
Local Abbreviation Inv := (Inv req backend nodes caches cacheStack 1 log0).
Local Abbreviation Bounds := (Bounds req backend nodes caches cacheStack).
Local Abbreviation InOrder := (InOrder req backend nodes caches cacheStack).
Local Abbreviation start := (Service.init nodes 1 log0).

Local Arguments Nat.ltb : simpl never.

Lemma omap_insert_last {A B} (f : A → option B) (l : list A) i x y b :
  l !! i = Some x → i + 1 = length l → f x = None → f y = Some b →
  omap f (<[i := y]> l) = omap f l ++ [b].
Proof.
  revert i. induction l as [|a l IH]; intros [|i] Hi Hlen Hx Hy;
    simplify_eq/=.
  - destruct l; [|simpl in Hlen; lia]. cbn. by rewrite Hx, Hy.
  - rewrite (IH i) by (done || lia). by destruct (f a).
Qed.

Lemma none_holds (ws : list (Node * worker_pc)) i w :
  sum_list_with holds ws = 0 → ws !! i = Some w → holds w = 0.
Proof. intros Hsum Hi. pose proof (holds_le_sum _ _ _ Hi). lia. Qed.

Lemma init_InOrder : InOrder start.
Proof.
  constructor; cbn; try done. intros _. by exists [].
Qed.

Lemma step_main_InOrder st st' :
  Service.panicked st = None →
  Service.step_main st = Some st' →
  Inv st → Bounds st → InOrder st → InOrder st'.
Proof.
  intros Hnp Hstep HInv [Hsem _ _ _] [Hholds Hsent Hreturned].
  pose proof HInv as [Hsp Htok Hwg _ _ _ (Hcap & _) Hcl _ _ _].
  destruct Hcl as (Hloop & Hcq & Hce & Hcs & Hw).
  unfold Service.step_main in Hstep.
  destruct (Service.main st) as [[|node rest]|node rest| |h|r] eqn:Hm;
    cbn in Hsent.
  - simplify_eq. constructor; cbn; rewrite ?Hm; try done.
  - destruct (decide _); simplify_eq; constructor; cbn; rewrite ?Hm;
      try done.
  - unfold chan.send in Hstep.
    destruct (chan.closed _).
    { simplify_eq. constructor; cbn; rewrite ?Hm; try done. }
    destruct (Nat.ltb_spec (length (chan.buf (Service.semaphore st)))
                (chan.cap (Service.semaphore st))) as [Hroom|]; simplify_eq.
    assert (sum_list_with holds (Service.workers st) = 0) as Hnone by lia.
    constructor; cbn; rewrite ?Hm; try done.
    + intros i w Hi Hlt. rewrite length_app in Hlt. cbn in Hlt.
      rewrite lookup_app_l in Hi by lia. by eapply none_holds.
    + intros _. destruct (Hsent eq_refl) as (pushed & Hh & Hp).
      exists pushed. split; [done|].
      rewrite omap_app. cbn. by rewrite app_nil_r.
  - unfold chan.recv in Hstep.
    destruct (chan.buf (Service.errChan st)) as [|err b].
    + assert (st' = Service.set_main (Service.AtDrain (heap.Init [])) st)
        as -> by (by destruct (chan.closed _); simplify_eq).
      constructor; cbn; rewrite ?Hm; try done.
    + simplify_eq. constructor; cbn; rewrite ?Hm; try done.
      intros r [= <-]. left. by eexists.
  - unfold chan.recv in Hstep. destruct (Hsent eq_refl) as (pushed & Hh & Hp).
    destruct (chan.buf (Service.queryChan st)) as [|q b] eqn:Hbuf.
    + destruct (chan.closed (Service.queryChan st)) eqn:Hclosed; simplify_eq.
      constructor; cbn; rewrite ?Hm; try done.
      intros r [= <-]. right. f_equal. unfold heap_in_order. f_equal.
      rewrite app_nil_r in Hp. rewrite Hp.
      assert (past_wait (Service.closer st) = true) as Hpw
        by (by destruct (Service.closer st)).
      specialize (Hw Hpw). rewrite Hw in Hwg. cbn in Hwg.
      destruct (all_exited_sent req backend nodes caches cacheStack
                  (Service.workers st)) as [-> _]; [lia|].
      cbn in Hsp. by rewrite <-Hsp, app_nil_r.
    + simplify_eq. constructor; cbn; rewrite ?Hm; try done.
      intros _. exists (pushed ++ [q]). split.
      * by rewrite foldl_app.
      * by rewrite <-app_assoc.
  - done.
Qed.

Lemma step_worker_InOrder i st st' :
  Service.panicked st = None →
  Service.step_worker req backend nodes caches cacheStack i st = Some st' →
  InOrder st → InOrder st'.
Proof.
  intros Hnp Hstep [Hholds Hsent Hreturned].
  unfold Service.step_worker in Hstep.
  destruct (Service.workers st !! i) as [[node pc]|] eqn:Hi; [|done].
  assert (∀ pc',
            holds (node, pc') ≤ holds (node, pc) →
            ∀ j w, <[i := (node, pc')]> (Service.workers st) !! j = Some w →
                   j + 1 < length (<[i := (node, pc')]> (Service.workers st)) →
                   holds w = 0) as Hkeep.
  { intros pc' Hle j w Hj Hlt. rewrite length_insert in Hlt.
    destruct (decide (j = i)) as [->|Hne].
    - rewrite list_lookup_insert_eq in Hj by (by eapply lookup_lt_Some).
      injection Hj as <-. specialize (Hholds _ _ Hi Hlt). lia.
    - rewrite list_lookup_insert_ne in Hj by done. by eapply Hholds. }
  destruct pc.
  - destruct (Service.script req) as [sc|] eqn:Hsc;
      [|simplify_eq; by constructor].
    assert (evaluate req backend nodes caches cacheStack node
            = Some (graph.ParseAndExecute sc backend (graph.Node.Name node)
                      nodes caches (bool_decide (length cacheStack = 0))))
      as Heval by (unfold evaluate; by rewrite Hsc).
    assert (i + 1 = length (Service.workers st)) as Hlast.
    { pose proof (lookup_lt_Some _ _ _ Hi).
      destruct (decide (i + 1 < length (Service.workers st))) as [Hlt|]; [|lia].
      by specialize (Hholds _ _ Hi Hlt). }
    destruct (graph.ParseAndExecute _ _ _ _ _ _) as [execute|err] eqn:Hexec.
    + unfold chan.send in Hstep. cbn in Hstep.
      destruct (chan.closed _); [simplify_eq; by constructor|].
      destruct (_ <? _); simplify_eq. constructor; cbn; try done.
      * by apply Hkeep.
      * intros Hr. destruct (Hsent Hr) as (pushed & Hh & Hp).
        exists pushed. split; [done|]. rewrite app_assoc, Hp. symmetry.
        eapply omap_insert_last; [done|done|done|].
        unfold sent_ok, ok_query. cbn. by rewrite Heval.
    + unfold chan.send in Hstep. cbn in Hstep.
      destruct (chan.closed _); [simplify_eq; by constructor|].
      destruct (_ <? _); simplify_eq. constructor; cbn; try done.
      * by apply Hkeep.
      * intros Hr. destruct (Hsent Hr) as (pushed & Hh & Hp).
        exists pushed. split; [done|]. rewrite Hp.
        erewrite omap_insert_same; [done|done|].
        unfold sent_ok, ok_query. cbn. by rewrite Heval.
  - unfold chan.recv in Hstep.
    assert (InOrder
              (Service.set_workers
                 (<[i := (node, AtWgDone)]> (Service.workers st)) st))
      as Hsame.
    { constructor; cbn; try done.
      - apply Hkeep. cbn. lia.
      - intros Hr. destruct (Hsent Hr) as (pushed & Hh & Hp).
        exists pushed. split; [done|]. rewrite Hp.
        by erewrite omap_insert_same. }
    destruct (chan.buf (Service.semaphore st)) as [|[] b].
    + by destruct (chan.closed _); simplify_eq.
    + simplify_eq. by destruct Hsame.
  - destruct (Service.wg st); simplify_eq; [by constructor|].
    constructor; cbn; try done.
    + apply Hkeep. cbn. lia.
    + intros Hr. destruct (Hsent Hr) as (pushed & Hh & Hp).
      exists pushed. split; [done|]. rewrite Hp.
      by erewrite omap_insert_same.
  - done.
Qed.

Lemma step_closer_InOrder st st' :
  Service.step_closer st = Some st' → InOrder st → InOrder st'.
Proof.
  intros Hstep [Hholds Hsent Hreturned].
  unfold Service.step_closer, chan.close in Hstep.
  destruct (Service.closer st); try done.
  - destruct (Service.wg st); simplify_eq. by constructor.
  - destruct (chan.closed _); simplify_eq; by constructor.
  - destruct (chan.closed _); simplify_eq; by constructor.
  - destruct (chan.closed _); simplify_eq; by constructor.
Qed.

Lemma exec_InOrder sched st :
  Inv st → Bounds st → InOrder st → InOrder (exec sched st).
Proof.
  revert st. induction sched as [|g sched IH]; intros st HInv HB HO; [done|].
  simpl. destruct (step g st) as [st'|] eqn:Hstep; [|by apply IH].
  apply IH; [by eapply step_Inv|by eapply step_Bounds|].
  unfold Service.step in Hstep.
  destruct (Service.panicked st) eqn:Hp; [done|].
  destruct g; eauto using step_main_InOrder, step_worker_InOrder,
    step_closer_InOrder.
Qed.

Lemma in_order sched : InOrder (exec sched start).
Proof.
  apply exec_InOrder; [apply init_Inv|apply init_Bounds|apply init_InOrder].
Qed.
End OrderTheory.

(* ===================================================================== *)
(** ** Further properties: the leaderboard handler *)

Section LeaderboardProperties.
Context {any Sto : Type} `{!graph.Package any Sto}.
Implicit Types (s : Service.t Sto) (ctx : context.Context).

Lemma load_no_crash s msg w : Service.run s Service.load ≠ (Crash msg, w).
Proof.
  unfold Service.load, Service.run, Service.enter, mbind, mret, Op_bind,
    Op_ret, bind, ret, fail, try_wrap, try, logged. cbn.
  destruct (graph.ToBeCached _) as [ids|]; cbn; [|done].
  destruct (decide _); cbn; [done|].
  destruct (graph.GetAllKeys _) as [keys|]; cbn; [|done].
  destruct (graph.GetNodes _ _); cbn; [|done].
  destruct (graph.GetCaches _ _); cbn; [|done].
  destruct (graph.ToBeCached _); cbn; done.
Qed.

Lemma collect_no_crash (h : queryHeap.t any) msg :
  is_heap h → Service.collect h ≠ Crash msg.
Proof.
  intros Hh. unfold Service.collect, queryHeap.Len.
  destruct (fill_total (length h) h (replicate (length h) None) eq_refl Hh)
    as [[qs' ->]|(q & err & _ & _ & ->)]; done.
Qed.

(** a response is what [collect] makes of a heap of the entries sent *)
Lemma CustomLeaderboard_Val_collect s ctx req sched resp w :
  Service.CustomLeaderboard s ctx req sched = (Some (Val resp), w) →
  ∃ nodes caches cacheStack w0 h,
    Service.run s Service.load = (Val (nodes, caches, cacheStack), w0) ∧
    (0 ≤ Service.concurrency s)%Z ∧
    Service.collect h = Val resp ∧ is_heap h ∧
    h ≡ₚ omap (ok_query req (Service.storage s) nodes caches cacheStack)
           (named nodes) ∧
    Service.main
      (Service.exec req (Service.storage s) nodes caches cacheStack sched
         (Service.init nodes (Z.to_nat (Service.concurrency s)) (log w0)))
    = Service.Returned (Val resp).
Proof.
  intros Hret. pose proof Hret as Hret'. unfold Service.CustomLeaderboard in Hret.
  destruct (Service.run s Service.load)
    as [[[[nodes caches] cacheStack]|err|msg] w0] eqn:Hload; [|done|done].
  destruct (Z.ltb_spec (Service.concurrency s) 0) as [|HK]; [done|].
  destruct (load_Val s _ _ _ _ Hload) as [Hst _].
  rewrite Hst in Hret.
  set (st := Service.exec _ _ _ _ _ _ _) in *.
  injection Hret as Hout _.
  pose proof (exec_Inv req (Service.storage s) nodes caches cacheStack
                (Z.to_nat (Service.concurrency s)) (log w0) sched _
                (init_Inv _ _ _ _ _ _ _)) as HInv.
  fold st in HInv. unfold Service.outcome in Hout.
  destruct (Service.main st) as [| | | |r] eqn:Hm;
    try (by destruct (Service.panicked st)).
  injection Hout as ->.
  destruct (inv_returned _ _ _ _ _ _ _ _ HInv _ Hm)
    as [(node & err & ? & _)|(h & Hc & Hh & Hperm & _)]; [done|].
  by exists nodes, caches, cacheStack, w0, h.
Qed.



(** X9.  For a request that carries a script, [CustomLeaderboard] panics
    exactly when the concurrency budget is negative.  With a budget of 0
    or more the call does not end in a panic under any schedule, and
    none of its goroutines panics, before or after the caller has
    returned: no send on a closed channel, no second close, no negative
    wait-group counter.  With a negative budget, once the backend has
    been read, [make(chan struct{}, s.concurrency)] panics. *)
Theorem CustomLeaderboard_panics_only_on_negative_budget
    s ctx req sc sched :
  Service.script req = Some sc →
  ((0 ≤ Service.concurrency s)%Z →
     ∀ msg,
       (Service.CustomLeaderboard s ctx req sched).1 ≠ Some (Crash msg)) ∧
  (∀ nodes caches cacheStack K log0,
     Service.panicked
       (Service.exec req (Service.storage s) nodes caches cacheStack sched
          (Service.init nodes K log0)) = None) ∧
  ((Service.concurrency s < 0)%Z →
     ∀ nodes caches cacheStack,
       loads s nodes caches cacheStack →
       (Service.CustomLeaderboard s ctx req sched).1
       = Some (Crash "makechan: size out of range")).
Proof.
  intros Hsc.
  assert (∀ nodes caches cacheStack K log0,
            Service.panicked
              (Service.exec req (Service.storage s) nodes caches cacheStack
                 sched (Service.init nodes K log0)) = None) as Hnp.
  { intros nodes caches cacheStack K log0.
    pose proof (exec_Inv req (Service.storage s) nodes caches cacheStack
                  K log0 sched _ (init_Inv _ _ _ _ _ _ _)) as HInv.
    destruct (Service.panicked _) as [msg|] eqn:Hp; [|done].
    destruct (inv_panicked _ _ _ _ _ _ _ _ HInv _ Hp) as [Hn _].
    by rewrite Hsc in Hn. }
  split_and!; [|done|].
  - intros HK msg. unfold Service.CustomLeaderboard.
    destruct (Service.run s Service.load)
      as [[[[nodes caches] cacheStack]|err|msg'] w0] eqn:Hload.
    + destruct (Z.ltb_spec (Service.concurrency s) 0) as [|_]; [lia|].
      cbn. unfold Service.outcome.
      pose proof (exec_Inv req (store w0) nodes caches cacheStack
                    (Z.to_nat (Service.concurrency s)) (log w0) sched _
                    (init_Inv _ _ _ _ _ _ _)) as HInv.
      destruct (load_Val s _ _ _ _ Hload) as [Hst _]. rewrite Hst in *.
      rewrite Hnp.
      destruct (Service.main _) as [| | | |r] eqn:Hm; try done.
      destruct (inv_returned _ _ _ _ _ _ _ _ HInv _ Hm)
        as [(node & err & -> & _)|(h & -> & Hh & _)]; [done|].
      intros [= Hc]. by eapply collect_no_crash.
    + done.
    + by destruct (load_no_crash s msg' w0).
  - intros HK nodes caches cacheStack [w0 Hload].
    unfold Service.CustomLeaderboard. rewrite Hload.
    by destruct (Z.ltb_spec (Service.concurrency s) 0) as [|]; [|lia].
Qed.


(** X11.  An error that [CustomLeaderboard] returns is one of three: the
    error of reading the backend at lines 137 to 163, as the call wraps
    it; the error [graph.ParseAndExecute] gave for some named node, handed
    on as it is; or the error of [json.Marshal] on the metadata of a named
    node whose evaluation succeeded, also as it is. *)
Theorem CustomLeaderboard_error_provenance s ctx req sched err w :
  Service.CustomLeaderboard s ctx req sched = (Some (Exn err), w) →
  Service.run s Service.load = (Exn err, w) ∨
  ∃ nodes caches cacheStack node,
    loads s nodes caches cacheStack ∧ node ∈ named nodes ∧
    (evaluate req (Service.storage s) nodes caches cacheStack node
     = Some (Err err) ∨
     (∃ execute,
        evaluate req (Service.storage s) nodes caches cacheStack node
        = Some (Ok execute)) ∧
     graph.json_Marshal (graph.Node.Metadata node) = Err err).
Proof.
  intros Hret. unfold Service.CustomLeaderboard in Hret.
  destruct (Service.run s Service.load)
    as [[[[nodes caches] cacheStack]|err'|msg] w0] eqn:Hload;
    [|left; by simplify_eq|done].
  right.
  destruct (Z.ltb_spec (Service.concurrency s) 0) as [|HK]; [done|].
  destruct (load_Val s _ _ _ _ Hload) as [Hst _]. rewrite Hst in Hret.
  set (st := Service.exec _ _ _ _ _ _ _) in *.
  injection Hret as Hout _.
  pose proof (exec_Inv req (Service.storage s) nodes caches cacheStack
                (Z.to_nat (Service.concurrency s)) (log w0) sched _
                (init_Inv _ _ _ _ _ _ _)) as HInv.
  fold st in HInv. unfold Service.outcome in Hout.
  destruct (Service.main st) as [| | | |r] eqn:Hm;
    try (by destruct (Service.panicked st)).
  injection Hout as ->.
  exists nodes, caches, cacheStack.
  destruct (inv_returned _ _ _ _ _ _ _ _ HInv _ Hm)
    as [(node & err' & [= <-] & Hin & Herr)|(h & Hc & Hh & Hperm & _)].
  - exists node. split_and!; [by exists w0|done|]. left.
    unfold err_of in Herr.
    by destruct (evaluate _ _ _ _ _ node) as [[?|?]|]; simplify_eq.
  - unfold Service.collect, queryHeap.Len in Hc.
    destruct (fill_total (length h) h (replicate (length h) None) eq_refl Hh)
      as [[qs' Hf]|(q & e & Hq & Hconv & Hf)]; rewrite Hf in Hc; [done|].
    injection Hc as ->.
    rewrite Hperm in Hq. apply list_elem_of_omap in Hq as (node & Hin & Hok).
    exists node. split_and!; [by exists w0|done|]. right.
    unfold ok_query in Hok.
    destruct (evaluate _ _ _ _ _ node) as [[execute|?]|]; simplify_eq.
    split; [by eexists|].
    unfold NodeToServiceNode in Hconv. cbn in Hconv.
    destruct (graph.json_Marshal (graph.Node.Metadata node)); congruence.
Qed.
Lemma converts_entry_of (l : list (Query.t any))
    (qs : list (option service.Query.t)) :
  Forall2 converts l qs → qs = entry_of <$> l.
Proof.
  induction 1 as [|q o l qs (sn & Hsn & ->) _ IH]; [done|].
  cbn. unfold entry_of at 1. rewrite Hsn. by f_equal.
Qed.

Lemma collect_Val_shape (h : queryHeap.t any) resp :
  Service.collect h = Val resp →
  resp = connect.HeaderSet "Service-Version" "v1"
           (connect.NewResponse
              (service.CustomLeaderboardResponse.mk
                 (service.CustomLeaderboardResponse.Queries
                    (connect.Body resp)))).
Proof.
  unfold Service.collect. destruct (Service.fill _ _ _); [|done..].
  by intros [= <-].
Qed.



(** X13.  A leaderboard that [CustomLeaderboard] returns lists the named
    nodes whose evaluation succeeded, each once with its own output, and
    nothing else: a node without a name, or one whose evaluation failed,
    has no entry.  No entry is nil, the entries are in descending order
    of output cardinality, and the response carries the header
    [Service-Version: v1]. *)
Theorem CustomLeaderboard_lists_the_evaluated_nodes
    s ctx req sched resp w :
  Service.CustomLeaderboard s ctx req sched = (Some (Val resp), w) →
  ∃ nodes caches cacheStack l,
    loads s nodes caches cacheStack ∧
    l ≡ₚ omap (ok_query req (Service.storage s) nodes caches cacheStack)
           (named nodes) ∧
    service.CustomLeaderboardResponse.Queries (connect.Body resp)
    = entry_of <$> l ∧
    service.CustomLeaderboardResponse.Queries (connect.Body resp)
    = Some <$> entries resp ∧
    StronglySorted
      (λ a b, length (service.Query.Output b) ≤ length (service.Query.Output a))
      (entries resp) ∧
    connect.Header resp = <["Service-Version" := ["v1"]]> ∅.
Proof.
  intros Hret.
  destruct (CustomLeaderboard_Val_collect _ _ _ _ _ _ Hret)
    as (nodes & caches & cacheStack & w0 & h & Hload & HK & Hc & Hh & Hperm & _).
  destruct (collect_sorted h resp Hc Hh) as (l & Hl & Hsorted & Hconv).
  destruct (converts_entries _ _ Hconv) as [Hsome Hout].
  exists nodes, caches, cacheStack, l. split_and!.
  - by exists w0.
  - by rewrite Hl.
  - by apply converts_entry_of.
  - exact Hsome.
  - by eapply sorted_by_cardinality_entries.
  - by rewrite (collect_Val_shape h resp Hc).
Qed.

(** X14.  The concurrency budget, the schedule and the cancellation
    token do not change what a leaderboard holds.  Two calls on the same
    backend with the same request that both return a leaderboard return
    the same entries, each as often; and they return the same response
    when no two entries have outputs of the same cardinality. *)
Theorem CustomLeaderboard_budget_independent
    s1 s2 ctx1 ctx2 req sched1 sched2 resp1 resp2 w1 w2 :
  Service.storage s1 = Service.storage s2 →
  Service.CustomLeaderboard s1 ctx1 req sched1 = (Some (Val resp1), w1) →
  Service.CustomLeaderboard s2 ctx2 req sched2 = (Some (Val resp2), w2) →
  entries resp1 ≡ₚ entries resp2 ∧
  ((∀ q1 q2, q1 ∈ entries resp1 → q2 ∈ entries resp1 →
             length (service.Query.Output q1)
             = length (service.Query.Output q2) → q1 = q2) →
   resp1 = resp2).
Proof.
  intros Hst H1 H2.
  destruct (CustomLeaderboard_Val_collect _ _ _ _ _ _ H1)
    as (nodes & caches & cacheStack & w0 & h1 & Hload1 & _ & Hc1 & Hh1 & Hp1 & _).
  destruct (CustomLeaderboard_Val_collect _ _ _ _ _ _ H2)
    as (nodes' & caches' & cacheStack' & w0' & h2 & Hload2 & _ & Hc2 & Hh2 & Hp2 & _).
  unfold Service.run, Service.enter in Hload1, Hload2.
  rewrite Hst in Hload1, Hp1. rewrite Hload1 in Hload2.
  injection Hload2 as <- <- <- <-.
  destruct (collect_sorted h1 resp1 Hc1 Hh1) as (l1 & Hl1 & Hs1 & Hconv1).
  destruct (collect_sorted h2 resp2 Hc2 Hh2) as (l2 & Hl2 & Hs2 & Hconv2).
  destruct (converts_entries _ _ Hconv1) as [Hsome1 Hout1].
  destruct (converts_entries _ _ Hconv2) as [Hsome2 Hout2].
  assert (entries resp1 ≡ₚ entries resp2) as Hperm.
  { unfold entries.
    rewrite (converts_entry_of _ _ Hconv1), (converts_entry_of _ _ Hconv2).
    by rewrite Hl1, Hp1, <-Hp2, <-Hl2. }
  split; [done|]. intros Hdistinct.
  assert (entries resp1 = entries resp2) as Heq.
  { apply (StronglySorted_unique_strong
             (λ a b, length (service.Query.Output b)
                     ≤ length (service.Query.Output a)));
      [|by eapply sorted_by_cardinality_entries
       |by eapply sorted_by_cardinality_entries|done].
    intros q1 q2 Hq1 Hq2 H12 H21. rewrite <-Hperm in Hq2.
    apply Hdistinct; [done|done|lia]. }
  rewrite (collect_Val_shape h1 resp1 Hc1), (collect_Val_shape h2 resp2 Hc2).
  unfold entries in Heq. by rewrite Hsome1, Hsome2, Heq.
Qed.
Lemma nil_script_no_failures req (backend : Sto) nodes caches cacheStack :
  Service.script req = None →
  failures req backend nodes caches cacheStack = [].
Proof.
  intros Hsc. unfold failures.
  induction (named nodes) as [|n ns IH]; [done|]. cbn.
  unfold err_of at 1, evaluate. by rewrite Hsc.
Qed.

(** X15.  The [select] on [errChan] cannot miss the errors when more
    evaluations fail than the semaphore has tokens.  When the number of
    named nodes whose evaluation fails is above the concurrency budget,
    [CustomLeaderboard] returns no leaderboard under any schedule: all it
    can return is the error of one of these evaluations, as the evaluator
    gave it; and with a positive budget every run can be continued to
    such a return.  (By the time the caller has started its last worker,
    all but [K] workers have sent.) *)
Theorem CustomLeaderboard_notices_failures_above_the_budget
    s ctx req nodes caches cacheStack :
  loads s nodes caches cacheStack → (0 ≤ Service.concurrency s)%Z →
  Z.to_nat (Service.concurrency s)
  < length (failures req (Service.storage s) nodes caches cacheStack) →
  (∀ sched r w,
     Service.CustomLeaderboard s ctx req sched = (Some r, w) →
     ∃ err, r = Exn err ∧
            err ∈ failures req (Service.storage s) nodes caches cacheStack) ∧
  ((0 < Service.concurrency s)%Z →
   ∀ sched, ∃ sched' err w,
     Service.CustomLeaderboard s ctx req (sched ++ sched')
     = (Some (Exn err), w)).
Proof.
  intros Hloads HK Hmany.
  assert (∀ sched r w,
            Service.CustomLeaderboard s ctx req sched = (Some r, w) →
            ∃ err, r = Exn err ∧
                   err ∈ failures req (Service.storage s) nodes caches
                           cacheStack) as Herr.
  { intros sched r w. destruct Hloads as [w0 Hload].
    rewrite (CustomLeaderboard_run _ _ _ _ _ _ _ _ Hload) by done.
    destruct (reachable req (Service.storage s) nodes caches cacheStack
                (Z.to_nat (Service.concurrency s)) (log w0) sched)
      as [HInv HB].
    pose proof (noticing req (Service.storage s) nodes caches cacheStack
                  (Z.to_nat (Service.concurrency s)) (log w0) sched)
      as [_ Hpassed].
    set (st := Service.exec _ _ _ _ _ _ _) in *. intros [= Hout _].
    unfold Service.outcome in Hout.
    destruct (Service.main st) as [| | | |r'] eqn:Hm.
    5:{ injection Hout as ->. destruct Hpassed as [?|?]; [done|lia]. }
    all: destruct (Service.panicked st) as [msg|] eqn:Hp; [|done].
    all: destruct (inv_panicked _ _ _ _ _ _ _ _ HInv _ Hp) as [Hsc _].
    all: rewrite (nil_script_no_failures _ _ _ _ _ Hsc) in Hmany.
    all: cbn in Hmany; lia. }
  split; [exact Herr|].
  intros HK' sched.
  destruct (CustomLeaderboard_ends s ctx req sched _ _ _ Hloads)
    as (sched' & r & w & Hr); [by left|].
  destruct (Herr _ _ _ Hr) as (err & -> & _). by exists sched', err, w.
Qed.
(** X16.  With a concurrency budget of 1 the leaderboard does not depend
    on the schedule, ties included.  The one token lets a worker start
    only when the worker before it has sent, so the entries reach the
    caller in the order of the stored nodes, and the response is what the
    caller makes of the heap into which the entries of the named nodes
    whose evaluation succeeds are pushed in that order: any two runs that
    return a leaderboard return the same one. *)
Theorem CustomLeaderboard_budget_of_one_is_sequential
    s ctx req nodes caches cacheStack :
  Service.concurrency s = 1%Z → loads s nodes caches cacheStack →
  ∀ sched resp w,
    Service.CustomLeaderboard s ctx req sched = (Some (Val resp), w) →
    Val resp
    = Service.collect
        (heap_in_order req (Service.storage s) nodes caches cacheStack) ∧
    ∀ sched' resp' w',
      Service.CustomLeaderboard s ctx req sched' = (Some (Val resp'), w') →
      resp' = resp.
Proof.
  intros HK [w0 Hload].
  assert (∀ sched resp w,
            Service.CustomLeaderboard s ctx req sched = (Some (Val resp), w) →
            Val resp
            = Service.collect
                (heap_in_order req (Service.storage s) nodes caches
                   cacheStack)) as Hone.
  { intros sched resp w.
    rewrite (CustomLeaderboard_run _ _ _ _ _ _ _ _ Hload) by lia.
    rewrite HK. change (Z.to_nat 1) with 1.
    pose proof (in_order req (Service.storage s) nodes caches cacheStack
                  (log w0) sched) as [_ _ Hreturned].
    set (st := Service.exec _ _ _ _ _ _ _) in *. intros [= Hout _].
    unfold Service.outcome in Hout.
    destruct (Service.main st) as [| | | |r] eqn:Hm;
      try (by destruct (Service.panicked st)).
    injection Hout as ->.
    by destruct (Hreturned _ eq_refl) as [[err ?]|?]. }
  intros sched resp w Hret. split; [by eapply Hone|].
  intros sched' resp' w' Hret'.
  apply Hone in Hret. apply Hone in Hret'. congruence.
Qed.
End LeaderboardProperties.

(* ===================================================================== *)
(** ** Further properties: the other handlers *)

Section HandlerProperties.
Context {any Sto : Type} `{!graph.Package any Sto}.
Implicit Types (s : Service.t Sto) (ctx : context.Context).

Local Ltac unfold_body :=
  unfold Service.run, Service.enter, mbind, mret, Op_bind, Op_ret, bind, ret,
    fail, panic, try_wrap, try, try_wrap_upd, lift_wrap, deref, logged;
  cbn.

(** the loop that converts the nodes: all of them, in their order *)
Lemma for_append_Ok {A B} (format : string) (f : A → result B)
    (xs : list A) (ys zs : list B) (w : World Sto) :
  Forall2 (λ x z, f x = Ok z) xs zs →
  for_append format f xs ys w = (Val (ys ++ zs), w).
Proof.
  intros Hall. revert ys.
  induction Hall as [|x z xs zs Hx _ IH]; intros ys; cbn.
  - by rewrite app_nil_r.
  - rewrite Hx, IH. by rewrite <-app_assoc.
Qed.

(** the loop stops at the first node that does not convert *)
Lemma for_append_Err {A B} (format : string) (f : A → result B)
    (pre : list A) (x : A) (post : list A) (ys : list B) (w : World Sto) err :
  Forall (λ x, ∃ z, f x = Ok z) pre → f x = Err err →
  for_append format f (pre ++ x :: post) ys w
  = (Exn (Errorf_w format err), w).
Proof.
  intros Hpre Hx. revert ys.
  induction Hpre as [|a pre [z Ha] _ IH]; intros ys; cbn.
  - by rewrite Hx.
  - rewrite Ha. apply IH.
Qed.

(** X17.  [GetNodeByName] is [GetNode] on the identifier the name
    resolves to: it returns the same node, or fails with the same error,
    after one more call on the backend.  When the name does not resolve,
    the error of [NameToID] comes back wrapped as "failed to get node by
    name" and no node is looked up. *)
Theorem GetNodeByName_gets_the_node_of_the_id s ctx name :
  let by_name :=
    Service.GetNodeByName s ctx
      (Some {| connect.Msg := Some (service.GetNodeByNameRequest.mk name) |}) in
  match graph.NameToID (Service.storage s) name with
  | Err err =>
      by_name
      = (Exn (Errorf_w "failed to get node by name: %w" err),
         {| store := Service.storage s; log := [CallNameToID name] |})
  | Ok id =>
      let by_id :=
        Service.GetNode s ctx
          (Some {| connect.Msg := Some (service.GetNodeRequest.mk id) |}) in
      log by_name.2 = CallNameToID name :: log by_id.2 ∧
      store by_name.2 = store by_id.2 ∧
      match by_id.1 with
      | Val resp =>
          by_name.1
          = Val (connect.NewResponse
                   (service.GetNodeByNameResponse.mk
                      (service.GetNodeResponse.Node (connect.Body resp))))
      | Exn err => by_name.1 = Exn err
      | Crash msg => by_name.1 = Crash msg
      end
  end.
Proof.
  unfold Service.GetNodeByName, Service.GetNode. unfold_body.
  destruct (graph.NameToID (Service.storage s) name) as [id|err]; [|done].
  cbn. destruct (graph.GetNode (Service.storage s) id) as [node|err];
    [|done].
  cbn. by destruct (NodeToServiceNode node).
Qed.

(** X18.  [AllKeys] and [GetNodesByGlob] answer with all the nodes the
    backend returned or with none: the response holds the conversion of
    every node, in the order of the backend, an empty list for no nodes;
    and when some node does not convert, the call fails with the error of
    the first such node, wrapped as "failed to convert node to service
    node". *)
Theorem list_handlers_convert_all_or_fail s ctx :
  (∀ req keys nodes,
     graph.GetAllKeys (Service.storage s) = Ok keys →
     graph.GetNodes (Service.storage s) keys = Ok nodes →
     let w := {| store := Service.storage s;
                 log := [CallGetAllKeys; CallGetNodes keys] |} in
     (∀ sns,
        Forall2 (λ node sn, NodeToServiceNode node = Ok sn) nodes sns →
        Service.AllKeys s ctx req
        = (Val (connect.NewResponse (service.AllKeysResponse.mk sns)), w)) ∧
     (∀ pre node post err,
        nodes = pre ++ node :: post →
        Forall (λ n, ∃ sn, NodeToServiceNode n = Ok sn) pre →
        NodeToServiceNode node = Err err →
        Service.AllKeys s ctx req
        = (Exn (Errorf_w "failed to convert node to service node: %w" err),
           w))) ∧
  (∀ pattern nodes,
     graph.GetNodesByGlob (Service.storage s) pattern = Ok nodes →
     let req :=
       Some {| connect.Msg :=
                 Some (service.GetNodesByGlobRequest.mk pattern) |} in
     let w := {| store := Service.storage s;
                 log := [CallGetNodesByGlob pattern] |} in
     (∀ sns,
        Forall2 (λ node sn, NodeToServiceNode node = Ok sn) nodes sns →
        Service.GetNodesByGlob s ctx req
        = (Val (connect.NewResponse (service.GetNodesByGlobResponse.mk sns)),
           w)) ∧
     (∀ pre node post err,
        nodes = pre ++ node :: post →
        Forall (λ n, ∃ sn, NodeToServiceNode n = Ok sn) pre →
        NodeToServiceNode node = Err err →
        Service.GetNodesByGlob s ctx req
        = (Exn (Errorf_w "failed to convert node to service node: %w" err),
           w))).
Proof.
  split.
  - intros req keys nodes Hk Hn w. split.
    + intros sns Hall. unfold Service.AllKeys. unfold_body.
      rewrite Hk. cbn. rewrite Hn. cbn.
      by rewrite (for_append_Ok _ _ _ [] sns _ Hall).
    + intros pre node post err -> Hpre Herr.
      unfold Service.AllKeys. unfold_body.
      rewrite Hk. cbn. rewrite Hn. cbn.
      by rewrite (for_append_Err _ _ pre node post [] _ err Hpre Herr).
  - intros pattern nodes Hn req w. split.
    + intros sns Hall. unfold Service.GetNodesByGlob. unfold_body.
      rewrite Hn. cbn.
      by rewrite (for_append_Ok _ _ _ [] sns _ Hall).
    + intros pre node post err -> Hpre Herr.
      unfold Service.GetNodesByGlob. unfold_body.
      rewrite Hn. cbn.
      by rewrite (for_append_Err _ _ pre node post [] _ err Hpre Herr).
Qed.

(** X19.  [AddNode] hands the type, the metadata and the name of the
    requested node to [graph.AddNode] and nothing else: the identifier
    and the adjacency lists a client sends are not read.  The backend is
    left as [graph.AddNode] leaves it, also when the call returns an
    error: a node that was added and then fails to convert stays
    added. *)
Theorem AddNode_keeps_what_graph_AddNode_did s ctx r msg n :
  connect.Msg r = Some msg → service.AddNodeRequest.Node msg = Some n →
  let added :=
    graph.AddNode (Service.storage s) (service.Node.Type_ n)
      (graph.bytes_any (service.Node.Metadata n)) (service.Node.Name n) in
  let out := Service.AddNode s ctx (Some r) in
  store out.2 = added.2 ∧
  log out.2 = [CallAddNode (service.Node.Type_ n) (service.Node.Name n)] ∧
  match added.1 with
  | Err err => out.1 = Exn (Errorf_w "failed to add node: %w" err)
  | Ok node =>
      match NodeToServiceNode node with
      | Err err =>
          out.1
          = Exn (Errorf_w "failed to convert node to service node: %w" err)
      | Ok sn =>
          out.1 = Val (connect.NewResponse (service.AddNodeResponse.mk sn))
      end
  end ∧
  ∀ id deps dependents,
    Service.AddNode s ctx
      (Some {| connect.Msg :=
                 Some (service.AddNodeRequest.mk
                         (Some (service.Node.mk id (service.Node.Name n)
                                  (service.Node.Type_ n)
                                  (service.Node.Metadata n) deps
                                  dependents))) |})
    = out.
Proof.
  intros Hmsg Hnode added out. subst added out.
  unfold Service.AddNode. unfold_body. rewrite Hmsg. cbn. rewrite Hnode. cbn.
  destruct (graph.AddNode _ _ _ _) as [[node|err] st]; cbn; [|done].
  by destruct (NodeToServiceNode node).
Qed.


(** X21.  [Query] reads the backend before it looks into its request.  A
    failure of one of its four reads comes back, wrapped by the name of
    the read, whatever the request holds; and a request without a
    message makes [Query] panic on [req.Msg.Script], but only once the
    four reads have succeeded. *)
Theorem Query_reads_before_it_unpacks s ctx r :
  let out := Service.Query s ctx (Some r) in
  let st := Service.storage s in
  match graph.GetAllKeys st with
  | Err err =>
      out = (Exn (Errorf_w "failed to get all keys: %w" err),
             {| store := st; log := [CallGetAllKeys] |})
  | Ok keys =>
      match graph.GetNodes st keys with
      | Err err =>
          out = (Exn (Errorf_w "failed to get nodes by keys: %w" err),
                 {| store := st; log := [CallGetAllKeys; CallGetNodes keys] |})
      | Ok nodes =>
          match graph.GetCaches st keys with
          | Err err =>
              out = (Exn (Errorf_w "failed to get caches by keys: %w" err),
                     {| store := st;
                        log := [CallGetAllKeys; CallGetNodes keys;
                                CallGetCaches keys] |})
          | Ok caches =>
              match graph.ToBeCached st with
              | Err err =>
                  out
                  = (Exn (Errorf_w "failed to get to be cached nodes: %w" err),
                     {| store := st;
                        log := [CallGetAllKeys; CallGetNodes keys;
                                CallGetCaches keys; CallToBeCached] |})
              | Ok cacheStack =>
                  connect.Msg r = None →
                  out
                  = (Crash "invalid memory address or nil pointer dereference",
                     {| store := st;
                        log := [CallGetAllKeys; CallGetNodes keys;
                                CallGetCaches keys; CallToBeCached] |})
              end
          end
      end
  end.
Proof.
  unfold Service.Query. unfold_body.
  destruct (graph.GetAllKeys (Service.storage s)) as [keys|]; [|done].
  cbn. destruct (graph.GetNodes (Service.storage s) keys) as [nodes|];
    [|done].
  cbn. destruct (graph.GetCaches (Service.storage s) keys) as [caches|];
    [|done].
  cbn. destruct (graph.ToBeCached (Service.storage s)) as [cacheStack|];
    [|done].
  cbn. by intros ->.
Qed.

Lemma ToArray_NoDup (b : roaring.Bitmap) : NoDup (roaring.ToArray b).
Proof.
  unfold roaring.ToArray. rewrite merge_sort_Permutation. apply NoDup_elements.
Qed.

Lemma ToArray_to_set (b : roaring.Bitmap) :
  list_to_set (roaring.ToArray b) = b.
Proof.
  apply set_eq. intros x. by rewrite elem_of_list_to_set, ToArray_elem_of.
Qed.

(** X22.  [NodeToServiceNode] fails exactly when [json.Marshal] of the
    metadata fails, and with that error.  Where it succeeds it loses
    nothing but the form of the metadata: the RPC node carries the
    identifier, the name and the type of the graph node, its dependency
    and dependent lists have no duplicates and give back the [Children]
    and [Parents] sets, so two graph nodes with the same RPC node agree
    on all of these. *)
Theorem NodeToServiceNode_keeps_identity_and_adjacency :
  (∀ (node : graph.Node.t any) err,
     NodeToServiceNode node = Err err
     ↔ graph.json_Marshal (graph.Node.Metadata node) = Err err) ∧
  (∀ (node : graph.Node.t any) sn,
     NodeToServiceNode node = Ok sn →
     service.Node.Id sn = graph.Node.ID node ∧
     service.Node.Name sn = graph.Node.Name node ∧
     service.Node.Type_ sn = graph.Node.Type_ node ∧
     graph.json_Marshal (graph.Node.Metadata node)
     = Ok (service.Node.Metadata sn) ∧
     NoDup (service.Node.Dependencies sn) ∧
     NoDup (service.Node.Dependents sn) ∧
     list_to_set (service.Node.Dependencies sn) = graph.Node.Children node ∧
     list_to_set (service.Node.Dependents sn) = graph.Node.Parents node) ∧
  (∀ (n1 n2 : graph.Node.t any) sn,
     NodeToServiceNode n1 = Ok sn → NodeToServiceNode n2 = Ok sn →
     graph.Node.ID n1 = graph.Node.ID n2 ∧
     graph.Node.Name n1 = graph.Node.Name n2 ∧
     graph.Node.Type_ n1 = graph.Node.Type_ n2 ∧
     graph.Node.Children n1 = graph.Node.Children n2 ∧
     graph.Node.Parents n1 = graph.Node.Parents n2).
Proof.
  assert (∀ (node : graph.Node.t any) sn,
            NodeToServiceNode node = Ok sn →
            service.Node.Id sn = graph.Node.ID node ∧
            service.Node.Name sn = graph.Node.Name node ∧
            service.Node.Type_ sn = graph.Node.Type_ node ∧
            graph.json_Marshal (graph.Node.Metadata node)
            = Ok (service.Node.Metadata sn) ∧
            NoDup (service.Node.Dependencies sn) ∧
            NoDup (service.Node.Dependents sn) ∧
            list_to_set (service.Node.Dependencies sn)
            = graph.Node.Children node ∧
            list_to_set (service.Node.Dependents sn)
            = graph.Node.Parents node) as Hok.
  { intros node sn. unfold NodeToServiceNode.
    destruct (graph.json_Marshal _) as [data|]; [|done]. intros [= <-]. cbn.
    split_and!; try done; auto using ToArray_NoDup, ToArray_to_set. }
  split_and!; [|done|].
  - intros node err. unfold NodeToServiceNode.
    destruct (graph.json_Marshal _); split; congruence.
  - intros n1 n2 sn H1 H2.
    destruct (Hok _ _ H1) as (? & ? & ? & _ & _ & _ & ? & ?).
    destruct (Hok _ _ H2) as (? & ? & ? & _ & _ & _ & ? & ?).
    split_and!; congruence.
Qed.
End HandlerProperties.

(* ===================================================================== *)
(** ** Further properties: the command that ingests SBOMs *)

Section CommandProperties.
Context {Sto : Type} `{!ingest.Package Sto} `{!tools.Package}.

Lemma progress_lines_cons index data (docs : list ingest.Data.t) :
  progress_lines index (data :: docs)
  = sbom.progress (index + 1)
      (tools.TruncateString (ingest.Data.Path data) 50)
    :: progress_lines (index + 1) docs.
Proof.
  unfold progress_lines. cbn. rewrite Nat.add_0_r. f_equal.
  apply imap_ext. intros i d _. cbn. f_equal. lia.
Qed.

Lemma Run_loop_ingests index docs (p : sbom.Process Sto) st' :
  ingests (sbom.backend p) docs st' →
  sbom.Run_loop index docs p
  = (Val (), sbom.mkProcess st' (sbom.stdout p ++ progress_lines index docs)).
Proof.
  revert index p. induction docs as [|data docs IH]; intros index p Hin.
  - inversion Hin; subst. cbn. rewrite app_nil_r. by destruct p.
  - inversion Hin as [|? ? st1 ? ? Hdata Hrest]; subst.
    rewrite progress_lines_cons. cbn [sbom.Run_loop]. rewrite Hdata.
    rewrite IH by done. cbn [sbom.backend sbom.stdout].
    by rewrite <-app_assoc.
Qed.

Lemma Run_loop_fails index pre data post (p : sbom.Process Sto) st1 st2 err :
  ingests (sbom.backend p) pre st1 →
  ingest.SBOM st1 (ingest.Data.Data data) = (Some err, st2) →
  sbom.Run_loop index (pre ++ data :: post) p
  = (Exn (Errorf_w "failed to ingest SBOM: %w" err),
     sbom.mkProcess st2 (sbom.stdout p ++ progress_lines index pre)).
Proof.
  revert index p. induction pre as [|d pre IH]; intros index p Hin Hfail.
  - inversion Hin; subst. cbn. rewrite Hfail. by rewrite app_nil_r.
  - inversion Hin as [|? ? st' ? ? Hd Hrest]; subst.
    rewrite progress_lines_cons. cbn [sbom.Run_loop app]. rewrite Hd.
    rewrite IH by done. cbn [sbom.backend sbom.stdout].
    by rewrite <-app_assoc.
Qed.

(** X23.  When every document ingests, [Run] takes the documents of the
    path in the order [LoadDataFromPath] gave them, writes one progress
    line after each, the [i]-th line showing the count [i] and the
    truncated path of the [i]-th document, and then the line of success;
    it returns the nil error.  Arguments after the first are not read;
    and for a path without documents it writes the line of success
    alone. *)
Theorem sbom_Run_ingests_in_order (o : sbom.options Sto) path args docs st0 st1 :
  ingest.LoadDataFromPath (sbom.storage o) path = (Ok docs, st0) →
  ingests st0 docs st1 →
  sbom.Run o (path :: args)
  = (Val (), sbom.mkProcess st1 (progress_lines 0 docs ++ [sbom.success])) ∧
  length (progress_lines 0 docs) = length docs ∧
  ∀ i data,
    docs !! i = Some data →
    progress_lines 0 docs !! i
    = Some (sbom.progress (i + 1)
              (tools.TruncateString (ingest.Data.Path data) 50)).
Proof.
  intros Hload Hin. split_and!.
  - unfold sbom.Run. rewrite Hload.
    by rewrite (Run_loop_ingests 0 docs (sbom.mkProcess st0 []) st1 Hin).
  - unfold progress_lines. by rewrite length_imap.
  - intros i data Hi. unfold progress_lines.
    rewrite list_lookup_imap, Hi. done.
Qed.

(** X24.  [Run] stops at the first document that does not ingest: it
    returns the error of [ingest.SBOM] wrapped as "failed to ingest SBOM",
    the documents before it stay ingested, the documents after it are not
    touched, one progress line has been written for each document before
    it, and the line of success is not written.  A failure to load the
    path comes back under the same wrapping with nothing written, and
    without an argument [Run] panics on [args[0]]. *)
Theorem sbom_Run_stops_at_the_first_failure (o : sbom.options Sto) :
  (∀ path args pre data post st0 st1 st2 err,
     ingest.LoadDataFromPath (sbom.storage o) path
     = (Ok (pre ++ data :: post), st0) →
     ingests st0 pre st1 →
     ingest.SBOM st1 (ingest.Data.Data data) = (Some err, st2) →
     sbom.Run o (path :: args)
     = (Exn (Errorf_w "failed to ingest SBOM: %w" err),
        sbom.mkProcess st2 (progress_lines 0 pre))) ∧
  (∀ path args err st0,
     ingest.LoadDataFromPath (sbom.storage o) path = (Err err, st0) →
     sbom.Run o (path :: args)
     = (Exn (Errorf_w "failed to ingest SBOM: %w" err),
        sbom.mkProcess st0 [])) ∧
  sbom.Run o []
  = (Crash "index out of range [0] with length 0",
     sbom.mkProcess (sbom.storage o) []).
Proof.
  split_and!.
  - intros path args pre data post st0 st1 st2 err Hload Hin Hfail.
    unfold sbom.Run. rewrite Hload.
    by rewrite (Run_loop_fails 0 pre data post (sbom.mkProcess st0 [])
                  st1 st2 err Hin Hfail).
  - intros path args err st0 Hload. unfold sbom.Run. by rewrite Hload.
  - done.
Qed.
End CommandProperties.

(* ===================================================================== *)
(** ** The further properties on concrete input *)

Lemma example_three_is_heap : is_heap example.three.
Proof.
  intros k Hk0 Hk. cbn in Hk.
  assert (k = 1 ∨ k = 2) as [-> | ->] by lia; vm_compute; lia.
Qed.

(** X3, witness: the first and the last entry of the heap of three. *)
Lemma queryHeap_Swap_exchanges_witness :
  queryHeap.Swap example.three 0 2 !! 0 = example.three !! 2 ∧
  queryHeap.Swap (queryHeap.Swap example.three 0 2) 0 2 = example.three.
Proof.
  destruct (queryHeap_Swap_exchanges example.three 0 2)
    as (H0 & _ & _ & _ & Hinv); [cbn; lia..|].
  split; [exact H0|exact Hinv].
Defined.

(** X4, witness: a fourth entry pushed on the heap of three. *)
Lemma heap_Push_keeps_heap_witness :
  is_heap (heap.Push example.three example.entryC) ∧
  heap.Push example.three example.entryC ≡ₚ example.entryC :: example.three.
Proof.
  destruct (heap_Push_keeps_heap example.three example.entryC
              example_three_is_heap) as (Hh & Hp & _).
  split; [exact Hh|exact Hp].
Defined.

(** X5, witness: the heap of three gives up its entry without output. *)
Lemma heap_Pop_takes_least_witness :
  ∃ x h', heap.Pop example.three = Some (x, h') ∧ is_heap h' ∧
          Query.Output x = [].
Proof.
  destruct (heap_Pop_takes_least example.three example_three_is_heap)
    as (x & h' & Hpop & Hh' & _ & _ & Hmin); [done|].
  exists x, h'. split_and!; [exact Hpop|exact Hh'|].
  specialize (Hmin (Query.mk memory.nodeD []) ltac:(by left)).
  cbn in Hmin. destruct (Query.Output x); [done|cbn in Hmin; lia].
Defined.

(** X8, witness: the diamond with four workers at once and a script
    that does not parse, from a run in which the caller has gone past
    its [select] before the workers send their errors. *)
Lemma goroutines_all_finish_witness :
  ∃ sched',
    quiescent
      (Service.exec scenario.malformed memory.diamond
         (memory.nodes memory.diamond) scenario.diamond_caches []
         (scenario.caller_first ++ sched')
         (Service.init (memory.nodes memory.diamond) 4 [])).
Proof.
  destruct (goroutines_all_finish scenario.malformed memory.diamond
              (memory.nodes memory.diamond) scenario.diamond_caches [] 4 [])
    with (sched := scenario.caller_first) as (sched' & Hq & _).
  - left. lia.
  - intros Hn. vm_compute in Hn. discriminate Hn.
  - exists sched'. exact Hq.
Defined.

(** X9, witness: the diamond, one worker at a time. *)
Lemma CustomLeaderboard_panics_only_on_negative_budget_witness :
  (∀ msg,
     (Service.CustomLeaderboard (NewService memory.diamond 1)
        context.Background scenario.focus_dependencies scenario.in_turn).1
     ≠ Some (Crash msg)) ∧
  (Service.CustomLeaderboard (NewService memory.diamond (-1))
     context.Background scenario.focus_dependencies scenario.in_turn).1
  = Some (Crash "makechan: size out of range").
Proof.
  split.
  - destruct (CustomLeaderboard_panics_only_on_negative_budget
                (NewService memory.diamond 1) context.Background
                scenario.focus_dependencies "dependencies * focus"
                scenario.in_turn eq_refl) as (Hno & _ & _).
    apply Hno. cbn. lia.
  - destruct (CustomLeaderboard_panics_only_on_negative_budget
                (NewService memory.diamond (-1)) context.Background
                scenario.focus_dependencies "dependencies * focus"
                scenario.in_turn eq_refl) as (_ & _ & Hneg).
    apply (Hneg ltac:(cbn; lia) (memory.nodes memory.diamond)
             scenario.diamond_caches []).
    eexists. vm_compute. reflexivity.
Defined.


(** X11, witness: the diamond, one worker at a time, and a script that
    does not parse. *)
Lemma CustomLeaderboard_error_provenance_witness :
  ∃ err w,
    Service.CustomLeaderboard (NewService memory.diamond 1)
      context.Background scenario.malformed scenario.in_turn
    = (Some (Exn err), w) ∧
    ∃ nodes caches cacheStack node,
      loads (NewService memory.diamond 1) nodes caches cacheStack ∧
      node ∈ named nodes ∧
      evaluate scenario.malformed memory.diamond nodes caches cacheStack node
      = Some (Err err).
Proof.
  assert (∃ err w,
            Service.CustomLeaderboard (NewService memory.diamond 1)
              context.Background scenario.malformed scenario.in_turn
            = (Some (Exn err), w)) as (err & w & Hrun)
    by (eexists _, _; vm_compute; reflexivity).
  exists err, w. split; [exact Hrun|].
  destruct (CustomLeaderboard_error_provenance (NewService memory.diamond 1)
              context.Background scenario.malformed scenario.in_turn err w
              Hrun)
    as [Hload|(nodes & caches & cacheStack & node & Hl & Hin & Hev)].
  - exfalso. vm_compute in Hload. discriminate Hload.
  - exists nodes, caches, cacheStack, node.
    split_and!; [exact Hl|exact Hin|].
    destruct Hev as [Hev|[_ Hm]]; [exact Hev|].
    exfalso. cbn in Hm. discriminate Hm.
Defined.


(** X13, witness: the diamond, one worker at a time. *)
Lemma CustomLeaderboard_lists_the_evaluated_nodes_witness :
  ∃ resp w,
    Service.CustomLeaderboard (NewService memory.diamond 1)
      context.Background scenario.focus_dependencies scenario.in_turn
    = (Some (Val resp), w) ∧
    service.CustomLeaderboardResponse.Queries (connect.Body resp)
    = Some <$> entries resp ∧
    connect.Header resp = <["Service-Version" := ["v1"]]> ∅.
Proof.
  assert (∃ resp w,
            Service.CustomLeaderboard (NewService memory.diamond 1)
              context.Background scenario.focus_dependencies scenario.in_turn
            = (Some (Val resp), w)) as (resp & w & Hrun)
    by (eexists _, _; vm_compute; reflexivity).
  destruct (CustomLeaderboard_lists_the_evaluated_nodes
              (NewService memory.diamond 1) context.Background
              scenario.focus_dependencies scenario.in_turn resp w Hrun)
    as (nodes & caches & cacheStack & l & _ & _ & _ & Hsome & _ & Hheader).
  exists resp, w. split_and!; [exact Hrun|exact Hsome|exact Hheader].
Defined.

(** X14, witness: the chain with a budget of three and with a budget of
    one, under different schedules and tokens. *)
Lemma CustomLeaderboard_budget_independent_witness :
  ∃ resp1 resp2 w1 w2,
    Service.CustomLeaderboard (NewService memory.chain 3)
      context.Background scenario.focus_dependencies scenario.last_first
    = (Some (Val resp1), w1) ∧
    Service.CustomLeaderboard (NewService memory.chain 1)
      scenario.cancelled scenario.focus_dependencies scenario.in_turn
    = (Some (Val resp2), w2) ∧
    entries resp1 ≡ₚ entries resp2.
Proof.
  assert (∃ resp w,
            Service.CustomLeaderboard (NewService memory.chain 3)
              context.Background scenario.focus_dependencies
              scenario.last_first
            = (Some (Val resp), w)) as (resp1 & w1 & Hrun1)
    by (eexists _, _; vm_compute; reflexivity).
  assert (∃ resp w,
            Service.CustomLeaderboard (NewService memory.chain 1)
              scenario.cancelled scenario.focus_dependencies scenario.in_turn
            = (Some (Val resp), w)) as (resp2 & w2 & Hrun2)
    by (eexists _, _; vm_compute; reflexivity).
  destruct (CustomLeaderboard_budget_independent
              (NewService memory.chain 3) (NewService memory.chain 1)
              context.Background scenario.cancelled
              scenario.focus_dependencies scenario.last_first
              scenario.in_turn resp1 resp2 w1 w2 eq_refl Hrun1 Hrun2)
    as [Hperm _].
  exists resp1, resp2, w1, w2. split_and!; [exact Hrun1|exact Hrun2|exact Hperm].
Defined.

(** X15, witness: the diamond with a budget of three and a script that does
    not parse, so that four evaluations fail; the run begins as the one that
    loses the errors under a budget of four. *)
Lemma CustomLeaderboard_notices_failures_above_the_budget_witness :
  ∃ sched' err w,
    Service.CustomLeaderboard (NewService memory.diamond 3)
      context.Background scenario.malformed (scenario.caller_first ++ sched')
    = (Some (Exn err), w).
Proof.
  assert (loads (NewService memory.diamond 3) (memory.nodes memory.diamond)
            scenario.diamond_caches []) as Hloads
    by (eexists; vm_compute; reflexivity).
  assert (length (failures scenario.malformed memory.diamond
                    (memory.nodes memory.diamond) scenario.diamond_caches [])
          = 4) as Hfour by (vm_compute; reflexivity).
  destruct (CustomLeaderboard_notices_failures_above_the_budget
              (NewService memory.diamond 3) context.Background
              scenario.malformed (memory.nodes memory.diamond)
              scenario.diamond_caches [] Hloads ltac:(cbn; lia))
    as [_ Hsome].
  - change (Service.storage (NewService memory.diamond 3))
      with memory.diamond.
    rewrite Hfour. cbn. lia.
  - apply Hsome. cbn. lia.
Defined.

(** X16, witness: the diamond with a budget of one. *)
Lemma CustomLeaderboard_budget_of_one_is_sequential_witness :
  ∃ resp w,
    Service.CustomLeaderboard (NewService memory.diamond 1)
      context.Background scenario.focus_dependencies scenario.in_turn
    = (Some (Val resp), w) ∧
    ∀ sched' resp' w',
      Service.CustomLeaderboard (NewService memory.diamond 1)
        context.Background scenario.focus_dependencies sched'
      = (Some (Val resp'), w') →
      resp' = resp.
Proof.
  assert (loads (NewService memory.diamond 1) (memory.nodes memory.diamond)
            scenario.diamond_caches []) as Hloads
    by (eexists; vm_compute; reflexivity).
  assert (∃ resp w,
            Service.CustomLeaderboard (NewService memory.diamond 1)
              context.Background scenario.focus_dependencies scenario.in_turn
            = (Some (Val resp), w)) as (resp & w & Hrun)
    by (eexists _, _; vm_compute; reflexivity).
  destruct (CustomLeaderboard_budget_of_one_is_sequential
              (NewService memory.diamond 1) context.Background
              scenario.focus_dependencies (memory.nodes memory.diamond)
              scenario.diamond_caches [] eq_refl Hloads
              scenario.in_turn resp w Hrun) as [_ Hsame].
  exists resp, w. split; [exact Hrun|exact Hsame].
Defined.

(** X18, witness: all the keys of the diamond. *)
Lemma list_handlers_convert_all_or_fail_witness :
  ∃ sns,
    Service.AllKeys (NewService memory.diamond 1) context.Background None
    = (Val (connect.NewResponse (service.AllKeysResponse.mk sns)),
       {| store := memory.diamond;
          log := [CallGetAllKeys; CallGetNodes [1; 2; 3; 4]%N] |}) ∧
    length sns = 4.
Proof.
  destruct (list_handlers_convert_all_or_fail (NewService memory.diamond 1)
              context.Background) as [Hall _].
  destruct (Hall None [1; 2; 3; 4]%N (memory.nodes memory.diamond)
              eq_refl eq_refl) as [Hok _].
  eexists. split; [apply Hok|].
  - repeat constructor.
  - reflexivity.
Defined.

(** X19, witness: the node [E] added to the diamond. *)
Lemma AddNode_keeps_what_graph_AddNode_did_witness :
  let r := {| connect.Msg :=
                Some (service.AddNodeRequest.mk (Some example.add_E)) |} in
  store (Service.AddNode (NewService memory.diamond 1) context.Background
           (Some r)).2
  = (memory.AddNode memory.diamond "library" [] "E").2.
Proof.
  intros r.
  destruct (AddNode_keeps_what_graph_AddNode_did
              (NewService memory.diamond 1) context.Background r
              (service.AddNodeRequest.mk (Some example.add_E)) example.add_E
              eq_refl eq_refl) as (Hstore & _).
  exact Hstore.
Defined.


(** X23, witness: the two documents of the path [sboms]. *)
Lemma sbom_Run_ingests_in_order_witness :
  sbom.Run (sbom.mk ([] : shelf.t)) ["sboms"; "more"]
  = (Val (),
     sbom.mkProcess
       [ingest.Data.Data shelf.first; ingest.Data.Data shelf.second]
       (progress_lines 0 [shelf.first; shelf.second] ++ [sbom.success])).
Proof.
  apply (sbom_Run_ingests_in_order (sbom.mk ([] : shelf.t)) "sboms" ["more"]
           [shelf.first; shelf.second] []).
  - reflexivity.
  - eapply ingests_cons; [reflexivity|].
    eapply ingests_cons; [reflexivity|]. apply ingests_nil.
Defined.

(** X24, witness: the path [mixed], whose second document is refused. *)
Lemma sbom_Run_stops_at_the_first_failure_witness :
  sbom.Run (sbom.mk ([] : shelf.t)) ["mixed"]
  = (Exn (Errorf_w "failed to ingest SBOM: %w"
            (Errorf "unexpected end of input")),
     sbom.mkProcess [ingest.Data.Data shelf.first]
       (progress_lines 0 [shelf.first])).
Proof.
  destruct (sbom_Run_stops_at_the_first_failure (sbom.mk ([] : shelf.t)))
    as (Hstop & _ & _).
  apply (Hstop "mixed" [] [shelf.first] shelf.blank [shelf.second] []
           [ingest.Data.Data shelf.first]).
  - reflexivity.
  - eapply ingests_cons; [reflexivity|]. apply ingests_nil.
  - reflexivity.
Defined.
